(** * Global rules server: a shallow embedding of [GlobalRulesServer]

    The server exposes two tools, [loadGlobalRules] and [saveGlobalRules].
    Both read [config.json], then copy every directory entry whose name
    starts with [g-] and that is a regular file from a source directory to
    a target directory.

    The TypeScript methods are written against Node's [fs], [path] and
    [JSON] modules.  Those modules are not part of the repository: they
    are the interface [NodeEnv] below, a type class whose laws say what
    the methods rely on.  The methods themselves ([loadConfig],
    [copyGlobalRulesFiles], [handleLoadGlobalRules],
    [handleSaveGlobalRules]) are embedded one to one over that interface,
    in a state-and-exception monad.  [MemEnv], further down, is an
    executable in-memory instance of the interface.

    Strings are UTF-8 byte sequences.  A location on the disk is the
    sequence of entry names that leads to it from the root; symbolic and
    hard links are outside the model. *)

From Stdlib Require Import String Ascii List ZArith Bool Lia.
From stdpp Require Import base option list strings gmap.

Open Scope string_scope.
Open Scope list_scope.

(** ** JavaScript values and exceptions *)

#[local] Set Warnings "-register-all".

(** What [JSON.parse] can return, plus [undefined] for absent properties.
    A number is kept as its decimal literal [mantissa * 10 ^ exponent];
    the value the program sees is the double nearest to it. *)
Inductive JsValue : Type :=
| JsUndefined
| JsNull
| JsBool (b : bool)
| JsNumber (mantissa exponent : Z)
| JsString (s : string)
| JsArray (items : list JsValue)
| JsObject (props : list (string * JsValue)).

(** A thrown value: an [Error] instance with its [message], or anything
    else.  The catch clauses test [error instanceof Error]. *)
Inductive JsThrown : Type :=
| ThrownError (message : string)
| ThrownOther.

(** [error instanceof Error ? error.message : fallback] *)
Definition error_message_or (fallback : string) (error : JsThrown) : string :=
  match error with
  | ThrownError m => m
  | ThrownOther => fallback
  end.

(** Own property lookup on an object built by [JSON.parse]: a later
    duplicate key overrides an earlier one. *)
Fixpoint lookup_prop (key : string) (props : list (string * JsValue)) : JsValue :=
  match props with
  | [] => JsUndefined
  | (k, v) :: rest =>
      match lookup_prop key rest with
      | JsUndefined => if String.eqb k key then v else JsUndefined
      | found => found
      end
  end.

(** [value.key] for a key that no prototype defines: reading a property
    of [null] or [undefined] throws a [TypeError]; primitives and arrays
    have no such property. *)
Definition get_property (value : JsValue) (key : string) : JsThrown + JsValue :=
  match value with
  | JsUndefined =>
      inl (ThrownError ("Cannot read properties of undefined (reading '" ++ key ++ "')"))
  | JsNull =>
      inl (ThrownError ("Cannot read properties of null (reading '" ++ key ++ "')"))
  | JsObject props => inr (lookup_prop key props)
  | _ => inr JsUndefined
  end.

(** The double nearest to [m * 10 ^ e] is [0] or [-0]: the literal is
    zero, or its magnitude is at most [2 ^ -1075], half the least positive
    double (at exactly one half the tie goes to the even neighbour, [0]).
    For [e >= 0] the right-hand side is at most [1], which leaves
    [m = 0]. *)
Definition rounds_to_zero (m e : Z) : bool :=
  (Z.abs m * 2 ^ 1075 <=? 10 ^ (- e))%Z.

(** [!value] is [negb (truthy value)].  Of the numbers [JSON.parse] can
    return, only [0] and [-0] are falsy. *)
Definition truthy (value : JsValue) : bool :=
  match value with
  | JsUndefined | JsNull => false
  | JsBool b => b
  | JsNumber m e => negb (rounds_to_zero m e)
  | JsString s => negb (String.eqb s "")
  | JsArray _ | JsObject _ => true
  end.

(** ** String helpers: [startsWith] and [trim] *)

(** Strings are kept as UTF-8 byte sequences. *)
Definition string_of_codes (codes : list nat) : string :=
  string_of_list_ascii (map ascii_of_nat codes).

Definition string_rev (s : string) : string :=
  string_of_list_ascii (rev (list_ascii_of_string s)).

(** [file.startsWith('g-')] *)
Definition startsWith (s pre : string) : bool := String.prefix pre s.

(** The code points ECMAScript's [trim] removes (WhiteSpace and
    LineTerminator), in UTF-8. *)
Definition js_whitespace : list string :=
  map string_of_codes
    [ [9]; [10]; [11]; [12]; [13]; [32];
      [194; 160];
      [225; 154; 128];
      [226; 128; 128]; [226; 128; 129]; [226; 128; 130]; [226; 128; 131];
      [226; 128; 132]; [226; 128; 133]; [226; 128; 134]; [226; 128; 135];
      [226; 128; 136]; [226; 128; 137]; [226; 128; 138];
      [226; 128; 168]; [226; 128; 169]; [226; 128; 175];
      [226; 129; 159];
      [227; 128; 128];
      [239; 187; 191] ].

(** [strip_prefix pre s] is the rest of [s] after [pre], if [s] starts
    with [pre]. *)
Fixpoint strip_prefix (pre s : string) : option string :=
  match pre, s with
  | EmptyString, _ => Some s
  | String a pre', String b s' =>
      if Ascii.eqb a b then strip_prefix pre' s' else None
  | String _ _, EmptyString => None
  end.

Fixpoint strip_first (pres : list string) (s : string) : option string :=
  match pres with
  | [] => None
  | pre :: rest =>
      match strip_prefix pre s with
      | Some s' => Some s'
      | None => strip_first rest s
      end
  end.

Fixpoint trim_start_fuel (ws : list string) (fuel : nat) (s : string) : string :=
  match fuel with
  | O => s
  | S n =>
      match strip_first ws s with
      | Some s' => trim_start_fuel ws n s'
      | None => s
      end
  end.

Definition js_trimStart (s : string) : string :=
  trim_start_fuel js_whitespace (String.length s) s.

Definition js_trimEnd (s : string) : string :=
  let r := string_rev s in
  string_rev (trim_start_fuel (map string_rev js_whitespace) (String.length r) r).

(** [s.trim()] *)
Definition js_trim (s : string) : string := js_trimEnd (js_trimStart s).

(** [value.trim()]: only strings have the method; calling it on any
    other value that passed the truthiness test throws a [TypeError]. *)
Definition call_trim (value : JsValue) : JsThrown + string :=
  match value with
  | JsString s => inr (js_trim s)
  | JsUndefined | JsNull =>
      inl (ThrownError "Cannot read properties of undefined (reading 'trim')")
  | _ => inl (ThrownError "config.globalRulesSourceDir.trim is not a function")
  end.

(** ** The response model *)

Inductive ErrorType : Type :=
| CONFIG_PARSING_ERROR
| OPERATION_ERROR.

Record ErrorRecord : Type := mkError {
  type : ErrorType;
  message : string
}.

(** [GlobalRulesResponse] is the union of [{ success: true }] and
    [{ success: false, errors: [...] }].  The object is represented by
    its two properties; [errors := None] is an object without the
    [errors] key. *)
Record GlobalRulesResponse : Type := mkResponse {
  success : bool;
  errors : option (list ErrorRecord)
}.

Definition SuccessResponse : GlobalRulesResponse :=
  {| success := true; errors := None |}.

Definition FailedResponse (errs : list ErrorRecord) : GlobalRulesResponse :=
  {| success := false; errors := Some errs |}.

(** [LoadGlobalRulesRequest] and [SaveGlobalRulesRequest] are the same
    object type, [{ path: string }]. *)
Record ToolRequest : Type := { path : string }.
Definition LoadGlobalRulesRequest : Type := ToolRequest.
Definition SaveGlobalRulesRequest : Type := ToolRequest.

(** [type Config = { globalRulesSourceDir?: string }], the type of the
    [config] field of the server object. *)
Record Config : Type := { globalRulesSourceDir : option string }.

(** The result of [loadConfig]; on success it carries the parsed object. *)
Inductive ConfigResult : Type :=
| ConfigOk (config : JsValue)
| ConfigFailed (error : ErrorRecord).

(** The envelope the tool handlers return:
    [{ content: [{ type: 'text', text }] }]. *)
Record ContentItem : Type := { content_type : string; text : string }.
Record ToolResult : Type := { content : list ContentItem }.

Definition text_result (t : string) : ToolResult :=
  {| content := [ {| content_type := "text"; text := t |} ] |}.

(** ** The file system as the methods see it *)

(** What a location holds.  A regular file has its bytes and whether the
    process may write to it.  Links are outside the model: one location
    is reached by one normalised path. *)
Inductive FsNode : Type :=
| RegularFile (bytes : string) (writable : bool)
| Directory.

Definition is_regular (n : option FsNode) : bool :=
  match n with
  | Some (RegularFile _ _) => true
  | _ => false
  end.

(** The part of [fs.Stats] the code reads. *)
Record Stats : Type := { isFile : bool }.

(** A directory entry name: not empty, not [.] or [..], no separator. *)
Definition has_slash (s : string) : bool :=
  existsb (Ascii.eqb "/"%char) (list_ascii_of_string s).

Definition entry_name (f : string) : bool :=
  negb (String.eqb f "") && negb (String.eqb f ".") && negb (String.eqb f "..")
  && negb (has_slash f).

(** Node's [fs/promises], [path] and [JSON] as used by the server.
    [fs_lookup] and [path_locate] are the observations the laws are
    stated with: what a location holds, and which location (sequence of
    entry names from the root) a path string denotes. *)
Class NodeEnv : Type := {
  fs_state : Type;
  fs_lookup : fs_state -> list string -> option FsNode;
  path_locate : string -> list string;
  (** [path.join(...segments)] *)
  path_join : list string -> string;
  (** [path.resolve(__dirname, '../config.json')] *)
  configPath : string;
  fs_access : fs_state -> string -> JsThrown + unit;
  fs_readFile : fs_state -> string -> JsThrown + string;
  fs_readdir : fs_state -> string -> JsThrown + list string;
  fs_stat : fs_state -> string -> JsThrown + Stats;
  (** [fs.mkdir(p, { recursive: true })] *)
  fs_mkdir : fs_state -> string -> (JsThrown + unit) * fs_state;
  fs_copyFile : fs_state -> string -> string -> (JsThrown + unit) * fs_state;
  JSON_parse : string -> JsThrown + JsValue;
  (** [JSON.stringify(response, null, 2)] *)
  JSON_stringify : GlobalRulesResponse -> string;

  (** [path.join] of a directory and entry names denotes the entry. *)
  join_locate : forall d names,
    forallb entry_name names = true ->
    path_locate (path_join (d :: names)) = path_locate d ++ names;
  (** [access] rejects a path that denotes nothing. *)
  access_missing : forall s p,
    fs_lookup s (path_locate p) = None -> exists e, fs_access s p = inl e;
  (** [stat(p).isFile()] tells whether [p] denotes a regular file. *)
  stat_isFile : forall s p st,
    fs_stat s p = inr st -> isFile st = is_regular (fs_lookup s (path_locate p));
  (** [readdir] returns entry names, and every entry of the directory. *)
  readdir_names : forall s p l,
    fs_readdir s p = inr l -> forallb entry_name l = true;
  readdir_complete : forall s p l f,
    fs_readdir s p = inr l ->
    fs_lookup s (path_locate p ++ [f]) <> None -> In f l;
  (** Recursive [mkdir], whether it succeeds or throws, only adds
      directories, and only on the way to [p]. *)
  mkdir_frame : forall s p l,
    fs_lookup (snd (fs_mkdir s p)) l = fs_lookup s l \/
    (fs_lookup s l = None /\
     fs_lookup (snd (fs_mkdir s p)) l = Some Directory /\
     exists rest, path_locate p = l ++ rest);
  (** When it succeeds, [p] and its ancestors are directories. *)
  mkdir_ok : forall s p l rest,
    fst (fs_mkdir s p) = inr tt ->
    path_locate p = l ++ rest ->
    fs_lookup (snd (fs_mkdir s p)) l = Some Directory;
  (** [copyFile], whether it succeeds or throws, touches the destination
      only. *)
  copyFile_frame : forall s src dst l,
    l <> path_locate dst ->
    fs_lookup (snd (fs_copyFile s src dst)) l = fs_lookup s l;
  (** On success the destination is the source file, bytes and mode. *)
  copyFile_ok : forall s src dst,
    fst (fs_copyFile s src dst) = inr tt ->
    is_regular (fs_lookup s (path_locate src)) = true ->
    fs_lookup (snd (fs_copyFile s src dst)) (path_locate dst)
    = fs_lookup s (path_locate src);
  (** Copying a file onto itself leaves it as it is. *)
  copyFile_same : forall s src dst,
    path_locate src = path_locate dst ->
    fs_lookup (snd (fs_copyFile s src dst)) (path_locate dst)
    = fs_lookup s (path_locate dst)
}.

(** ** The state-and-exception monad of an [async] method *)

(** The object [GlobalRulesServer]: its [config] field ([server], the
    protocol endpoint, takes no part in the tool handlers' results). *)
Record GlobalRulesServer : Type := { config : Config }.

(** [private config: Config = {}] *)
Definition new_GlobalRulesServer : GlobalRulesServer :=
  {| config := {| globalRulesSourceDir := None |} |}.

Section Server.

Context `{Env : NodeEnv}.

(** What a method call can read and change: the disk and [this]. *)
Record World : Type := mkWorld {
  disk : fs_state;
  this : GlobalRulesServer
}.

(** A computation either returns or throws, and leaves a world. *)
Definition Js (A : Type) : Type := World -> (JsThrown + A) * World.

Definition ret {A} (a : A) : Js A := fun w => (inr a, w).

Definition throw {A} (e : JsThrown) : Js A := fun w => (inl e, w).

Definition bind {A B} (m : Js A) (k : A -> Js B) : Js B :=
  fun w =>
    match m w with
    | (inr a, w') => k a w'
    | (inl e, w') => (inl e, w')
    end.

(** [try { body } catch (error) { handler }] *)
Definition try_catch {A} (body : Js A) (handler : JsThrown -> Js A) : Js A :=
  fun w =>
    match body w with
    | (inr a, w') => (inr a, w')
    | (inl e, w') => handler e w'
    end.

(** A pure call that may throw ([JSON.parse], a property read). *)
Definition lift {A} (r : JsThrown + A) : Js A := fun w => (r, w).

(** A read-only [fs] call. *)
Definition reading {A} (op : fs_state -> JsThrown + A) : Js A :=
  fun w => (op (disk w), w).

(** An [fs] call that may change the disk. *)
Definition writing {A} (op : fs_state -> (JsThrown + A) * fs_state) : Js A :=
  fun w => (fst (op (disk w)), {| disk := snd (op (disk w)); this := this w |}).

Declare Scope js_scope.
Delimit Scope js_scope with js.
Notation "x <- m ;; k" := (bind m (fun x => k))
  (at level 100, m at next level, right associativity) : js_scope.
Notation "m ;;; k" := (bind m (fun _ => k))
  (at level 100, right associativity) : js_scope.
Local Open Scope js_scope.

Definition access (p : string) : Js unit := reading (fun s => fs_access s p).
Definition readFile (p : string) : Js string := reading (fun s => fs_readFile s p).
Definition readdir (p : string) : Js (list string) := reading (fun s => fs_readdir s p).
Definition stat (p : string) : Js Stats := reading (fun s => fs_stat s p).
Definition mkdir (p : string) : Js unit := writing (fun s => fs_mkdir s p).
Definition copyFile (src dst : string) : Js unit :=
  writing (fun s => fs_copyFile s src dst).

(** [fs.access(value)] for a value read from the parsed configuration:
    Node validates that the path is a string before it touches the disk. *)
Definition access_value (v : JsValue) : Js unit :=
  match v with
  | JsString s => access s
  | _ => throw (ThrownError "The path argument must be of type string")
  end.

(** ** [loadConfig] *)

Definition config_error (msg : string) : ConfigResult :=
  ConfigFailed {| type := CONFIG_PARSING_ERROR; message := msg |}.

Definition loadConfig : Js ConfigResult :=
  try_catch
    ((* Check if config file exists *)
     found <- try_catch (access configPath ;;; ret true) (fun _ => ret false) ;;
     if negb found then
       ret (config_error ("Configuration file " ++ configPath ++ " not found"))
     else
       (* Read and parse config *)
       configContent <- readFile configPath ;;
       config <- lift (JSON_parse configContent) ;;
       (* Check if globalRulesSourceDir is set *)
       dir <- lift (get_property config "globalRulesSourceDir") ;;
       unset <- (if negb (truthy dir) then ret true
                 else trimmed <- lift (call_trim dir) ;;
                      ret (String.eqb trimmed "")) ;;
       if (unset : bool) then
         ret (config_error "globalRulesSourceDir is not set or empty in config.json")
       else
         (* Check if the directory exists *)
         present <- try_catch (access_value dir ;;; ret true) (fun _ => ret false) ;;
         if negb present then
           ret (config_error
                  ("Global rules directory does not exist: "
                   ++ match dir with JsString s => s | _ => "" end))
         else ret (ConfigOk config))
    (fun error =>
       ret (config_error
              ("Failed to parse config.json: "
               ++ error_message_or "Unknown error" error))).

(** ** [copyGlobalRulesFiles] *)

Definition operation_error (msg : string) : ErrorRecord :=
  {| type := OPERATION_ERROR; message := msg |}.

(** The body of the [try] inside the loop, for one [file]. *)
Definition copyOne (sourceDir targetDir file : string) : Js unit :=
  let sourcePath := path_join [sourceDir; file] in
  let targetPath := path_join [targetDir; file] in
  (* Check if source is a file (not directory) *)
  st <- stat sourcePath ;;
  if isFile st then copyFile sourcePath targetPath else ret tt.

(** [for (const file of globalFiles) { try {...} catch (error) { errors.push(...) } }],
    with [errors] the array accumulated so far. *)
Fixpoint copyLoop (sourceDir targetDir : string) (globalFiles : list string)
    (errors : list ErrorRecord) : Js (list ErrorRecord) :=
  match globalFiles with
  | [] => ret errors
  | file :: rest =>
      errors' <- try_catch
                   (copyOne sourceDir targetDir file ;;; ret errors)
                   (fun error =>
                      ret (errors ++
                           [operation_error
                              ("Failed to copy " ++ file ++ ": "
                               ++ error_message_or "Unknown error" error)])) ;;
      copyLoop sourceDir targetDir rest errors'
  end.

Definition copyGlobalRulesFiles (sourceDir targetDir : string)
    : Js GlobalRulesResponse :=
  try_catch
    ((* Check if source directory exists *)
     found <- try_catch (access sourceDir ;;; ret true) (fun _ => ret false) ;;
     if negb found then
       ret (FailedResponse
              [operation_error ("Source directory does not exist: " ++ sourceDir)])
     else
       (* Create target directory if it doesn't exist *)
       mkdir targetDir ;;;
       (* Read all files from source directory *)
       files <- readdir sourceDir ;;
       let globalFiles := List.filter (fun file => startsWith file "g-") files in
       if Nat.eqb (List.length globalFiles) 0 then ret SuccessResponse
       else
         (* Copy each global file *)
         errors <- copyLoop sourceDir targetDir globalFiles [] ;;
         if Nat.ltb 0 (List.length errors) then ret (FailedResponse errors)
         else ret SuccessResponse)
    (fun error =>
       ret (FailedResponse
              [operation_error (error_message_or "Unknown error occurred" error)])).

(** ** The tool handlers *)

(** [configResult.config.globalRulesSourceDir!]: after a successful
    [loadConfig] the property is a string ([loadConfig_ok]). *)
Definition config_dir (config : JsValue) : string :=
  match get_property config "globalRulesSourceDir" with
  | inr (JsString s) => s
  | _ => ""
  end.

Definition handleLoadGlobalRules (request : LoadGlobalRulesRequest) : Js ToolResult :=
  (* Load configuration *)
  configResult <- loadConfig ;;
  match configResult with
  | ConfigFailed error =>
      ret (text_result (JSON_stringify {| success := false; errors := Some [error] |}))
  | ConfigOk config =>
      let sourceRulesDir := config_dir config in
      let targetRulesDir := path_join [path request; ".cursor"; "rules"] in
      result <- copyGlobalRulesFiles sourceRulesDir targetRulesDir ;;
      ret (text_result (JSON_stringify result))
  end.

Definition handleSaveGlobalRules (request : SaveGlobalRulesRequest) : Js ToolResult :=
  (* Load configuration *)
  configResult <- loadConfig ;;
  match configResult with
  | ConfigFailed error =>
      ret (text_result (JSON_stringify {| success := false; errors := Some [error] |}))
  | ConfigOk config =>
      let sourceRulesDir := path_join [path request; ".cursor"; "rules"] in
      let targetRulesDir := config_dir config in
      result <- copyGlobalRulesFiles sourceRulesDir targetRulesDir ;;
      ret (text_result (JSON_stringify result))
  end.

(** ** The dispatcher

    The [CallToolRequestSchema] handler passes [request.params.arguments]
    on with [args as LoadGlobalRulesRequest], a cast that checks nothing
    and is erased when the program is compiled: the handler runs on
    whatever the client sent, or on [undefined] when it sent no
    arguments.  [handleLoadGlobalRules_on] and [handleSaveGlobalRules_on]
    are the two handlers read that way, line by line, with [request] any
    value.  The only use they make of it is
    [path.join(request.path, '.cursor', 'rules')], evaluated after
    [loadConfig] has succeeded and outside any [try]. *)

(** The message of the [TypeError] ([ERR_INVALID_ARG_TYPE]) that
    [path.join] throws for an argument that is not a string; it shows the
    value the way [util.inspect] prints it. *)
Variable invalid_path_argument : JsValue -> string.

(** [path.join(request.path, '.cursor', 'rules')]: reading [path] throws
    when [request] is [undefined] or [null]; [path.join] throws when what
    was read is not a string. *)
Definition join_rules_dir (request : JsValue) : Js string :=
  requestPath <- lift (get_property request "path") ;;
  match requestPath with
  | JsString s => ret (path_join [s; ".cursor"; "rules"])
  | _ => throw (ThrownError (invalid_path_argument requestPath))
  end.

Definition handleLoadGlobalRules_on (request : JsValue) : Js ToolResult :=
  (* Load configuration *)
  configResult <- loadConfig ;;
  match configResult with
  | ConfigFailed error =>
      ret (text_result (JSON_stringify {| success := false; errors := Some [error] |}))
  | ConfigOk config =>
      let sourceRulesDir := config_dir config in
      targetRulesDir <- join_rules_dir request ;;
      result <- copyGlobalRulesFiles sourceRulesDir targetRulesDir ;;
      ret (text_result (JSON_stringify result))
  end.

Definition handleSaveGlobalRules_on (request : JsValue) : Js ToolResult :=
  (* Load configuration *)
  configResult <- loadConfig ;;
  match configResult with
  | ConfigFailed error =>
      ret (text_result (JSON_stringify {| success := false; errors := Some [error] |}))
  | ConfigOk config =>
      sourceRulesDir <- join_rules_dir request ;;
      let targetRulesDir := config_dir config in
      result <- copyGlobalRulesFiles sourceRulesDir targetRulesDir ;;
      ret (text_result (JSON_stringify result))
  end.

(** The [CallToolRequestSchema] handler, for the [name] and the
    [arguments] of [request.params]. *)
Definition callTool (name : string) (args : JsValue) : Js ToolResult :=
  if String.eqb name "loadGlobalRules" then handleLoadGlobalRules_on args
  else if String.eqb name "saveGlobalRules" then handleSaveGlobalRules_on args
  else throw (ThrownError ("Unknown tool: " ++ name)).

End Server.

(** ** The operations as the specification names them *)

Section Operations.

Context `{Env : NodeEnv}.

(** The object a handler passes to [JSON.stringify]: the handler is
    this computation followed by the envelope ([handler_envelope]). *)
Definition loadGlobalRules (request : LoadGlobalRulesRequest) : Js GlobalRulesResponse :=
  bind loadConfig (fun configResult =>
    match configResult with
    | ConfigFailed error => ret {| success := false; errors := Some [error] |}
    | ConfigOk config =>
        copyGlobalRulesFiles (config_dir config)
          (path_join [path request; ".cursor"; "rules"])
    end).

Definition saveGlobalRules (request : SaveGlobalRulesRequest) : Js GlobalRulesResponse :=
  bind loadConfig (fun configResult =>
    match configResult with
    | ConfigFailed error => ret {| success := false; errors := Some [error] |}
    | ConfigOk config =>
        copyGlobalRulesFiles (path_join [path request; ".cursor"; "rules"])
          (config_dir config)
    end).

(** The serialized envelope around a response. *)
Definition envelope (r : (JsThrown + GlobalRulesResponse) * World)
    : (JsThrown + ToolResult) * World :=
  (match fst r with
   | inr response => inr (text_result (JSON_stringify response))
   | inl e => inl e
   end, snd r).

(** A result obeys the invariant of the response type. *)
Definition well_formed (r : GlobalRulesResponse) : Prop :=
  (success r = false -> exists e es, errors r = Some (e :: es)) /\
  (success r = true -> errors r = None).

(** One attempt per file, in order, each on the world the previous one
    left: [Attempts src tgt w files outcomes w'] records what the body of
    the loop did for each file. *)
Inductive Attempts (sourceDir targetDir : string)
    : World -> list string -> list (string * (JsThrown + unit)) -> World -> Prop :=
| Attempts_nil w : Attempts sourceDir targetDir w [] [] w
| Attempts_cons w file rest r w1 outcomes w2 :
    copyOne sourceDir targetDir file w = (r, w1) ->
    Attempts sourceDir targetDir w1 rest outcomes w2 ->
    Attempts sourceDir targetDir w (file :: rest) ((file, r) :: outcomes) w2.

(** The error records a sequence of attempts gives rise to. *)
Definition error_of (outcome : string * (JsThrown + unit)) : list ErrorRecord :=
  match snd outcome with
  | inl error =>
      [ {| type := OPERATION_ERROR;
           message := "Failed to copy " ++ fst outcome ++ ": "
                      ++ error_message_or "Unknown error" error |} ]
  | inr _ => []
  end.

Definition errors_of (outcomes : list (string * (JsThrown + unit))) : list ErrorRecord :=
  flat_map error_of outcomes.

(** The ways the configuration store can be unusable. *)
Inductive BadConfigStore (w : World) : Prop :=
| store_missing :
    fs_lookup (disk w) (path_locate configPath) = None ->
    BadConfigStore w
| store_malformed content e :
    fs_readFile (disk w) configPath = inr content ->
    JSON_parse content = inl e ->
    BadConfigStore w
| store_field_missing content cfg :
    fs_readFile (disk w) configPath = inr content ->
    JSON_parse content = inr cfg ->
    get_property cfg "globalRulesSourceDir" = inr JsUndefined ->
    BadConfigStore w
| store_field_blank content cfg s :
    fs_readFile (disk w) configPath = inr content ->
    JSON_parse content = inr cfg ->
    get_property cfg "globalRulesSourceDir" = inr (JsString s) ->
    js_trim s = "" ->
    BadConfigStore w
| store_dir_missing content cfg s :
    fs_readFile (disk w) configPath = inr content ->
    JSON_parse content = inr cfg ->
    get_property cfg "globalRulesSourceDir" = inr (JsString s) ->
    fs_lookup (disk w) (path_locate s) = None ->
    BadConfigStore w.

(** The two directions. *)
Inductive Direction : Type := Load | Save.

Definition operation (d : Direction) (path : string) : Js GlobalRulesResponse :=
  match d with
  | Load => loadGlobalRules {| path := path |}
  | Save => saveGlobalRules {| path := path |}
  end.

Definition handler (d : Direction) (path : string) : Js ToolResult :=
  match d with
  | Load => handleLoadGlobalRules {| path := path |}
  | Save => handleSaveGlobalRules {| path := path |}
  end.

(** Source and target of a direction, given the configured directory. *)
Definition roles (d : Direction) (globalDir path : string) : string * string :=
  let rulesDir := path_join [path; ".cursor"; "rules"] in
  match d with
  | Load => (globalDir, rulesDir)
  | Save => (rulesDir, globalDir)
  end.

(** The world after [mkdir(targetDir, { recursive: true })]. *)
Definition after_mkdir (targetDir : string) (w : World) : World :=
  {| disk := snd (fs_mkdir (disk w) targetDir); this := this w |}.

(** The response for the errors accumulated by the loop. *)
Definition response_of (errs : list ErrorRecord) : GlobalRulesResponse :=
  match errs with
  | [] => SuccessResponse
  | _ :: _ => FailedResponse errs
  end.

Definition thrown_response (fallback : string) (e : JsThrown) : GlobalRulesResponse :=
  FailedResponse [operation_error (error_message_or fallback e)].

(** What directory [dir] holds under the name [f]. *)
Definition entry (w : World) (dir f : string) : option FsNode :=
  fs_lookup (disk w) (path_locate dir ++ [f]).

(** Every run of [copyGlobalRulesFiles] is one of four. *)
Inductive SyncRun (sourceDir targetDir : string) (w : World)
    : GlobalRulesResponse -> World -> Prop :=
| run_no_source e :
    fs_access (disk w) sourceDir = inl e ->
    SyncRun sourceDir targetDir w
      (FailedResponse
         [operation_error ("Source directory does not exist: " ++ sourceDir)]) w
| run_mkdir_throws u e :
    fs_access (disk w) sourceDir = inr u ->
    fst (fs_mkdir (disk w) targetDir) = inl e ->
    SyncRun sourceDir targetDir w
      (thrown_response "Unknown error occurred" e) (after_mkdir targetDir w)
| run_readdir_throws u u' e :
    fs_access (disk w) sourceDir = inr u ->
    fst (fs_mkdir (disk w) targetDir) = inr u' ->
    fs_readdir (disk (after_mkdir targetDir w)) sourceDir = inl e ->
    SyncRun sourceDir targetDir w
      (thrown_response "Unknown error occurred" e) (after_mkdir targetDir w)
| run_loop u u' files outcomes w' :
    fs_access (disk w) sourceDir = inr u ->
    fst (fs_mkdir (disk w) targetDir) = inr u' ->
    fs_readdir (disk (after_mkdir targetDir w)) sourceDir = inr files ->
    Attempts sourceDir targetDir (after_mkdir targetDir w)
      (List.filter (fun file => startsWith file "g-") files) outcomes w' ->
    SyncRun sourceDir targetDir w (response_of (errors_of outcomes)) w'.

(** [m] neither reads nor assigns [this]: run with another server object
    it gives the same outcome and the same disk, and leaves the object it
    was given. *)
Definition disk_only {A} (m : Js A) : Prop :=
  forall d server server',
    m {| disk := d; this := server' |}
    = (fst (m {| disk := d; this := server |}),
       {| disk := disk (snd (m {| disk := d; this := server |})); this := server' |}).

End Operations.

(** * An in-memory Node environment

    Paths are POSIX paths, the working directory is the root, the disk is
    a finite map from locations to nodes, and the process is not
    privileged (it cannot open a read-only file for writing). *)

Module Mem.

(** ** [path] *)

(** [s.split('/')] *)
Fixpoint split_slash (s : string) : list string :=
  match s with
  | EmptyString => [""]
  | String c s' =>
      if Ascii.eqb c "/" then "" :: split_slash s'
      else match split_slash s' with
           | h :: t => String c h :: t
           | [] => [String c ""]
           end
  end.

(** [segs.join('/')] *)
Fixpoint join_slash (segs : list string) : string :=
  match segs with
  | [] => ""
  | [seg] => seg
  | seg :: rest => seg ++ "/" ++ join_slash rest
  end.

Definition skipped (seg : string) : bool :=
  String.eqb seg "" || String.eqb seg ".".

(** Path resolution as the kernel does it from the root: empty and [.]
    segments are skipped, [..] goes up (the root is its own parent). *)
Fixpoint walk (stack : list string) (segs : list string) : list string :=
  match segs with
  | [] => stack
  | seg :: rest =>
      if skipped seg then walk stack rest
      else if String.eqb seg ".." then walk (List.removelast stack) rest
      else walk (stack ++ [seg]) rest
  end.

Definition locate (p : string) : list string := walk [] (split_slash p).

(** [normalizeString(path, allowAboveRoot)] of Node's [path] module, on
    segments: [acc] is the result so far. *)
Fixpoint normalize_segments (allowAboveRoot : bool) (acc : list string)
    (segs : list string) : list string :=
  match segs with
  | [] => acc
  | seg :: rest =>
      if skipped seg then normalize_segments allowAboveRoot acc rest
      else if String.eqb seg ".." then
        if String.eqb (List.last acc "..") ".." then
          normalize_segments allowAboveRoot
            (if allowAboveRoot then acc ++ [".."] else acc) rest
        else normalize_segments allowAboveRoot (List.removelast acc) rest
      else normalize_segments allowAboveRoot (acc ++ [seg]) rest
  end.

Definition ends_with_slash (s : string) : bool :=
  match rev (list_ascii_of_string s) with
  | c :: _ => Ascii.eqb c "/"
  | [] => false
  end.

(** [path.posix.normalize] *)
Definition normalize (p : string) : string :=
  if String.eqb p "" then "."
  else
    let isAbsolute := String.prefix "/" p in
    let trailingSeparator := ends_with_slash p in
    let body := join_slash (normalize_segments (negb isAbsolute) [] (split_slash p)) in
    if String.eqb body "" then
      if isAbsolute then "/" else if trailingSeparator then "./" else "."
    else
      (if isAbsolute then "/" else "") ++ body
      ++ (if trailingSeparator then "/" else "").

(** [path.posix.join]: the non-empty arguments joined by [/], normalized. *)
Definition join (parts : list string) : string :=
  match List.filter (fun part => negb (String.eqb part "")) parts with
  | [] => "."
  | nonempty => normalize (join_slash nonempty)
  end.

(** [__dirname] of the compiled [index.js]. *)
Definition dirname : string := "/opt/global-mdc/dist".

(** [path.resolve(__dirname, '../config.json')], [__dirname] being
    absolute. *)
Definition configPath : string := Eval vm_compute in join [dirname; "../config.json"].

(** ** [fs] *)

Definition lookup (s : gmap (list string) FsNode) (l : list string) : option FsNode :=
  if forallb entry_name l then
    match l with
    | [] => Some Directory
    | _ => s !! l
    end
  else None.

(** What a path denotes; the empty path denotes nothing. *)
Definition node (s : gmap (list string) FsNode) (p : string) : option FsNode :=
  if String.eqb p "" then None else lookup s (locate p).

Definition ENOENT (call : string) (p : string) : JsThrown :=
  ThrownError ("ENOENT: no such file or directory, " ++ call ++ " '" ++ p ++ "'").
Definition ENOTDIR (call : string) (p : string) : JsThrown :=
  ThrownError ("ENOTDIR: not a directory, " ++ call ++ " '" ++ p ++ "'").
Definition EISDIR (call : string) (p : string) : JsThrown :=
  ThrownError ("EISDIR: illegal operation on a directory, " ++ call ++ " '" ++ p ++ "'").
Definition EEXIST (call : string) (p : string) : JsThrown :=
  ThrownError ("EEXIST: file already exists, " ++ call ++ " '" ++ p ++ "'").
Definition EACCES (call : string) (p : string) : JsThrown :=
  ThrownError ("EACCES: permission denied, " ++ call ++ " '" ++ p ++ "'").

Definition access (s : gmap (list string) FsNode) (p : string) : JsThrown + unit :=
  match node s p with
  | Some _ => inr tt
  | None => inl (ENOENT "access" p)
  end.

Definition readFile (s : gmap (list string) FsNode) (p : string) : JsThrown + string :=
  match node s p with
  | Some (RegularFile bytes _) => inr bytes
  | Some Directory => inl (ThrownError "EISDIR: illegal operation on a directory, read")
  | None => inl (ENOENT "open" p)
  end.

(** The name under which [key] is an entry of directory [d], if it is. *)
Definition child_of (d key : list string) : option string :=
  match key with
  | [] => None
  | _ =>
      if decide (List.removelast key = d) then
        let f := List.last key "" in
        if entry_name f then Some f else None
      else None
  end.

Definition children (s : gmap (list string) FsNode) (d : list string) : list string :=
  omap (fun entry => child_of d (fst entry)) (map_to_list s).

Definition readdir (s : gmap (list string) FsNode) (p : string) : JsThrown + list string :=
  match node s p with
  | Some Directory => inr (children s (locate p))
  | Some (RegularFile _ _) => inl (ENOTDIR "scandir" p)
  | None => inl (ENOENT "scandir" p)
  end.

Definition stat (s : gmap (list string) FsNode) (p : string) : JsThrown + Stats :=
  match node s p with
  | Some n => inr {| isFile := is_regular (Some n) |}
  | None => inl (ENOENT "stat" p)
  end.

(** Create the missing directories along [done ++ todo]; [None] when a
    regular file is in the way. *)
Fixpoint mkdirs (s : gmap (list string) FsNode) (done todo : list string)
    : option (gmap (list string) FsNode) :=
  match todo with
  | [] => Some s
  | name :: rest =>
      let l := done ++ [name] in
      match lookup s l with
      | Some Directory => mkdirs s l rest
      | Some (RegularFile _ _) => None
      | None => mkdirs (<[l := Directory]> s) l rest
      end
  end.

Definition mkdir (s : gmap (list string) FsNode) (p : string)
    : (JsThrown + unit) * gmap (list string) FsNode :=
  if String.eqb p "" then (inl (ENOENT "mkdir" p), s)
  else
    match mkdirs s [] (locate p) with
    | Some s' => (inr tt, s')
    | None =>
        (inl (match lookup s (locate p) with
              | Some _ => EEXIST "mkdir" p
              | None => ENOTDIR "mkdir" p
              end), s)
    end.

Definition copy_call (src dst : string) : string := "copyfile '" ++ src ++ "' ->".

(** [copyFile] opens the source, then opens the destination for writing
    (creating it with the source's mode), and copies bytes and mode. *)
Definition copyFile (s : gmap (list string) FsNode) (src dst : string)
    : (JsThrown + unit) * gmap (list string) FsNode :=
  match node s src with
  | None => (inl (ENOENT (copy_call src dst) dst), s)
  | Some Directory => (inl (EISDIR (copy_call src dst) dst), s)
  | Some (RegularFile bytes mode) =>
      match node s dst with
      | Some Directory => (inl (EISDIR (copy_call src dst) dst), s)
      | Some (RegularFile _ false) => (inl (EACCES (copy_call src dst) dst), s)
      | Some (RegularFile _ true) =>
          (inr tt, <[locate dst := RegularFile bytes mode]> s)
      | None =>
          if String.eqb dst "" then (inl (ENOENT (copy_call src dst) dst), s)
          else
            match lookup s (List.removelast (locate dst)) with
            | Some Directory => (inr tt, <[locate dst := RegularFile bytes mode]> s)
            | Some (RegularFile _ _) => (inl (ENOTDIR (copy_call src dst) dst), s)
            | None => (inl (ENOENT (copy_call src dst) dst), s)
            end
      end
  end.

(** [acc] holds only segments that [normalize_segments] may have put
    there. *)
Definition clean (allowAboveRoot : bool) (acc : list string) : Prop :=
  Forall (fun seg => skipped seg = false) acc /\
  (allowAboveRoot = false -> Forall (fun seg => String.eqb seg ".." = false) acc).

End Mem.

(** ** [JSON]

    Text is UTF-8.  A string literal whose escapes name a lone surrogate
    has no UTF-8 form and is rejected.  The messages of the syntax
    errors stand for V8's, which name the token and its position and
    differ between versions.  A number is kept as it is written; which
    numbers are zero is [rounds_to_zero]. *)

Module Json.

Local Open Scope N_scope.

Definition code (c : ascii) : N := N_of_ascii c.
Definition chr (n : N) : ascii := ascii_of_N n.
Definition has_code (c : ascii) (n : N) : bool := N.eqb (code c) n.

Definition is_ws (c : ascii) : bool := has_code c 32 || has_code c 9 || has_code c 10 || has_code c 13.

Fixpoint skip_ws (cs : list ascii) : list ascii :=
  match cs with
  | c :: rest => if is_ws c then skip_ws rest else cs
  | [] => []
  end.

Definition digit (c : ascii) : option N :=
  if N.leb 48 (code c) && N.leb (code c) 57 then Some (code c - 48) else None.

Definition hex_digit (c : ascii) : option N :=
  if N.leb 48 (code c) && N.leb (code c) 57 then Some (code c - 48)
  else if N.leb 97 (code c) && N.leb (code c) 102 then Some (code c - 87)
  else if N.leb 65 (code c) && N.leb (code c) 70 then Some (code c - 55)
  else None.

Definition hex4 (a b c d : ascii) : option N :=
  match hex_digit a, hex_digit b, hex_digit c, hex_digit d with
  | Some x, Some y, Some z, Some t => Some (((x * 16 + y) * 16 + z) * 16 + t)
  | _, _, _, _ => None
  end.

(** A piece of a string literal: a byte of the text or an escaped
    UTF-16 code unit. *)
Inductive Piece : Type :=
| Byte (b : ascii)
| CodeUnit (n : N).

Definition simple_escape (c : ascii) : option ascii :=
  if has_code c 34 then Some (chr 34)
  else if has_code c 92 then Some (chr 92)
  else if has_code c 47 then Some (chr 47)
  else if has_code c 98 then Some (chr 8)
  else if has_code c 102 then Some (chr 12)
  else if has_code c 110 then Some (chr 10)
  else if has_code c 114 then Some (chr 13)
  else if has_code c 116 then Some (chr 9)
  else None.

(** The pieces of a string literal after its opening quote, and what
    follows the closing quote. *)
Fixpoint string_pieces (cs : list ascii) : option (list Piece * list ascii) :=
  match cs with
  | [] => None
  | c :: rest =>
      if has_code c 34 then Some ([], rest)
      else if has_code c 92 then
        match rest with
        | e :: rest' =>
            if has_code e 117 then
              match rest' with
              | h1 :: h2 :: h3 :: h4 :: rest'' =>
                  match hex4 h1 h2 h3 h4, string_pieces rest'' with
                  | Some n, Some (ps, tl) => Some (CodeUnit n :: ps, tl)
                  | _, _ => None
                  end
              | _ => None
              end
            else
              match simple_escape e, string_pieces rest' with
              | Some b, Some (ps, tl) => Some (Byte b :: ps, tl)
              | _, _ => None
              end
        | [] => None
        end
      else if N.ltb (code c) 32 then None
      else
        match string_pieces rest with
        | Some (ps, tl) => Some (Byte c :: ps, tl)
        | None => None
        end
  end.

Definition utf8_encode (n : N) : list ascii :=
  if N.ltb n 128 then [chr n]
  else if N.ltb n 2048 then [chr (192 + n / 64); chr (128 + n mod 64)]
  else if N.ltb n 65536 then
    [chr (224 + n / 4096); chr (128 + (n / 64) mod 64); chr (128 + n mod 64)]
  else
    [chr (240 + n / 262144); chr (128 + (n / 4096) mod 64);
     chr (128 + (n / 64) mod 64); chr (128 + n mod 64)].

Definition high_surrogate (n : N) : bool := N.leb 55296 n && N.leb n 56319.
Definition low_surrogate (n : N) : bool := N.leb 56320 n && N.leb n 57343.

Fixpoint utf8_of_pieces (ps : list Piece) : option (list ascii) :=
  match ps with
  | [] => Some []
  | Byte b :: rest => cons b <$> utf8_of_pieces rest
  | CodeUnit hi :: rest =>
      if high_surrogate hi then
        match rest with
        | CodeUnit lo :: rest' =>
            if low_surrogate lo then
              app (utf8_encode (65536 + (hi - 55296) * 1024 + (lo - 56320)))
                <$> utf8_of_pieces rest'
            else None
        | _ => None
        end
      else if low_surrogate hi then None
      else app (utf8_encode hi) <$> utf8_of_pieces rest
  end.

Definition parse_string (cs : list ascii) : option (string * list ascii) :=
  match string_pieces cs with
  | Some (ps, rest) =>
      match utf8_of_pieces ps with
      | Some bytes => Some (string_of_list_ascii bytes, rest)
      | None => None
      end
  | None => None
  end.

(** A run of digits: its value after [acc], how many there are, the rest. *)
Fixpoint digits (cs : list ascii) (acc : Z) (count : Z) : Z * Z * list ascii :=
  match cs with
  | c :: rest =>
      match digit c with
      | Some d => digits rest (acc * 10 + Z.of_N d) (count + 1)
      | None => (acc, count, cs)
      end
  | [] => (acc, count, [])
  end.

Definition parse_int_part (cs : list ascii) : option (Z * list ascii) :=
  match cs with
  | c :: rest =>
      if has_code c 48 then Some (0%Z, rest)
      else match digits cs 0 0 with
           | (v, n, tl) => if Z.eqb n 0 then None else Some (v, tl)
           end
  | [] => None
  end.

Definition parse_fraction (int : Z) (cs : list ascii) : option (Z * Z * list ascii) :=
  match cs with
  | c :: rest =>
      if has_code c 46 then
        match digits rest int 0 with
        | (v, n, tl) => if Z.eqb n 0 then None else Some (v, n, tl)
        end
      else Some (int, 0%Z, cs)
  | [] => Some (int, 0%Z, [])
  end.

Definition parse_exponent (cs : list ascii) : option (Z * list ascii) :=
  match cs with
  | c :: rest =>
      if has_code c 101 || has_code c 69 then
        let '(negative, rest') :=
          match rest with
          | s :: tl => if has_code s 45 then (true, tl) else if has_code s 43 then (false, tl)
                       else (false, rest)
          | [] => (false, rest)
          end in
        match digits rest' 0 0 with
        | (v, n, tl) =>
            if Z.eqb n 0 then None
            else Some (if negative then Z.opp v else v, tl)
        end
      else Some (0%Z, cs)
  | [] => Some (0%Z, [])
  end.

Definition parse_number (cs : list ascii) : option (JsValue * list ascii) :=
  let '(negative, cs1) :=
    match cs with
    | c :: rest => if has_code c 45 then (true, rest) else (false, cs)
    | [] => (false, cs)
    end in
  match parse_int_part cs1 with
  | Some (int, cs2) =>
      match parse_fraction int cs2 with
      | Some (mantissa, scale, cs3) =>
          match parse_exponent cs3 with
          | Some (e, cs4) =>
              Some (JsNumber (if negative then Z.opp mantissa else mantissa)
                             (e - scale), cs4)
          | None => None
          end
      | None => None
      end
  | None => None
  end.

Definition keyword (word : string) (v : JsValue) (cs : list ascii)
    : option (JsValue * list ascii) :=
  match strip_prefix word (string_of_list_ascii cs) with
  | Some rest => Some (v, list_ascii_of_string rest)
  | None => None
  end.

Fixpoint parse_value (fuel : nat) (cs : list ascii) : option (JsValue * list ascii) :=
  match fuel with
  | O => None
  | S n =>
      match skip_ws cs with
      | [] => None
      | c :: rest =>
          if has_code c 123 then
            match skip_ws rest with
            | c' :: rest' =>
                if has_code c' 125 then Some (JsObject [], rest')
                else parse_members n rest []
            | [] => None
            end
          else if has_code c 91 then
            match skip_ws rest with
            | c' :: rest' =>
                if has_code c' 93 then Some (JsArray [], rest')
                else parse_elements n rest []
            | [] => None
            end
          else if has_code c 34 then
            match parse_string rest with
            | Some (s, tl) => Some (JsString s, tl)
            | None => None
            end
          else if has_code c 116 then keyword "true" (JsBool true) (c :: rest)
          else if has_code c 102 then keyword "false" (JsBool false) (c :: rest)
          else if has_code c 110 then keyword "null" JsNull (c :: rest)
          else parse_number (c :: rest)
      end
  end
with parse_elements (fuel : nat) (cs : list ascii) (acc : list JsValue)
    : option (JsValue * list ascii) :=
  match fuel with
  | O => None
  | S n =>
      match parse_value n cs with
      | Some (v, rest) =>
          match skip_ws rest with
          | c :: rest' =>
              if has_code c 44 then parse_elements n rest' (acc ++ [v])
              else if has_code c 93 then Some (JsArray (acc ++ [v]), rest')
              else None
          | [] => None
          end
      | None => None
      end
  end
with parse_members (fuel : nat) (cs : list ascii) (acc : list (string * JsValue))
    : option (JsValue * list ascii) :=
  match fuel with
  | O => None
  | S n =>
      match skip_ws cs with
      | q :: rest =>
          if has_code q 34 then
            match parse_string rest with
            | Some (key, rest1) =>
                match skip_ws rest1 with
                | colon :: rest2 =>
                    if has_code colon 58 then
                      match parse_value n rest2 with
                      | Some (v, rest3) =>
                          match skip_ws rest3 with
                          | c :: rest4 =>
                              if has_code c 44 then parse_members n rest4 (acc ++ [(key, v)])
                              else if has_code c 125 then
                                Some (JsObject (acc ++ [(key, v)]), rest4)
                              else None
                          | [] => None
                          end
                      | None => None
                      end
                    else None
                | [] => None
                end
            | None => None
            end
          else None
      | [] => None
      end
  end.

(** [JSON.parse(text)] *)
Definition parse (text : string) : JsThrown + JsValue :=
  let cs := list_ascii_of_string text in
  match skip_ws cs with
  | [] => inl (ThrownError "Unexpected end of JSON input")
  | _ =>
      match parse_value (2 * List.length cs + 2)%nat cs with
      | Some (v, rest) =>
          match skip_ws rest with
          | [] => inr v
          | _ => inl (ThrownError "Unexpected non-whitespace character after JSON")
          end
      | None => inl (ThrownError "Unexpected token in JSON")
      end
  end.

(** *** [JSON.stringify(response, null, 2)] *)

Definition newline : string := String (chr 10) "".
Definition dquote : string := String (chr 34) "".

Definition hex_char (n : N) : ascii :=
  if N.ltb n 10 then chr (48 + n) else chr (87 + n).

Definition quote_char (c : ascii) : string :=
  if has_code c 34 then "\" ++ dquote
  else if has_code c 92 then "\\"
  else if has_code c 8 then "\b"
  else if has_code c 9 then "\t"
  else if has_code c 10 then "\n"
  else if has_code c 12 then "\f"
  else if has_code c 13 then "\r"
  else if N.ltb (code c) 32 then
    "\u00" ++ String (hex_char (code c / 16)) (String (hex_char (code c mod 16)) "")
  else String c "".

Fixpoint quote_chars (s : string) : string :=
  match s with
  | EmptyString => ""
  | String c rest => quote_char c ++ quote_chars rest
  end.

Definition quote (s : string) : string := dquote ++ quote_chars s ++ dquote.

Definition type_name (t : ErrorType) : string :=
  match t with
  | CONFIG_PARSING_ERROR => "CONFIG_PARSING_ERROR"
  | OPERATION_ERROR => "OPERATION_ERROR"
  end.

Definition error_json (e : ErrorRecord) : string :=
  "    {" ++ newline
  ++ "      " ++ quote "type" ++ ": " ++ quote (type_name (type e)) ++ "," ++ newline
  ++ "      " ++ quote "message" ++ ": " ++ quote (message e) ++ newline
  ++ "    }".

Fixpoint join_lines (items : list string) : string :=
  match items with
  | [] => ""
  | [item] => item
  | item :: rest => item ++ "," ++ newline ++ join_lines rest
  end.

Definition errors_json (errs : list ErrorRecord) : string :=
  match errs with
  | [] => "[]"
  | _ => "[" ++ newline ++ join_lines (map error_json errs) ++ newline ++ "  ]"
  end.

Definition stringify (r : GlobalRulesResponse) : string :=
  "{" ++ newline
  ++ "  " ++ quote "success" ++ ": " ++ (if success r then "true" else "false")
  ++ match errors r with
     | Some errs => "," ++ newline ++ "  " ++ quote "errors" ++ ": " ++ errors_json errs
     | None => ""
     end
  ++ newline ++ "}".

End Json.

(** * The in-memory environment obeys the laws *)

Module MemLaws.

Import Mem.

(** ** Paths *)

Lemma has_slash_cons c s :
  has_slash (String c s) = Ascii.eqb "/" c || has_slash s.
Proof. reflexivity. Qed.

Lemma split_slash_nonempty s : split_slash s <> [].
Proof.
  destruct s as [|c s]; simpl; [discriminate|].
  destruct (Ascii.eqb c "/"); [discriminate|].
  destruct (split_slash s); discriminate.
Qed.

Lemma split_slash_app (a b : string) :
  split_slash (a ++ "/" ++ b)%string = split_slash a ++ split_slash b.
Proof.
  induction a as [|c a IH]; simpl.
  - reflexivity.
  - destruct (Ascii.eqb c "/").
    + simpl in IH. rewrite IH. reflexivity.
    + simpl in IH. rewrite IH.
      destruct (split_slash a) as [|h t] eqn:E.
      * exfalso. eapply split_slash_nonempty; eauto.
      * reflexivity.
Qed.

Lemma split_slash_name f : has_slash f = false -> split_slash f = [f].
Proof.
  induction f as [|c f IH]; simpl; intros Hf; [reflexivity|].
  rewrite has_slash_cons in Hf. apply orb_false_iff in Hf as [Hc Hf].
  rewrite Ascii.eqb_sym, Hc. rewrite (IH Hf). reflexivity.
Qed.

Lemma split_slash_no_slash s :
  Forall (fun seg => has_slash seg = false) (split_slash s).
Proof.
  induction s as [|c s IH]; simpl.
  - repeat constructor.
  - destruct (Ascii.eqb c "/") eqn:Ec.
    + constructor; [reflexivity|exact IH].
    + destruct (split_slash s) as [|h t]; [repeat constructor|].
      * rewrite has_slash_cons, Ascii.eqb_sym, Ec. reflexivity.
      * inversion IH; subst. constructor; [|assumption].
        rewrite has_slash_cons, Ascii.eqb_sym, Ec. assumption.
Qed.

Lemma split_join_slash segs :
  segs <> [] ->
  Forall (fun seg => has_slash seg = false) segs ->
  split_slash (join_slash segs) = segs.
Proof.
  induction segs as [|seg rest IH]; intros Hne Hall; [congruence|].
  inversion Hall as [|? ? Hseg Hrest]; subst.
  destruct rest as [|seg' rest'].
  - simpl. apply split_slash_name. assumption.
  - change (join_slash (seg :: seg' :: rest'))
      with (seg ++ "/" ++ join_slash (seg' :: rest'))%string.
    rewrite split_slash_app, IH by (assumption || discriminate).
    rewrite split_slash_name by assumption. reflexivity.
Qed.

Lemma In_removelast {A} (x : A) (l : list A) :
  In x (List.removelast l) -> In x l.
Proof.
  induction l as [|a l IH]; simpl; [tauto|].
  destruct l as [|c t]; [simpl; tauto|].
  intros [->|Hx]; [left; reflexivity|right; apply IH; exact Hx].
Qed.

Lemma walk_app stack a b : walk stack (a ++ b) = walk (walk stack a) b.
Proof.
  revert stack. induction a as [|seg a IH]; intros stack; simpl; [reflexivity|].
  destruct (skipped seg); [apply IH|].
  destruct (String.eqb seg ".."); apply IH.
Qed.

Lemma entry_name_spec f :
  entry_name f = true ->
  skipped f = false /\ String.eqb f ".." = false /\ has_slash f = false.
Proof.
  unfold entry_name, skipped. intros H.
  repeat (apply andb_true_iff in H as [H ?]).
  repeat match goal with
         | H : negb _ = true |- _ => apply negb_true_iff in H
         end.
  repeat split; try assumption. apply orb_false_iff. split; assumption.
Qed.

Lemma entry_name_intro f :
  skipped f = false -> String.eqb f ".." = false -> has_slash f = false ->
  entry_name f = true.
Proof.
  unfold entry_name, skipped. intros H1 H2 H3.
  apply orb_false_iff in H1 as [H0 H1]. rewrite H0, H1, H2, H3. reflexivity.
Qed.

Lemma walk_names stack names :
  forallb entry_name names = true -> walk stack names = stack ++ names.
Proof.
  revert stack. induction names as [|f names IH]; intros stack H; simpl.
  - symmetry. apply app_nil_r.
  - simpl in H. apply andb_true_iff in H as [Hf Hrest].
    destruct (entry_name_spec f Hf) as (H1 & H2 & _).
    rewrite H1, H2, IH by assumption.
    rewrite <- app_assoc. reflexivity.
Qed.

Lemma walk_entry_names stack segs :
  forallb entry_name stack = true ->
  Forall (fun seg => has_slash seg = false) segs ->
  forallb entry_name (walk stack segs) = true.
Proof.
  revert stack. induction segs as [|seg segs IH]; intros stack Hs Hall; simpl.
  - assumption.
  - inversion Hall as [|? ? Hseg Hrest]; subst.
    destruct (skipped seg) eqn:Hsk; [apply IH; assumption|].
    destruct (String.eqb seg "..") eqn:Hdd.
    + apply IH; [|assumption].
      apply forallb_forall. intros x Hx.
      rewrite forallb_forall in Hs. apply Hs, In_removelast, Hx.
    + apply IH; [|assumption].
      rewrite forallb_app, Hs. simpl.
      rewrite (entry_name_intro seg) by assumption. reflexivity.
Qed.

Lemma locate_entry_names p : forallb entry_name (locate p) = true.
Proof.
  unfold locate. apply walk_entry_names; [reflexivity|apply split_slash_no_slash].
Qed.

Lemma clean_removelast b acc : clean b acc -> clean b (List.removelast acc).
Proof.
  intros [H1 H2].
  pose proof (fun x => In_removelast x acc) as Hin.
  split.
  - rewrite List.Forall_forall in *. intros x Hx. apply H1, Hin, Hx.
  - intros Hb. specialize (H2 Hb). rewrite List.Forall_forall in *.
    intros x Hx. apply H2, Hin, Hx.
Qed.

Lemma walk_normalize_segments b acc segs :
  clean b acc ->
  walk [] (normalize_segments b acc segs) = walk [] (acc ++ segs).
Proof.
  revert acc. induction segs as [|seg segs IH]; intros acc Hc; simpl.
  - rewrite app_nil_r. reflexivity.
  - rewrite (walk_app [] acc (seg :: segs)). simpl.
    destruct (skipped seg) eqn:Hsk.
    { rewrite IH, walk_app by assumption. reflexivity. }
    destruct (String.eqb seg "..") eqn:Hdd.
    + destruct (String.eqb (List.last acc "..") "..") eqn:Hlast.
      * destruct b.
        -- rewrite IH.
           ++ rewrite <- app_assoc. simpl. rewrite (walk_app [] acc). simpl.
              reflexivity.
           ++ destruct Hc as [H1 H2]. split; [|discriminate].
              apply Forall_app. split; [assumption|].
              constructor; [reflexivity|constructor].
        -- destruct acc as [|a acc'] using rev_ind.
           ++ simpl. rewrite IH by assumption. reflexivity.
           ++ exfalso. destruct Hc as [_ H2]. specialize (H2 eq_refl).
              apply Forall_app in H2 as [_ H2]. inversion H2; subst.
              rewrite List.last_last in Hlast. congruence.
      * destruct acc as [|a acc' _] using rev_ind.
        -- simpl in Hlast. discriminate.
        -- rewrite List.last_last in Hlast.
           rewrite List.removelast_last.
           assert (Hc' : clean b acc').
           { pose proof (clean_removelast _ _ Hc) as Hr.
             rewrite List.removelast_last in Hr. exact Hr. }
           rewrite IH by assumption.
           rewrite (walk_app [] acc' [a]). simpl.
           destruct Hc as [H1 _]. apply Forall_app in H1 as [_ H1].
           inversion H1; subst.
           match goal with H : skipped a = false |- _ => rewrite H end.
           rewrite Hlast. rewrite List.removelast_last.
           rewrite walk_app. reflexivity.
    + rewrite IH.
      * rewrite <- app_assoc. simpl. rewrite (walk_app [] acc). simpl.
        rewrite Hsk, Hdd. reflexivity.
      * destruct Hc as [H1 H2]. split.
        -- apply Forall_app. split; [assumption|]. repeat constructor. assumption.
        -- intros Hb. apply Forall_app. split; [auto|]. repeat constructor. assumption.
Qed.

Lemma normalize_segments_no_slash b acc segs :
  Forall (fun seg => has_slash seg = false) acc ->
  Forall (fun seg => has_slash seg = false) segs ->
  Forall (fun seg => has_slash seg = false) (normalize_segments b acc segs).
Proof.
  revert acc. induction segs as [|seg segs IH]; intros acc Ha Hs; simpl.
  - assumption.
  - inversion Hs as [|? ? Hseg Hrest]; subst.
    destruct (skipped seg); [apply IH; assumption|].
    destruct (String.eqb seg "..").
    + destruct (String.eqb (List.last acc "..") "..").
      * apply IH; [|assumption]. destruct b; [|assumption].
        apply Forall_app. split; [assumption|]. repeat constructor.
      * apply IH; [|assumption]. rewrite List.Forall_forall in *.
        intros x Hx. apply Ha, In_removelast, Hx.
    + apply IH; [|assumption]. apply Forall_app. split; [assumption|].
      repeat constructor. assumption.
Qed.

Lemma normalize_segments_clean b acc segs :
  clean b acc -> clean b (normalize_segments b acc segs).
Proof.
  revert acc. induction segs as [|seg segs IH]; intros acc Hc; simpl.
  - assumption.
  - destruct (skipped seg) eqn:Hsk; [apply IH; assumption|].
    destruct (String.eqb seg "..") eqn:Hdd.
    + destruct (String.eqb (List.last acc "..") "..").
      * apply IH. destruct b; [|assumption].
        destruct Hc as [H1 _]. split; [|discriminate].
        apply Forall_app. split; [assumption|]. repeat constructor.
      * apply IH, clean_removelast, Hc.
    + apply IH. destruct Hc as [H1 H2]. split.
      * apply Forall_app. split; [assumption|]. repeat constructor. assumption.
      * intros Hb. apply Forall_app. split; [auto|]. repeat constructor. assumption.
Qed.

Lemma join_slash_empty segs :
  Forall (fun seg => skipped seg = false) segs ->
  join_slash segs = "" -> segs = [].
Proof.
  destruct segs as [|seg rest]; [reflexivity|].
  intros Hall Hj. exfalso. inversion Hall as [|? ? Hseg _]; subst.
  destruct seg as [|c seg]; [discriminate Hseg|].
  destruct rest; simpl in Hj; discriminate.
Qed.

Lemma string_app_empty (s : string) : (s ++ "")%string = s.
Proof.
  induction s as [|c s IH]; [reflexivity|].
  change (String c (s ++ "")%string = String c s). f_equal. exact IH.
Qed.

Lemma split_slash_trailing (s : string) :
  split_slash (s ++ "/")%string = split_slash s ++ [""].
Proof. apply (split_slash_app s ""). Qed.

(** Normalizing a path does not change what it denotes. *)
Lemma locate_normalize p : locate (normalize p) = locate p.
Proof.
  unfold normalize.
  destruct (String.eqb p "") eqn:Hp.
  { apply String.eqb_eq in Hp. subst. reflexivity. }
  set (b := negb (String.prefix "/" p)).
  set (N := normalize_segments b [] (split_slash p)).
  assert (Hclean : clean b N).
  { apply normalize_segments_clean. split; [constructor|intros _; constructor]. }
  assert (Hslash : Forall (fun seg => has_slash seg = false) N).
  { apply normalize_segments_no_slash; [constructor|apply split_slash_no_slash]. }
  assert (Hwalk : walk [] N = locate p).
  { unfold N, locate. rewrite walk_normalize_segments; [reflexivity|].
    split; [constructor|intros _; constructor]. }
  destruct (String.eqb (join_slash N) "") eqn:Hbody.
  - apply String.eqb_eq in Hbody.
    apply join_slash_empty in Hbody; [|apply Hclean].
    rewrite <- Hwalk, Hbody.
    destruct (String.prefix "/" p); [reflexivity|].
    destruct (ends_with_slash p); reflexivity.
  - assert (HN : N <> []).
    { intros E. rewrite E in Hbody. discriminate. }
    assert (Hsplit : split_slash (join_slash N) = N)
      by (apply split_join_slash; assumption).
    rewrite <- Hwalk. unfold locate.
    destruct (String.prefix "/" p); destruct (ends_with_slash p).
    + change ("/" ++ join_slash N ++ "/")%string
        with ("" ++ "/" ++ (join_slash N ++ "/"))%string.
      rewrite split_slash_app, split_slash_trailing, Hsplit. simpl.
      rewrite walk_app. reflexivity.
    + change ("/" ++ join_slash N ++ "")%string
        with ("" ++ "/" ++ (join_slash N ++ ""))%string.
      rewrite split_slash_app. simpl.
      rewrite string_app_empty.
      rewrite Hsplit. reflexivity.
    + change ("" ++ join_slash N ++ "/")%string with (join_slash N ++ "/")%string.
      rewrite split_slash_trailing, Hsplit, walk_app. reflexivity.
    + change ("" ++ join_slash N ++ "")%string with (join_slash N ++ "")%string.
      rewrite string_app_empty, Hsplit. reflexivity.
Qed.

Lemma entry_names_nonempty names :
  forallb entry_name names = true ->
  List.filter (fun part => negb (String.eqb part "")) names = names.
Proof.
  induction names as [|f names IH]; simpl; [reflexivity|].
  intros H. apply andb_true_iff in H as [Hf Hrest].
  destruct (entry_name_spec f Hf) as (H1 & _ & _).
  apply orb_false_iff in H1 as [H1 _]. rewrite H1. simpl.
  rewrite IH by assumption. reflexivity.
Qed.

Lemma entry_names_no_slash names :
  forallb entry_name names = true ->
  Forall (fun seg => has_slash seg = false) names.
Proof.
  rewrite forallb_forall, List.Forall_forall. intros H x Hx.
  apply entry_name_spec. apply H, Hx.
Qed.

(** [path.join] of a directory and entry names denotes the entry. *)
Lemma mem_join_locate d names :
  forallb entry_name names = true ->
  locate (join (d :: names)) = locate d ++ names.
Proof.
  intros Hnames. unfold join. simpl List.filter.
  rewrite (entry_names_nonempty names Hnames).
  pose proof (entry_names_no_slash names Hnames) as Hslash.
  destruct (String.eqb d "") eqn:Hd; simpl negb; cbv iota.
  - apply String.eqb_eq in Hd. subst d.
    destruct names as [|f names]; [reflexivity|].
    rewrite locate_normalize. unfold locate.
    rewrite split_join_slash by (assumption || discriminate).
    apply (walk_names [] (f :: names) Hnames).
  - rewrite locate_normalize. unfold locate.
    destruct names as [|f names].
    + simpl. rewrite app_nil_r. reflexivity.
    + change (join_slash (d :: f :: names))
        with (d ++ "/" ++ join_slash (f :: names))%string.
      rewrite split_slash_app, split_join_slash by (assumption || discriminate).
      rewrite walk_app. apply walk_names. assumption.
Qed.

(** ** The disk *)

Lemma node_lookup s p n : node s p = Some n -> lookup s (locate p) = Some n.
Proof. unfold node. destruct (String.eqb p ""); [discriminate|tauto]. Qed.

Lemma node_None s p :
  lookup s (locate p) = None -> node s p = None.
Proof. unfold node. destruct (String.eqb p ""); [reflexivity|tauto]. Qed.

Lemma lookup_insert_same s l n :
  l <> [] -> forallb entry_name l = true ->
  lookup (<[l := n]> s) l = Some n.
Proof.
  intros Hl Hn. unfold lookup. rewrite Hn.
  destruct l; [congruence|]. apply lookup_insert_eq.
Qed.

Lemma lookup_insert_other s k l n :
  l <> k -> lookup (<[k := n]> s) l = lookup s l.
Proof.
  intros Hl. unfold lookup. destruct (forallb entry_name l); [|reflexivity].
  destruct l; [reflexivity|]. apply lookup_insert_ne. congruence.
Qed.

Lemma lookup_Some_names s l n : lookup s l = Some n -> forallb entry_name l = true.
Proof. unfold lookup. destruct (forallb entry_name l); [reflexivity|discriminate]. Qed.

Lemma mem_access_missing s p :
  lookup s (locate p) = None -> exists e, access s p = inl e.
Proof.
  intros H. unfold access. rewrite (node_None s p H). eauto.
Qed.

Lemma mem_stat_isFile s p st :
  stat s p = inr st -> isFile st = is_regular (lookup s (locate p)).
Proof.
  unfold stat. destruct (node s p) as [n|] eqn:E; [|discriminate].
  intros [= <-]. rewrite (node_lookup s p n E). reflexivity.
Qed.

Lemma child_of_Some d key f :
  child_of d key = Some f -> entry_name f = true /\ key = d ++ [f].
Proof.
  unfold child_of. destruct key as [|k key]; [discriminate|].
  destruct (decide (List.removelast (k :: key) = d)) as [Hd|]; [|discriminate].
  destruct (entry_name (List.last (k :: key) "")) eqn:Hn; [|discriminate].
  intros [= <-]. split; [assumption|].
  rewrite <- Hd. apply (@app_removelast_last _ (k :: key) ""). discriminate.
Qed.

Lemma child_of_entry d f :
  entry_name f = true -> child_of d (d ++ [f]) = Some f.
Proof.
  intros Hf. unfold child_of.
  destruct (d ++ [f]) as [|k key] eqn:E; [destruct d; discriminate|].
  rewrite <- E, List.removelast_last, List.last_last, Hf.
  destruct (decide (d = d)); [reflexivity|congruence].
Qed.

Lemma mem_readdir_names s p l :
  readdir s p = inr l -> forallb entry_name l = true.
Proof.
  unfold readdir. destruct (node s p) as [[|]|]; try discriminate.
  intros [= <-]. apply forallb_forall. intros f Hf.
  apply list_elem_of_In in Hf. unfold children in Hf.
  apply list_elem_of_omap in Hf as (entry & _ & Hc).
  apply child_of_Some in Hc. tauto.
Qed.

Lemma mem_readdir_complete s p l f :
  readdir s p = inr l -> lookup s (locate p ++ [f]) <> None -> In f l.
Proof.
  unfold readdir. destruct (node s p) as [[|]|]; try discriminate.
  intros [= <-] Hf.
  destruct (lookup s (locate p ++ [f])) as [n|] eqn:E; [|congruence].
  pose proof (lookup_Some_names _ _ _ E) as Hn.
  unfold lookup in E. rewrite Hn in E.
  destruct (locate p ++ [f]) as [|k key] eqn:Ek; [destruct (locate p); discriminate|].
  rewrite <- Ek in *.
  rewrite forallb_app in Hn. apply andb_true_iff in Hn as [_ Hn].
  simpl in Hn. rewrite andb_true_r in Hn.
  apply list_elem_of_In. unfold children.
  apply list_elem_of_omap. exists (locate p ++ [f], n). split.
  - apply elem_of_map_to_list. exact E.
  - simpl. apply child_of_entry. exact Hn.
Qed.

(** What [mkdirs] does to each location. *)
Lemma mkdirs_spec todo : forall s done s',
  mkdirs s done todo = Some s' ->
  forallb entry_name (done ++ todo) = true ->
  (forall l,
     lookup s' l = lookup s l \/
     (lookup s l = None /\ lookup s' l = Some Directory /\
      exists pre rest, pre <> [] /\ todo = pre ++ rest /\ l = done ++ pre)) /\
  (forall pre rest, todo = pre ++ rest -> pre <> [] ->
     lookup s' (done ++ pre) = Some Directory).
Proof.
  induction todo as [|name todo IH]; intros s done s' Hm Hn; simpl in Hm.
  - inversion Hm; subst. split; [intros l; left; reflexivity|].
    intros pre rest Hpre Hne. destruct pre; [congruence|discriminate].
  - assert (Hn' : forallb entry_name ((done ++ [name]) ++ todo) = true)
      by (rewrite <- app_assoc; exact Hn).
    assert (Hl : forallb entry_name (done ++ [name]) = true).
    { rewrite forallb_app in Hn'. apply andb_true_iff in Hn'. tauto. }
    assert (Hne : done ++ [name] <> []) by (destruct done; discriminate).
    destruct (lookup s (done ++ [name])) as [[|]|] eqn:E; try discriminate.
    + destruct (IH _ _ _ Hm Hn') as [Hframe Hdirs]. split.
      * intros l. destruct (Hframe l) as [Hsame|(H1 & H2 & pre & rest & Hp & -> & ->)].
        -- left. exact Hsame.
        -- right. split; [exact H1|]. split; [exact H2|].
           exists (name :: pre), rest. split; [discriminate|].
           split; [reflexivity|]. rewrite <- app_assoc. reflexivity.
      * intros pre rest Hpre Hpne. destruct pre as [|x pre]; [congruence|].
        injection Hpre as <- ->.
        destruct pre as [|y pre].
        -- destruct (Hframe (done ++ [name])) as [Hsame|(H1 & _)];
             [rewrite Hsame; exact E|congruence].
        -- replace (done ++ name :: y :: pre) with ((done ++ [name]) ++ y :: pre)
             by (rewrite <- app_assoc; reflexivity).
           eapply Hdirs; [reflexivity|discriminate].
    + destruct (IH _ _ _ Hm Hn') as [Hframe Hdirs].
      assert (Hnew : lookup (<[done ++ [name] := Directory]> s) (done ++ [name])
                     = Some Directory) by (apply lookup_insert_same; assumption).
      split.
      * intros l. destruct (decide (l = done ++ [name])) as [->|Hl'].
        -- right. split; [exact E|]. split.
           ++ destruct (Hframe (done ++ [name])) as [Hsame|(H1 & _)];
                [rewrite Hsame; exact Hnew|congruence].
           ++ exists [name], todo. split; [discriminate|]. split; reflexivity.
        -- destruct (Hframe l) as [Hsame|(H1 & H2 & pre & rest & Hp & -> & ->)].
           ++ left. rewrite Hsame. apply lookup_insert_other. exact Hl'.
           ++ right. rewrite lookup_insert_other in H1 by exact Hl'.
              split; [exact H1|]. split; [exact H2|].
              exists (name :: pre), rest. split; [discriminate|].
              split; [reflexivity|]. rewrite <- app_assoc. reflexivity.
      * intros pre rest Hpre Hpne. destruct pre as [|x pre]; [congruence|].
        injection Hpre as <- ->.
        destruct pre as [|y pre].
        -- destruct (Hframe (done ++ [name])) as [Hsame|(H1 & _)];
             [rewrite Hsame; exact Hnew|congruence].
        -- replace (done ++ name :: y :: pre) with ((done ++ [name]) ++ y :: pre)
             by (rewrite <- app_assoc; reflexivity).
           eapply Hdirs; [reflexivity|discriminate].
Qed.

Lemma mem_mkdir_frame s p l :
  lookup (snd (mkdir s p)) l = lookup s l \/
  (lookup s l = None /\
   lookup (snd (mkdir s p)) l = Some Directory /\
   exists rest, locate p = l ++ rest).
Proof.
  unfold mkdir. destruct (String.eqb p ""); [left; reflexivity|].
  destruct (mkdirs s [] (locate p)) as [s'|] eqn:E; [|left; reflexivity].
  simpl. destruct (mkdirs_spec _ _ _ _ E (locate_entry_names p)) as [Hframe _].
  destruct (Hframe l) as [Hsame|(H1 & H2 & pre & rest & _ & Hp & ->)].
  - left. exact Hsame.
  - right. split; [exact H1|]. split; [exact H2|]. exists rest. exact Hp.
Qed.

Lemma mem_mkdir_ok s p l rest :
  fst (mkdir s p) = inr tt ->
  locate p = l ++ rest ->
  lookup (snd (mkdir s p)) l = Some Directory.
Proof.
  unfold mkdir. destruct (String.eqb p ""); [discriminate|].
  destruct (mkdirs s [] (locate p)) as [s'|] eqn:E; [|discriminate].
  simpl. intros _ Hp.
  destruct l as [|x l]; [reflexivity|].
  destruct (mkdirs_spec _ _ _ _ E (locate_entry_names p)) as [_ Hdirs].
  apply (Hdirs (x :: l) rest Hp). discriminate.
Qed.

Lemma mem_copyFile_frame s src dst l :
  l <> locate dst ->
  lookup (snd (copyFile s src dst)) l = lookup s l.
Proof.
  intros Hl. unfold copyFile.
  destruct (node s src) as [[bytes mode|]|]; try reflexivity.
  destruct (node s dst) as [[? [|]|]|]; try reflexivity.
  - simpl. apply lookup_insert_other. exact Hl.
  - destruct (String.eqb dst ""); [reflexivity|].
    destruct (lookup s (List.removelast (locate dst))) as [[|]|]; try reflexivity.
    simpl. apply lookup_insert_other. exact Hl.
Qed.

Lemma locate_not_root s p :
  lookup s (locate p) <> Some Directory -> locate p <> [].
Proof. intros H E. rewrite E in H. apply H. reflexivity. Qed.

Lemma mem_copyFile_ok s src dst :
  fst (copyFile s src dst) = inr tt ->
  is_regular (lookup s (locate src)) = true ->
  lookup (snd (copyFile s src dst)) (locate dst) = lookup s (locate src).
Proof.
  unfold copyFile.
  destruct (node s src) as [[bytes mode|]|] eqn:Es; try discriminate.
  rewrite (node_lookup _ _ _ Es).
  destruct (node s dst) as [[? [|]|]|] eqn:Ed; try discriminate.
  - intros _ _. simpl. apply node_lookup in Ed.
    apply lookup_insert_same; [|apply locate_entry_names].
    apply (locate_not_root s). rewrite Ed. discriminate.
  - unfold node in Ed. destruct (String.eqb dst ""); [discriminate|].
    destruct (lookup s (List.removelast (locate dst))) as [[|]|]; try discriminate.
    intros _ _. simpl.
    apply lookup_insert_same; [|apply locate_entry_names].
    apply (locate_not_root s). rewrite Ed. discriminate.
Qed.

Lemma mem_copyFile_same s src dst :
  locate src = locate dst ->
  lookup (snd (copyFile s src dst)) (locate dst) = lookup s (locate dst).
Proof.
  intros Hsame. unfold copyFile.
  destruct (node s src) as [[bytes mode|]|] eqn:Es; try reflexivity.
  apply node_lookup in Es. rewrite Hsame in Es.
  destruct (node s dst) as [[? [|]|]|] eqn:Ed; try reflexivity.
  - simpl. rewrite Es. apply lookup_insert_same; [|apply locate_entry_names].
    apply (locate_not_root s). rewrite Es. discriminate.
  - destruct (String.eqb dst ""); [reflexivity|].
    destruct (lookup s (List.removelast (locate dst))) as [[|]|]; try reflexivity.
    simpl. rewrite Es. apply lookup_insert_same; [|apply locate_entry_names].
    apply (locate_not_root s). rewrite Es. discriminate.
Qed.

End MemLaws.

(** The in-memory environment. *)
#[export] Instance MemEnv : NodeEnv := {|
  fs_state := gmap (list string) FsNode;
  fs_lookup := Mem.lookup;
  path_locate := Mem.locate;
  path_join := Mem.join;
  configPath := Mem.configPath;
  fs_access := Mem.access;
  fs_readFile := Mem.readFile;
  fs_readdir := Mem.readdir;
  fs_stat := Mem.stat;
  fs_mkdir := Mem.mkdir;
  fs_copyFile := Mem.copyFile;
  JSON_parse := Json.parse;
  JSON_stringify := Json.stringify;
  join_locate := MemLaws.mem_join_locate;
  access_missing := MemLaws.mem_access_missing;
  stat_isFile := MemLaws.mem_stat_isFile;
  readdir_names := MemLaws.mem_readdir_names;
  readdir_complete := MemLaws.mem_readdir_complete;
  mkdir_frame := MemLaws.mem_mkdir_frame;
  mkdir_ok := MemLaws.mem_mkdir_ok;
  copyFile_frame := MemLaws.mem_copyFile_frame;
  copyFile_ok := MemLaws.mem_copyFile_ok;
  copyFile_same := MemLaws.mem_copyFile_same
|}.

(** * Concrete runs in memory *)

Module Scenario.

(** The text of a [config.json] that names [dir]. *)
Definition config_text (dir : string) : string :=
  "{" ++ Json.dquote ++ "globalRulesSourceDir" ++ Json.dquote ++ ": "
  ++ Json.dquote ++ dir ++ Json.dquote ++ "}".

(** The installed server with its [config.json]. *)
Definition installed (config : string) : list (list string * FsNode) :=
  [ (["opt"], Directory);
    (["opt"; "global-mdc"], Directory);
    (["opt"; "global-mdc"; "dist"], Directory);
    (["opt"; "global-mdc"; "config.json"], RegularFile config true) ].

Definition world_of (entries : list (list string * FsNode)) : @World MemEnv :=
  {| disk := list_to_map entries; this := new_GlobalRulesServer |}.

(** A global directory with two rule files and another file; an empty
    project. *)
Definition rules : @World MemEnv :=
  world_of (installed (config_text "/global") ++
    [ (["global"], Directory);
      (["global"; "g-a.mdc"], RegularFile "# A" true);
      (["global"; "g-b.mdc"], RegularFile "# B" true);
      (["global"; "other.mdc"], RegularFile "# other" true);
      (["proj"], Directory) ]).

(** The same, but the project already has a directory called
    [g-b.mdc] where the rule file should go. *)
Definition blocked_file : @World MemEnv :=
  world_of (installed (config_text "/global") ++
    [ (["global"], Directory);
      (["global"; "g-a.mdc"], RegularFile "# A" true);
      (["global"; "g-b.mdc"], RegularFile "# B" true);
      (["global"; "other.mdc"], RegularFile "# other" true);
      (["proj"], Directory);
      (["proj"; ".cursor"], Directory);
      (["proj"; ".cursor"; "rules"], Directory);
      (["proj"; ".cursor"; "rules"; "g-b.mdc"], Directory) ]).

(** No rule file in the global directory, and [.cursor] in the project
    is a regular file. *)
Definition blocked_target : @World MemEnv :=
  world_of (installed (config_text "/global") ++
    [ (["global"], Directory);
      (["global"; "other.mdc"], RegularFile "# other" true);
      (["proj"], Directory);
      (["proj"; ".cursor"], RegularFile "" true) ]).

(** No rule file in the global directory; an empty project. *)
Definition no_rules : @World MemEnv :=
  world_of (installed (config_text "/global") ++
    [ (["global"], Directory);
      (["global"; "other.mdc"], RegularFile "# other" true);
      (["proj"], Directory) ]).

(** The one rule file is read-only. *)
Definition read_only_rule : @World MemEnv :=
  world_of (installed (config_text "/global") ++
    [ (["global"], Directory);
      (["global"; "g-a.mdc"], RegularFile "# A" false);
      (["proj"], Directory) ]).

(** The only entry that starts with [g-] is a directory. *)
Definition rule_directory : @World MemEnv :=
  world_of (installed (config_text "/global") ++
    [ (["global"], Directory);
      (["global"; "g-drafts"], Directory);
      (["proj"], Directory) ]).

(** The configuration names a blank directory. *)
Definition blank_config : @World MemEnv :=
  world_of (installed (config_text "  ") ++ [ (["proj"], Directory) ]).

(** Someone rewrites [config.json] between two calls. *)
Definition edit_config (text : string) (w : @World MemEnv) : @World MemEnv :=
  {| disk := <[ ["opt"; "global-mdc"; "config.json"] := RegularFile text true ]> (disk w);
     this := this w |}.

Definition rulesDir : string := "/proj/.cursor/rules".

(** The configuration names a directory that is not there. *)
Definition missing_global : @World MemEnv :=
  world_of (installed (config_text "/nowhere") ++ [ (["proj"], Directory) ]).

(** A project with a rule file and a local file; an empty global
    directory. *)
Definition project_rules : @World MemEnv :=
  world_of (installed (config_text "/global") ++
    [ (["global"], Directory);
      (["proj"], Directory);
      (["proj"; ".cursor"], Directory);
      (["proj"; ".cursor"; "rules"], Directory);
      (["proj"; ".cursor"; "rules"; "g-x.mdc"], RegularFile "# X" true);
      (["proj"; ".cursor"; "rules"; "local.mdc"], RegularFile "# local" true) ]).

(** A node the process may write to. *)
Definition writable_node (n : FsNode) : bool :=
  match n with
  | RegularFile _ mode => mode
  | Directory => true
  end.

End Scenario.

(** * Properties of the methods, in every Node environment *)

Section Properties.

Context `{Env : NodeEnv}.

(** ** The loop *)

Lemma copyLoop_attempts sourceDir targetDir files : forall errors w,
  exists outcomes w',
    Attempts sourceDir targetDir w files outcomes w' /\
    copyLoop sourceDir targetDir files errors w
    = (inr (errors ++ errors_of outcomes), w').
Proof.
  induction files as [|file rest IH]; intros errors w.
  - exists [], w. split; [constructor|]. simpl. unfold ret.
    rewrite app_nil_r. reflexivity.
  - simpl. unfold bind at 1. unfold try_catch, bind, ret.
    destruct (copyOne sourceDir targetDir file w) as [[e|u] w1] eqn:E.
    + destruct (IH (errors ++
        [operation_error ("Failed to copy " ++ file ++ ": "
                          ++ error_message_or "Unknown error" e)]) w1)
        as (outcomes & w' & Hatt & Hloop).
      exists ((file, inl e) :: outcomes), w'. split.
      * econstructor; eassumption.
      * rewrite Hloop. unfold errors_of. simpl.
        rewrite <- app_assoc. reflexivity.
    + destruct (IH errors w1) as (outcomes & w' & Hatt & Hloop).
      exists ((file, inr u) :: outcomes), w'. split.
      * econstructor; eassumption.
      * rewrite Hloop. reflexivity.
Qed.

Lemma Attempts_names sourceDir targetDir w files outcomes w' :
  Attempts sourceDir targetDir w files outcomes w' ->
  map fst outcomes = files.
Proof. induction 1; simpl; congruence. Qed.

Lemma Attempts_deterministic sourceDir targetDir w files outcomes w' :
  Attempts sourceDir targetDir w files outcomes w' ->
  forall outcomes2 w2,
    Attempts sourceDir targetDir w files outcomes2 w2 ->
    outcomes2 = outcomes /\ w2 = w'.
Proof.
  induction 1 as [w|w file rest r w1 outcomes w2 Hone Hrest IH];
    intros outcomes2 w3 H2; inversion H2; subst.
  - split; reflexivity.
  - match goal with
    | H : copyOne _ _ _ _ = (?r', ?w1') |- _ =>
        rewrite Hone in H; injection H as <- <-
    end.
    match goal with
    | H : Attempts _ _ w1 rest _ _ |- _ => destruct (IH _ _ H) as [-> ->]
    end.
    split; reflexivity.
Qed.

(** ** [copyGlobalRulesFiles], case by case *)

Lemma response_of_length errs :
  (if Nat.ltb 0 (List.length errs) then FailedResponse errs else SuccessResponse)
  = response_of errs.
Proof. destruct errs; reflexivity. Qed.

Lemma sync_source_inaccessible sourceDir targetDir w e :
  fs_access (disk w) sourceDir = inl e ->
  copyGlobalRulesFiles sourceDir targetDir w
  = (inr (FailedResponse
            [operation_error ("Source directory does not exist: " ++ sourceDir)]), w).
Proof.
  intros H. unfold copyGlobalRulesFiles, try_catch, bind, access, reading, ret.
  rewrite H. reflexivity.
Qed.

Lemma sync_mkdir_throws sourceDir targetDir w u e :
  fs_access (disk w) sourceDir = inr u ->
  fst (fs_mkdir (disk w) targetDir) = inl e ->
  copyGlobalRulesFiles sourceDir targetDir w
  = (inr (thrown_response "Unknown error occurred" e), after_mkdir targetDir w).
Proof.
  intros Ha Hm.
  unfold copyGlobalRulesFiles, try_catch, bind, access, mkdir, reading, writing, ret.
  rewrite Ha. simpl. rewrite Hm. reflexivity.
Qed.

Lemma sync_readdir_throws sourceDir targetDir w u u' e :
  fs_access (disk w) sourceDir = inr u ->
  fst (fs_mkdir (disk w) targetDir) = inr u' ->
  fs_readdir (disk (after_mkdir targetDir w)) sourceDir = inl e ->
  copyGlobalRulesFiles sourceDir targetDir w
  = (inr (thrown_response "Unknown error occurred" e), after_mkdir targetDir w).
Proof.
  intros Ha Hm Hr.
  unfold copyGlobalRulesFiles, try_catch, bind, access, mkdir, readdir,
    reading, writing, ret.
  rewrite Ha. simpl. rewrite Hm. simpl in *. unfold after_mkdir in Hr. simpl in Hr.
  rewrite Hr. reflexivity.
Qed.

Lemma sync_loop sourceDir targetDir w u u' files outcomes w' :
  fs_access (disk w) sourceDir = inr u ->
  fst (fs_mkdir (disk w) targetDir) = inr u' ->
  fs_readdir (disk (after_mkdir targetDir w)) sourceDir = inr files ->
  Attempts sourceDir targetDir (after_mkdir targetDir w)
    (List.filter (fun file => startsWith file "g-") files) outcomes w' ->
  copyGlobalRulesFiles sourceDir targetDir w
  = (inr (response_of (errors_of outcomes)), w').
Proof.
  intros Ha Hm Hr Hatt.
  unfold copyGlobalRulesFiles, try_catch, bind, access, mkdir, readdir,
    reading, writing, ret.
  rewrite Ha. simpl. rewrite Hm. simpl in *. unfold after_mkdir in Hr. simpl in Hr.
  rewrite Hr.
  destruct (copyLoop_attempts sourceDir targetDir
              (List.filter (fun file => startsWith file "g-") files) []
              (after_mkdir targetDir w)) as (outcomes2 & w2 & Hatt2 & Hloop).
  destruct (Attempts_deterministic _ _ _ _ _ _ Hatt _ _ Hatt2) as [-> ->].
  destruct (List.filter (fun file => startsWith file "g-") files) as [|f fs] eqn:Ef.
  - inversion Hatt; subst. reflexivity.
  - change (Nat.eqb (List.length (f :: fs)) 0) with false. cbv iota.
    unfold after_mkdir in Hloop. cbv beta. rewrite Hloop. simpl app.
    rewrite <- response_of_length. destruct (errors_of outcomes); reflexivity.
Qed.

Lemma sync_run sourceDir targetDir w :
  exists r w',
    copyGlobalRulesFiles sourceDir targetDir w = (inr r, w') /\
    SyncRun sourceDir targetDir w r w'.
Proof.
  destruct (fs_access (disk w) sourceDir) as [e|u] eqn:Ha.
  { eexists _, _. split; [eapply sync_source_inaccessible; eassumption|].
    econstructor; eassumption. }
  destruct (fst (fs_mkdir (disk w) targetDir)) as [e|u'] eqn:Hm.
  { eexists _, _. split; [eapply sync_mkdir_throws; eassumption|].
    eapply run_mkdir_throws; eassumption. }
  destruct (fs_readdir (disk (after_mkdir targetDir w)) sourceDir) as [e|files] eqn:Hr.
  { eexists _, _. split; [eapply sync_readdir_throws; eassumption|].
    eapply run_readdir_throws; eassumption. }
  destruct (copyLoop_attempts sourceDir targetDir
              (List.filter (fun file => startsWith file "g-") files) []
              (after_mkdir targetDir w)) as (outcomes & w' & Hatt & _).
  eexists _, _. split; [eapply sync_loop; eassumption|].
  eapply run_loop; eassumption.
Qed.

(** ** What one attempt does to the disk *)

Lemma locate_entry dir f :
  entry_name f = true -> path_locate (path_join [dir; f]) = path_locate dir ++ [f].
Proof. intros Hf. apply join_locate. simpl. rewrite Hf. reflexivity. Qed.

(** An entry that [stat] does not report as a regular file is left out:
    no copy, no exception. *)
Lemma copyOne_not_regular sourceDir targetDir file w st :
  fs_stat (disk w) (path_join [sourceDir; file]) = inr st ->
  isFile st = false ->
  copyOne sourceDir targetDir file w = (inr tt, w).
Proof.
  intros Hst Hf. unfold copyOne, bind, stat, reading, ret.
  rewrite Hst, Hf. reflexivity.
Qed.

Lemma copyOne_effect sourceDir targetDir file w r w' :
  entry_name file = true ->
  copyOne sourceDir targetDir file w = (r, w') ->
  this w' = this w /\
  (forall l, l <> path_locate targetDir ++ [file] ->
             fs_lookup (disk w') l = fs_lookup (disk w) l) /\
  (is_regular (entry w sourceDir file) = false ->
   entry w' targetDir file = entry w targetDir file) /\
  (path_locate sourceDir ++ [file] = path_locate targetDir ++ [file] ->
   entry w' targetDir file = entry w targetDir file) /\
  (is_regular (entry w sourceDir file) = true -> (exists u, r = inr u) ->
   entry w' targetDir file = entry w sourceDir file).
Proof.
  intros Hname. unfold copyOne, bind, stat, copyFile, reading, writing, ret, entry.
  rewrite <- (locate_entry sourceDir file Hname), <- (locate_entry targetDir file Hname).
  destruct (fs_stat (disk w) (path_join [sourceDir; file])) as [e|st] eqn:Hst.
  { intros [= <- <-]. repeat split; try reflexivity.
    intros _ [u Hu]. discriminate. }
  pose proof (stat_isFile _ _ _ Hst) as Hreg.
  destruct (isFile st) eqn:Hfile.
  - intros [= <- <-]. simpl. repeat split.
    + intros l Hl. apply copyFile_frame. exact Hl.
    + intros H. rewrite H in Hreg. discriminate.
    + intros Hsame. apply copyFile_same. exact Hsame.
    + intros Hr [[] Hu]. apply copyFile_ok; assumption.
  - intros [= <- <-]. repeat split; try reflexivity.
    intros H. rewrite H in Hreg. discriminate.
Qed.

(** The entries of the source directory are as they were. *)
Lemma copyOne_source sourceDir targetDir file w r w' :
  entry_name file = true ->
  copyOne sourceDir targetDir file w = (r, w') ->
  forall g, entry w' sourceDir g = entry w sourceDir g.
Proof.
  intros Hname Hone g.
  destruct (copyOne_effect _ _ _ _ _ _ Hname Hone) as (_ & Hframe & _ & Hsame & _).
  unfold entry in *.
  destruct (decide (path_locate sourceDir ++ [g] = path_locate targetDir ++ [file]))
    as [Heq|Hne].
  - rewrite Heq. apply Hsame.
    apply app_inj_tail in Heq as [-> ->]. reflexivity.
  - apply Hframe. exact Hne.
Qed.

(** A location changes only if it is the target of a regular file. *)
Lemma copyOne_changes sourceDir targetDir file w r w' :
  entry_name file = true ->
  copyOne sourceDir targetDir file w = (r, w') ->
  forall l,
    fs_lookup (disk w') l = fs_lookup (disk w) l \/
    (l = path_locate targetDir ++ [file] /\
     is_regular (entry w sourceDir file) = true).
Proof.
  intros Hname Hone l.
  destruct (copyOne_effect _ _ _ _ _ _ Hname Hone) as (_ & Hframe & Hskip & _).
  destruct (decide (l = path_locate targetDir ++ [file])) as [->|Hne].
  - destruct (is_regular (entry w sourceDir file)) eqn:Hreg.
    + right. split; reflexivity.
    + left. apply Hskip. reflexivity.
  - left. apply Hframe. exact Hne.
Qed.

(** ** What the loop does to the disk *)

Lemma errors_of_cons file r outcomes :
  errors_of ((file, r) :: outcomes) = [] ->
  (exists u, r = inr u) /\ errors_of outcomes = [].
Proof.
  unfold errors_of. simpl. unfold error_of at 1. simpl.
  destruct r as [e|u]; [discriminate|]. simpl. eauto.
Qed.

Lemma Attempts_effect sourceDir targetDir w files outcomes w' :
  Attempts sourceDir targetDir w files outcomes w' ->
  forallb entry_name files = true ->
  this w' = this w /\
  (forall g, entry w' sourceDir g = entry w sourceDir g) /\
  (forall l,
     fs_lookup (disk w') l = fs_lookup (disk w) l \/
     exists f, In f files /\ l = path_locate targetDir ++ [f] /\
               is_regular (entry w sourceDir f) = true) /\
  (errors_of outcomes = [] ->
   forall f, In f files -> is_regular (entry w sourceDir f) = true ->
             entry w' targetDir f = entry w sourceDir f).
Proof.
  induction 1 as [w|w file rest r w1 outcomes w2 Hone Hrest IH]; intros Hnames.
  - repeat split; try reflexivity.
    + intros l. left. reflexivity.
    + intros _ f [].
  - simpl in Hnames. apply andb_true_iff in Hnames as [Hname Hnames].
    destruct (IH Hnames) as (Hthis & Hsrc & Hchg & Hok).
    pose proof (copyOne_source _ _ _ _ _ _ Hname Hone) as Hsrc1.
    pose proof (copyOne_changes _ _ _ _ _ _ Hname Hone) as Hchg1.
    destruct (copyOne_effect _ _ _ _ _ _ Hname Hone) as (Hthis1 & _ & _ & _ & Hcopy).
    split; [congruence|]. split; [|split].
    + intros g. rewrite Hsrc. apply Hsrc1.
    + intros l. destruct (Hchg l) as [Hsame|(f & Hin & -> & Hreg)].
      * destruct (Hchg1 l) as [Hsame1|[-> Hreg]].
        -- left. congruence.
        -- right. exists file. split; [left; reflexivity|]. split; [reflexivity|exact Hreg].
      * right. exists f. split; [right; exact Hin|]. split; [reflexivity|].
        rewrite <- Hsrc1. exact Hreg.
    + intros Herr f Hin Hreg.
      apply errors_of_cons in Herr as [Hu Herr].
      destruct (in_dec string_dec f rest) as [Hrest'|Hnot].
      * rewrite (Hok Herr f Hrest'); [apply Hsrc1|].
        rewrite Hsrc1. exact Hreg.
      * destruct Hin as [->|Hin]; [|contradiction].
        unfold entry at 1.
        destruct (Hchg (path_locate targetDir ++ [f])) as [Hsame|(f' & Hin' & Heq & _)].
        -- rewrite Hsame. apply Hcopy; assumption.
        -- apply app_inj_tail in Heq as [_ ->]. contradiction.
Qed.

(** ** What [mkdir] does to the disk *)

Lemma mkdir_regular targetDir w l :
  is_regular (fs_lookup (disk (after_mkdir targetDir w)) l)
  = is_regular (fs_lookup (disk w) l) /\
  (is_regular (fs_lookup (disk w) l) = true ->
   fs_lookup (disk (after_mkdir targetDir w)) l = fs_lookup (disk w) l).
Proof.
  unfold after_mkdir. simpl.
  destruct (mkdir_frame (disk w) targetDir l) as [Hsame|(Hnone & Hdir & _)].
  - rewrite Hsame. split; [reflexivity|tauto].
  - rewrite Hnone, Hdir. split; [reflexivity|discriminate].
Qed.

(** ** [loadConfig] *)

Ltac run_loadConfig :=
  unfold loadConfig, try_catch, bind, access_value, access, readFile, reading,
    lift, throw, ret, config_error.

(** [loadConfig] catches everything and leaves the world as it is. *)
Lemma loadConfig_returns w : exists r, loadConfig w = (inr r, w).
Proof.
  run_loadConfig.
  destruct (fs_access (disk w) configPath); simpl; eauto.
  destruct (fs_readFile (disk w) configPath) as [|content]; simpl; eauto.
  destruct (JSON_parse content) as [|cfg]; simpl; eauto.
  destruct (get_property cfg "globalRulesSourceDir") as [|dir]; simpl; eauto.
  destruct (truthy dir); simpl; eauto.
  destruct (call_trim dir) as [|trimmed]; simpl; eauto.
  destruct (String.eqb trimmed ""); simpl; eauto.
  destruct dir; simpl; eauto.
  destruct (fs_access (disk w) s); simpl; eauto.
Qed.

Lemma loadConfig_failed_type w e w' :
  loadConfig w = (inr (ConfigFailed e), w') -> type e = CONFIG_PARSING_ERROR.
Proof.
  run_loadConfig.
  destruct (fs_access (disk w) configPath); simpl; [intros [= <- _]; reflexivity|].
  destruct (fs_readFile (disk w) configPath) as [|content]; simpl;
    [intros [= <- _]; reflexivity|].
  destruct (JSON_parse content) as [|cfg]; simpl; [intros [= <- _]; reflexivity|].
  destruct (get_property cfg "globalRulesSourceDir") as [|dir]; simpl;
    [intros [= <- _]; reflexivity|].
  destruct (truthy dir); simpl; [|intros [= <- _]; reflexivity].
  destruct (call_trim dir) as [|trimmed]; simpl; [intros [= <- _]; reflexivity|].
  destruct (String.eqb trimmed ""); simpl; [intros [= <- _]; reflexivity|].
  destruct dir; simpl; try (intros [= <- _]; reflexivity).
  destruct (fs_access (disk w) s); simpl; [intros [= <- _]; reflexivity|discriminate].
Qed.

(** What a successful [loadConfig] has checked. *)
Lemma loadConfig_ok w cfg w' :
  loadConfig w = (inr (ConfigOk cfg), w') ->
  exists content u,
    fs_readFile (disk w) configPath = inr content /\
    JSON_parse content = inr cfg /\
    get_property cfg "globalRulesSourceDir" = inr (JsString (config_dir cfg)) /\
    js_trim (config_dir cfg) <> "" /\
    fs_access (disk w) (config_dir cfg) = inr u.
Proof.
  run_loadConfig. unfold config_dir.
  destruct (fs_access (disk w) configPath) as [|u0]; simpl; [discriminate|].
  destruct (fs_readFile (disk w) configPath) as [|content]; simpl; [discriminate|].
  destruct (JSON_parse content) as [|cfg0] eqn:Hparse; simpl; [discriminate|].
  destruct (get_property cfg0 "globalRulesSourceDir") as [|dir] eqn:Hdir; simpl;
    [discriminate|].
  destruct (truthy dir); simpl; [|discriminate].
  destruct (call_trim dir) as [|trimmed] eqn:Htrim; simpl; [discriminate|].
  destruct (String.eqb trimmed "") eqn:Hblank; simpl; [discriminate|].
  destruct dir; simpl in *; try discriminate.
  destruct (fs_access (disk w) s) as [|u] eqn:Hacc; simpl; [discriminate|].
  intros [= <- _]. rewrite Hdir. injection Htrim as <-.
  apply String.eqb_neq in Hblank. eauto 10.
Qed.

(** The precise result of [loadConfig] on a store that names an
    accessible directory. *)
Lemma loadConfig_good w content cfg s u u' :
  fs_access (disk w) configPath = inr u ->
  fs_readFile (disk w) configPath = inr content ->
  JSON_parse content = inr cfg ->
  get_property cfg "globalRulesSourceDir" = inr (JsString s) ->
  js_trim s <> "" ->
  fs_access (disk w) s = inr u' ->
  loadConfig w = (inr (ConfigOk cfg), w).
Proof.
  intros Ha Hr Hp Hd Ht Hs. run_loadConfig.
  rewrite Ha. simpl. rewrite Hr. simpl. rewrite Hp. simpl. rewrite Hd. simpl.
  assert (Hne : s <> "") by (intros ->; apply Ht; reflexivity).
  apply String.eqb_neq in Hne. rewrite Hne. simpl.
  apply String.eqb_neq in Ht. rewrite Ht. simpl. rewrite Hs. reflexivity.
Qed.

Lemma loadConfig_bad_store w :
  BadConfigStore w -> exists e, loadConfig w = (inr (ConfigFailed e), w).
Proof.
  intros Hbad. run_loadConfig.
  destruct (fs_access (disk w) configPath) as [|u] eqn:Ha; simpl; [eauto|].
  destruct Hbad as [Hmiss|content e Hr Hp|content cfg Hr Hp Hd
                   |content cfg s Hr Hp Hd Hblank|content cfg s Hr Hp Hd Hmiss].
  - destruct (access_missing _ _ Hmiss) as [e He]. congruence.
  - rewrite Hr. simpl. rewrite Hp. simpl. eauto.
  - rewrite Hr. simpl. rewrite Hp. simpl. rewrite Hd. simpl. eauto.
  - rewrite Hr. simpl. rewrite Hp. simpl. rewrite Hd. simpl.
    destruct (negb (String.eqb s "")); simpl; [|eauto].
    rewrite Hblank. simpl. eauto.
  - rewrite Hr. simpl. rewrite Hp. simpl. rewrite Hd. simpl.
    destruct (negb (String.eqb s "")); simpl; [|eauto].
    destruct (String.eqb (js_trim s) ""); simpl; [eauto|].
    destruct (access_missing _ _ Hmiss) as [e He]. rewrite He. simpl. eauto.
Qed.

(** ** The handlers *)

Lemma handler_envelope d path w :
  handler d path w = envelope (operation d path w).
Proof.
  destruct d; unfold handler, operation, envelope, handleLoadGlobalRules,
    handleSaveGlobalRules, loadGlobalRules, saveGlobalRules, bind, ret;
    destruct (loadConfig w) as [[e|[cfg|err]] w1]; simpl; try reflexivity;
    match goal with
    | |- context [copyGlobalRulesFiles ?a ?b ?w] =>
        destruct (copyGlobalRulesFiles a b w) as [[?|?] ?]; reflexivity
    end.
Qed.

Lemma operation_config_failed d path w e :
  loadConfig w = (inr (ConfigFailed e), w) ->
  operation d path w = (inr (FailedResponse [e]), w).
Proof.
  intros H. destruct d; unfold operation, loadGlobalRules, saveGlobalRules, bind, ret;
    rewrite H; reflexivity.
Qed.

Lemma operation_config_ok d path w cfg :
  loadConfig w = (inr (ConfigOk cfg), w) ->
  operation d path w
  = copyGlobalRulesFiles (fst (roles d (config_dir cfg) path))
      (snd (roles d (config_dir cfg) path)) w.
Proof.
  intros H. destruct d; unfold operation, loadGlobalRules, saveGlobalRules, bind;
    rewrite H; reflexivity.
Qed.

Lemma rules_dir_locate path :
  path_locate (path_join [path; ".cursor"; "rules"])
  = path_locate path ++ [".cursor"; "rules"].
Proof. apply join_locate. reflexivity. Qed.

(** ** What a whole run does to the disk *)

Lemma forallb_filter {A} (p q : A -> bool) l :
  forallb p l = true -> forallb p (List.filter q l) = true.
Proof.
  rewrite !forallb_forall. intros H x Hx. apply List.filter_In in Hx. apply H, Hx.
Qed.

Lemma response_of_success errs : success (response_of errs) = true -> errs = [].
Proof. destruct errs; [reflexivity|discriminate]. Qed.

(** A location changes only by becoming a directory on the way to the
    target, or by being the target of a matching regular file. *)
Lemma sync_changes sourceDir targetDir w r w' :
  SyncRun sourceDir targetDir w r w' ->
  forall l,
    fs_lookup (disk w') l = fs_lookup (disk w) l \/
    (fs_lookup (disk w) l = None /\ fs_lookup (disk w') l = Some Directory /\
     exists rest, path_locate targetDir = l ++ rest) \/
    (exists f, startsWith f "g-" = true /\
               is_regular (entry w sourceDir f) = true /\
               l = path_locate targetDir ++ [f]).
Proof.
  assert (Hmk : forall l,
    fs_lookup (disk (after_mkdir targetDir w)) l = fs_lookup (disk w) l \/
    (fs_lookup (disk w) l = None /\
     fs_lookup (disk (after_mkdir targetDir w)) l = Some Directory /\
     exists rest, path_locate targetDir = l ++ rest)).
  { intros l. apply mkdir_frame. }
  intros Hrun l. destruct Hrun as [e Ha|u e Ha Hm|u u' e Ha Hm Hr
                                  |u u' files outcomes w' Ha Hm Hr Hatt].
  - left. reflexivity.
  - destruct (Hmk l); tauto.
  - destruct (Hmk l); tauto.
  - pose proof (readdir_names _ _ _ Hr) as Hnames.
    apply (forallb_filter _ (fun file => startsWith file "g-")) in Hnames.
    destruct (Attempts_effect _ _ _ _ _ _ Hatt Hnames) as (_ & _ & Hchg & _).
    destruct (Hchg l) as [Hsame|(f & Hin & -> & Hreg)].
    + rewrite Hsame. destruct (Hmk l); tauto.
    + right. right. exists f. apply List.filter_In in Hin as [_ Hg].
      split; [exact Hg|]. split; [|reflexivity].
      unfold entry in *. rewrite <- Hreg. symmetry. apply mkdir_regular.
Qed.

(** The regular files of the source directory are as they were. *)
Lemma sync_source sourceDir targetDir w r w' :
  SyncRun sourceDir targetDir w r w' ->
  forall g, is_regular (entry w sourceDir g) = true ->
            entry w' sourceDir g = entry w sourceDir g.
Proof.
  intros Hrun g Hreg. unfold entry in *.
  pose proof (mkdir_regular targetDir w (path_locate sourceDir ++ [g])) as [_ Hmk].
  destruct Hrun as [e Ha|u e Ha Hm|u u' e Ha Hm Hr
                   |u u' files outcomes w' Ha Hm Hr Hatt]; auto.
  pose proof (readdir_names _ _ _ Hr) as Hnames.
  apply (forallb_filter _ (fun file => startsWith file "g-")) in Hnames.
  destruct (Attempts_effect _ _ _ _ _ _ Hatt Hnames) as (_ & Hsrc & _).
  unfold entry in Hsrc. rewrite Hsrc. auto.
Qed.

(** After a successful run every matching regular file of the source
    directory is in the target directory, bytes and mode. *)
Lemma sync_copied sourceDir targetDir w r w' :
  SyncRun sourceDir targetDir w r w' ->
  success r = true ->
  forall f, startsWith f "g-" = true ->
            is_regular (entry w sourceDir f) = true ->
            entry w' targetDir f = entry w sourceDir f.
Proof.
  intros Hrun Hok f Hg Hreg.
  destruct Hrun as [e Ha|u e Ha Hm|u u' e Ha Hm Hr
                   |u u' files outcomes w' Ha Hm Hr Hatt]; try discriminate.
  apply response_of_success in Hok.
  pose proof (readdir_names _ _ _ Hr) as Hnames.
  apply (forallb_filter _ (fun file => startsWith file "g-")) in Hnames.
  destruct (Attempts_effect _ _ _ _ _ _ Hatt Hnames) as (_ & _ & _ & Hcopy).
  pose proof (mkdir_regular targetDir w (path_locate sourceDir ++ [f])) as [Hr1 Hr2].
  unfold entry in *.
  rewrite <- (Hr2 Hreg). apply (Hcopy Hok).
  - apply List.filter_In. split; [|exact Hg].
    eapply readdir_complete; [exact Hr|].
    rewrite (Hr2 Hreg). destruct (fs_lookup (disk w) (path_locate sourceDir ++ [f]));
      [discriminate|discriminate Hreg].
  - rewrite Hr1. exact Hreg.
Qed.

(** A name that is not a matching regular file is not copied. *)
Lemma sync_not_copied sourceDir targetDir w r w' :
  SyncRun sourceDir targetDir w r w' ->
  forall f, ~ (startsWith f "g-" = true /\ is_regular (entry w sourceDir f) = true) ->
            entry w' targetDir f = entry w targetDir f.
Proof.
  intros Hrun f Hnot. unfold entry.
  destruct (sync_changes _ _ _ _ _ Hrun (path_locate targetDir ++ [f]))
    as [Hsame|[(_ & _ & rest & Hrest)|(f' & Hg & Hreg & Heq)]].
  - exact Hsame.
  - exfalso. apply (f_equal (@List.length string)) in Hrest.
    rewrite !length_app in Hrest. simpl in Hrest. lia.
  - apply app_inj_tail in Heq as [_ ->]. tauto.
Qed.

(** Wherever a second run succeeds after a first one, it leaves every
    location as the first run left it. *)
Lemma repeat_leaves_disk sourceDir targetDir w r w' r' w'' :
  SyncRun sourceDir targetDir w r w' -> success r = true ->
  SyncRun sourceDir targetDir w' r' w'' -> success r' = true ->
  forall l, fs_lookup (disk w'') l = fs_lookup (disk w') l.
Proof.
  intros Hrun Hok Hrun' Hok' l.
  destruct (sync_changes _ _ _ _ _ Hrun' l)
    as [Hsame|[(Hnone & _ & rest & Hrest)|(f & Hg & Hreg & ->)]].
  - exact Hsame.
  - (* the way to the target directory was made by the first run *)
    exfalso.
    assert (Hdir : fs_lookup (disk w') l = Some Directory); [|congruence].
    destruct Hrun as [e Ha|u e Ha Hm|u u' e Ha Hm Hr
                     |u u' files outcomes w' Ha Hm Hr Hatt]; try discriminate.
    pose proof (readdir_names _ _ _ Hr) as Hnames.
    apply (forallb_filter _ (fun file => startsWith file "g-")) in Hnames.
    destruct (Attempts_effect _ _ _ _ _ _ Hatt Hnames) as (_ & _ & Hchg & _).
    assert (Hmade : fs_lookup (disk (after_mkdir targetDir w)) l = Some Directory).
    { unfold after_mkdir. simpl. destruct u'. apply (mkdir_ok _ _ _ rest Hm Hrest). }
    destruct (Hchg l) as [Hsame|(f & _ & Heq & _)]; [congruence|].
    exfalso. rewrite Heq in Hrest.
    apply (f_equal (@List.length string)) in Hrest.
    rewrite !length_app in Hrest. simpl in Hrest. lia.
  - (* a file copied again *)
    change (entry w'' targetDir f = entry w' targetDir f).
    rewrite (sync_copied _ _ _ _ _ Hrun' Hok' f Hg Hreg).
    destruct (sync_changes _ _ _ _ _ Hrun (path_locate sourceDir ++ [f]))
      as [Hsame|[(_ & Hdir & _)|(f' & Hg' & Hreg' & Heq)]].
    + symmetry. unfold entry in Hreg. rewrite Hsame in Hreg.
      rewrite (sync_copied _ _ _ _ _ Hrun Hok f Hg Hreg).
      unfold entry. symmetry. exact Hsame.
    + unfold entry in Hreg. rewrite Hdir in Hreg. discriminate.
    + apply app_inj_tail in Heq as [Hdirs <-].
      unfold entry. rewrite Hdirs. reflexivity.
Qed.

(** ** The server object *)

Lemma disk_only_ret {A} (a : A) : disk_only (ret a).
Proof. intros d s s'. reflexivity. Qed.

Lemma disk_only_throw {A} e : disk_only (@throw _ A e).
Proof. intros d s s'. reflexivity. Qed.

Lemma disk_only_lift {A} (r : JsThrown + A) : disk_only (lift r).
Proof. intros d s s'. reflexivity. Qed.

Lemma disk_only_reading {A} (op : fs_state -> JsThrown + A) : disk_only (reading op).
Proof. intros d s s'. reflexivity. Qed.

Lemma disk_only_writing {A} (op : fs_state -> (JsThrown + A) * fs_state) :
  disk_only (writing op).
Proof. intros d s s'. reflexivity. Qed.

Lemma disk_only_bind {A B} (m : Js A) (k : A -> Js B) :
  disk_only m -> (forall a, disk_only (k a)) -> disk_only (bind m k).
Proof.
  intros Hm Hk d s s'. unfold bind. rewrite (Hm d s s').
  destruct (m {| disk := d; this := s |}) as [[e|a] [d1 s1]]; simpl.
  - reflexivity.
  - apply Hk.
Qed.

Lemma disk_only_try_catch {A} (m : Js A) (h : JsThrown -> Js A) :
  disk_only m -> (forall e, disk_only (h e)) -> disk_only (try_catch m h).
Proof.
  intros Hm Hh d s s'. unfold try_catch. rewrite (Hm d s s').
  destruct (m {| disk := d; this := s |}) as [[e|a] [d1 s1]]; simpl.
  - apply Hh.
  - reflexivity.
Qed.

Lemma disk_only_if {A} (b : bool) (m1 m2 : Js A) :
  disk_only m1 -> disk_only m2 -> disk_only (if b then m1 else m2).
Proof. destruct b; tauto. Qed.

Ltac disk_only_step :=
  first
    [ apply disk_only_ret | apply disk_only_throw | apply disk_only_lift
    | apply disk_only_reading | apply disk_only_writing
    | apply disk_only_bind; [|intros ?]
    | apply disk_only_try_catch; [|intros ?]
    | apply disk_only_if ].

Lemma disk_only_loadConfig : disk_only loadConfig.
Proof.
  unfold loadConfig, access_value, access, readFile.
  repeat disk_only_step.
  match goal with |- disk_only (match ?v with _ => _ end) => destruct v end;
    repeat disk_only_step.
Qed.

Lemma disk_only_copyLoop sourceDir targetDir files :
  forall errors, disk_only (copyLoop sourceDir targetDir files errors).
Proof.
  induction files as [|file rest IH]; intros errors; simpl.
  - apply disk_only_ret.
  - unfold copyOne, stat, copyFile. repeat disk_only_step. apply IH.
Qed.

Lemma disk_only_copyGlobalRulesFiles sourceDir targetDir :
  disk_only (copyGlobalRulesFiles sourceDir targetDir).
Proof.
  unfold copyGlobalRulesFiles, access, mkdir, readdir.
  repeat disk_only_step. apply disk_only_copyLoop.
Qed.

Lemma disk_only_handler d path : disk_only (handler d path).
Proof.
  destruct d; unfold handler, handleLoadGlobalRules, handleSaveGlobalRules;
    (apply disk_only_bind; [apply disk_only_loadConfig|]);
    (intros [cfg|e];
     [apply disk_only_bind;
      [apply disk_only_copyGlobalRulesFiles|intros r; apply disk_only_ret]
     |apply disk_only_ret]).
Qed.

(** * The claims *)

(** C1.  Once the source directory is accessible, the target directory
    is made and the source is listed, every listed name starting with
    [g-] is attempted, in listing order, each on the disk the previous
    attempt left.  A throw from [stat] or [copyFile] for one name becomes
    the record [OPERATION_ERROR], [Failed to copy <name>: <detail>], and
    the following names are still attempted.  The result is a failure
    with these records in order when there is at least one, and a success
    otherwise. *)
Theorem failures_collected_per_file sourceDir targetDir w files :
  fs_access (disk w) sourceDir = inr tt ->
  fst (fs_mkdir (disk w) targetDir) = inr tt ->
  fs_readdir (disk (after_mkdir targetDir w)) sourceDir = inr files ->
  exists outcomes w',
    Attempts sourceDir targetDir (after_mkdir targetDir w)
      (List.filter (fun file => startsWith file "g-") files) outcomes w' /\
    map fst outcomes = List.filter (fun file => startsWith file "g-") files /\
    errors_of outcomes
    = flat_map (fun outcome =>
                  match snd outcome with
                  | inl error =>
                      [ {| type := OPERATION_ERROR;
                           message := "Failed to copy " ++ fst outcome ++ ": "
                                      ++ error_message_or "Unknown error" error |} ]
                  | inr _ => []
                  end) outcomes /\
    copyGlobalRulesFiles sourceDir targetDir w
    = (inr (match errors_of outcomes with
            | [] => {| success := true; errors := None |}
            | _ :: _ => {| success := false; errors := Some (errors_of outcomes) |}
            end), w').
Proof.
  intros Ha Hm Hr.
  destruct (copyLoop_attempts sourceDir targetDir
              (List.filter (fun file => startsWith file "g-") files) []
              (after_mkdir targetDir w)) as (outcomes & w' & Hatt & _).
  exists outcomes, w'. split; [exact Hatt|].
  split; [eapply Attempts_names; exact Hatt|].
  split; [reflexivity|].
  rewrite (sync_loop _ _ _ _ _ _ _ _ Ha Hm Hr Hatt).
  destruct (errors_of outcomes); reflexivity.
Qed.


(** C3.  When the configuration store is missing, malformed, without the
    field [globalRulesSourceDir], blank after trimming, or names a
    directory that does not exist, both operations return a failure with
    exactly one error, of type [CONFIG_PARSING_ERROR], and the world is
    left as it was: the synchronization is not run. *)
Theorem bad_config_single_error d path w :
  BadConfigStore w ->
  exists e,
    type e = CONFIG_PARSING_ERROR /\
    operation d path w = (inr {| success := false; errors := Some [e] |}, w) /\
    handler d path w
    = (inr (text_result (JSON_stringify {| success := false; errors := Some [e] |})), w).
Proof.
  intros Hbad. destruct (loadConfig_bad_store w Hbad) as [e He].
  exists e. split; [eapply loadConfig_failed_type; exact He|].
  pose proof (operation_config_failed d path w e He) as Hop.
  split; [exact Hop|].
  rewrite handler_envelope, Hop. reflexivity.
Qed.

(** C4.  When the source directory does not exist the result is a
    failure with the single error [OPERATION_ERROR],
    [Source directory does not exist: <sourceDir>], and the world is left
    as it was: no directory is made, no file written. *)
Theorem missing_source_single_error sourceDir targetDir w :
  fs_lookup (disk w) (path_locate sourceDir) = None ->
  copyGlobalRulesFiles sourceDir targetDir w
  = (inr {| success := false;
            errors := Some [ {| type := OPERATION_ERROR;
                                message := "Source directory does not exist: "
                                           ++ sourceDir |} ] |}, w).
Proof.
  intros Hmiss. destruct (access_missing _ _ Hmiss) as [e He].
  apply (sync_source_inaccessible _ _ _ _ He).
Qed.

(** C5.  The synchronizer and both operations always return, and what
    they return is well formed: a failure carries at least one error, a
    success has no [errors] property. *)
Theorem responses_well_formed :
  (forall sourceDir targetDir w,
     exists r w',
       copyGlobalRulesFiles sourceDir targetDir w = (inr r, w') /\ well_formed r) /\
  (forall d path w,
     exists r w',
       operation d path w = (inr r, w') /\
       handler d path w = (inr (text_result (JSON_stringify r)), w') /\
       well_formed r).
Proof.
  assert (Hsync : forall sourceDir targetDir w,
     exists r w',
       copyGlobalRulesFiles sourceDir targetDir w = (inr r, w') /\ well_formed r).
  { intros sourceDir targetDir w.
    destruct (sync_run sourceDir targetDir w) as (r & w' & Heq & Hrun).
    exists r, w'. split; [exact Heq|].
    destruct Hrun as [e Ha|u e Ha Hm|u u' e Ha Hm Hr
                     |u u' files outcomes w' Ha Hm Hr Hatt];
      try (split; simpl; [eauto|discriminate]).
    destruct (errors_of outcomes) as [|e es]; split; simpl;
      try discriminate; eauto. }
  split; [exact Hsync|].
  intros d path w.
  destruct (loadConfig_returns w) as [[cfg|e] Hcfg].
  - destruct (Hsync (fst (roles d (config_dir cfg) path))
                    (snd (roles d (config_dir cfg) path)) w) as (r & w' & Heq & Hwf).
    exists r, w'. rewrite handler_envelope, (operation_config_ok d path w cfg Hcfg), Heq.
    repeat split; try apply Hwf.
  - exists (FailedResponse [e]), w.
    rewrite handler_envelope, (operation_config_failed d path w e Hcfg).
    repeat split; simpl; [eauto|discriminate].
Qed.

(** C6, as amended.  When the source directory is accessible, the target
    directory exists or can be made, and the listing has no name starting
    with [g-], the result is a success, the target directory is a
    directory afterwards, and nothing but the making of directories has
    happened to the disk. *)
Theorem no_matching_files_succeeds sourceDir targetDir w files :
  fs_access (disk w) sourceDir = inr tt ->
  fst (fs_mkdir (disk w) targetDir) = inr tt ->
  fs_readdir (disk (after_mkdir targetDir w)) sourceDir = inr files ->
  (forall f, In f files -> startsWith f "g-" = false) ->
  copyGlobalRulesFiles sourceDir targetDir w
  = (inr {| success := true; errors := None |}, after_mkdir targetDir w) /\
  fs_lookup (disk (after_mkdir targetDir w)) (path_locate targetDir) = Some Directory /\
  (forall l,
     fs_lookup (disk (after_mkdir targetDir w)) l = fs_lookup (disk w) l \/
     (fs_lookup (disk w) l = None /\
      fs_lookup (disk (after_mkdir targetDir w)) l = Some Directory)).
Proof.
  intros Ha Hm Hr Hnone.
  assert (Hempty : List.filter (fun file => startsWith file "g-") files = []).
  { clear -Hnone. induction files as [|f files IH]; [reflexivity|].
    simpl. rewrite (Hnone f) by (left; reflexivity).
    apply IH. intros g Hg. apply Hnone. right. exact Hg. }
  split; [|split].
  - rewrite (sync_loop _ _ _ _ _ _ [] (after_mkdir targetDir w) Ha Hm Hr).
    + reflexivity.
    + rewrite Hempty. constructor.
  - unfold after_mkdir. simpl.
    apply (mkdir_ok (disk w) targetDir (path_locate targetDir) []); [exact Hm|].
    symmetry. apply app_nil_r.
  - intros l. unfold after_mkdir. simpl.
    destruct (mkdir_frame (disk w) targetDir l) as [Hsame|(H1 & H2 & _)]; tauto.
Qed.

(** C7.  Whatever the outcome of a synchronization: the regular files of
    the source directory are as they were; a regular file of the target
    directory whose name is not that of a matching regular file of the
    source is as it was; and a location differs from before only in that
    it has become a directory on the way to the target directory, or in
    that it is the target of a matching regular file. *)
Theorem sync_frame sourceDir targetDir w r w' :
  copyGlobalRulesFiles sourceDir targetDir w = (r, w') ->
  (forall f bytes mode,
     entry w sourceDir f = Some (RegularFile bytes mode) ->
     entry w' sourceDir f = Some (RegularFile bytes mode)) /\
  (forall f bytes mode,
     entry w targetDir f = Some (RegularFile bytes mode) ->
     ~ (startsWith f "g-" = true /\ is_regular (entry w sourceDir f) = true) ->
     entry w' targetDir f = Some (RegularFile bytes mode)) /\
  (forall l,
     fs_lookup (disk w') l = fs_lookup (disk w) l \/
     (fs_lookup (disk w) l = None /\ fs_lookup (disk w') l = Some Directory /\
      exists rest, path_locate targetDir = l ++ rest) \/
     (exists f, startsWith f "g-" = true /\
                is_regular (entry w sourceDir f) = true /\
                l = path_locate targetDir ++ [f])).
Proof.
  intros Hsync.
  destruct (sync_run sourceDir targetDir w) as (r0 & w0 & Heq & Hrun).
  rewrite Heq in Hsync. injection Hsync as <- <-.
  split; [|split].
  - intros f bytes mode Hf.
    rewrite (sync_source _ _ _ _ _ Hrun f); [exact Hf|]. rewrite Hf. reflexivity.
  - intros f bytes mode Hf Hnot.
    rewrite (sync_not_copied _ _ _ _ _ Hrun f Hnot). exact Hf.
  - apply (sync_changes _ _ _ _ _ Hrun).
Qed.

(** C9.  When [stat] reports that an entry is not a regular file, the
    attempt for it copies nothing and throws nothing; the loop goes on as
    if the entry were not listed, pushing no error for it; and a run in
    which it is the only match is a success. *)
Theorem non_regular_entry_skipped sourceDir targetDir file w st :
  fs_stat (disk w) (path_join [sourceDir; file]) = inr st ->
  isFile st = false ->
  copyOne sourceDir targetDir file w = (inr tt, w) /\
  (forall rest errors,
     copyLoop sourceDir targetDir (file :: rest) errors w
     = copyLoop sourceDir targetDir rest errors w) /\
  (forall w0 files,
     w = after_mkdir targetDir w0 ->
     fs_access (disk w0) sourceDir = inr tt ->
     fst (fs_mkdir (disk w0) targetDir) = inr tt ->
     fs_readdir (disk w) sourceDir = inr files ->
     List.filter (fun f => startsWith f "g-") files = [file] ->
     copyGlobalRulesFiles sourceDir targetDir w0
     = (inr {| success := true; errors := None |}, w)).
Proof.
  intros Hst Hfile.
  pose proof (copyOne_not_regular sourceDir targetDir file w st Hst Hfile) as Hone.
  split; [exact Hone|]. split.
  - intros rest errors. simpl. unfold bind at 1. unfold try_catch, bind at 1.
    rewrite Hone. reflexivity.
  - intros w0 files -> Ha Hm Hr Hfilter.
    rewrite (sync_loop _ _ _ _ _ _ [(file, inr tt)] (after_mkdir targetDir w0) Ha Hm Hr).
    + reflexivity.
    + rewrite Hfilter. econstructor; [exact Hone|constructor].
Qed.

(** C10, as amended.  The handlers neither assign nor read the [config]
    field of the server object: after a call the object is as before, and
    the outcome of a call is the same whatever the object holds.  Each
    call runs [loadConfig] on the disk as it is at that moment. *)
Theorem config_never_cached d path w :
  this (snd (handler d path w)) = this w /\
  (forall server,
     handler d path {| disk := disk w; this := server |}
     = (fst (handler d path w),
        {| disk := disk (snd (handler d path w)); this := server |})) /\
  (exists configResult,
     loadConfig w = (inr configResult, w) /\
     match configResult with
     | ConfigFailed error =>
         operation d path w = (inr {| success := false; errors := Some [error] |}, w)
     | ConfigOk config =>
         operation d path w
         = copyGlobalRulesFiles (fst (roles d (config_dir config) path))
             (snd (roles d (config_dir config) path)) w
     end).
Proof.
  split; [|split].
  - pose proof (disk_only_handler d path (disk w) (this w) (this w)) as H.
    destruct w as [dk srv]. simpl in *. rewrite H at 1. reflexivity.
  - intros server. destruct w as [dk srv]. apply disk_only_handler.
  - destruct (loadConfig_returns w) as [[cfg|e] Hcfg].
    + exists (ConfigOk cfg). split; [exact Hcfg|].
      apply operation_config_ok. exact Hcfg.
    + exists (ConfigFailed e). split; [exact Hcfg|].
      apply (operation_config_failed d path w e Hcfg).
Qed.

End Properties.

(** * Repeating an operation, in memory *)

Module MemRepeat.

Lemma string_app_nonempty (a b : string) : b <> "" -> (a ++ b)%string <> "".
Proof. destruct a; simpl; [tauto|discriminate]. Qed.

Lemma normalize_nonempty p : Mem.normalize p <> "".
Proof.
  unfold Mem.normalize. destruct (String.eqb p ""); [discriminate|].
  destruct (String.eqb (Mem.join_slash _) "") eqn:Hbody.
  - destruct (String.prefix "/" p); [discriminate|].
    destruct (Mem.ends_with_slash p); discriminate.
  - apply String.eqb_neq in Hbody.
    apply string_app_nonempty.
    intros H. apply Hbody.
    destruct (Mem.join_slash _); [reflexivity|discriminate].
Qed.

Lemma join_nonempty parts : Mem.join parts <> "".
Proof.
  unfold Mem.join. destruct (List.filter _ parts); [discriminate|apply normalize_nonempty].
Qed.

Lemma node_join s parts : Mem.node s (Mem.join parts) = Mem.lookup s (Mem.locate (Mem.join parts)).
Proof.
  unfold Mem.node. pose proof (join_nonempty parts) as H.
  apply String.eqb_neq in H. rewrite H. reflexivity.
Qed.

Lemma lookup_raw s l n : l <> [] -> Mem.lookup s l = Some n -> s !! l = Some n.
Proof.
  unfold Mem.lookup. destruct (forallb entry_name l); [|discriminate].
  destruct l; [congruence|tauto].
Qed.

Lemma children_sound s d f :
  forallb entry_name d = true ->
  In f (Mem.children s d) ->
  entry_name f = true /\ exists n, Mem.lookup s (d ++ [f]) = Some n.
Proof.
  intros Hd Hf. apply list_elem_of_In in Hf. unfold Mem.children in Hf.
  apply list_elem_of_omap in Hf as ([key n] & Hin & Hc). simpl in Hc.
  apply MemLaws.child_of_Some in Hc as [Hname ->]. split; [exact Hname|].
  apply elem_of_map_to_list in Hin. exists n. unfold Mem.lookup.
  rewrite forallb_app, Hd. simpl. rewrite Hname. simpl.
  destruct (d ++ [f]) eqn:E; [destruct d; discriminate|exact Hin].
Qed.

Lemma copyFile_keeps_directories s src dst l :
  Mem.lookup s l = Some Directory ->
  Mem.lookup (snd (Mem.copyFile s src dst)) l = Some Directory.
Proof.
  intros Hl. unfold Mem.copyFile.
  destruct (Mem.node s src) as [[bytes mode|]|]; try exact Hl.
  destruct (Mem.node s dst) as [[? [|]|]|] eqn:Ed; try exact Hl.
  - simpl. rewrite MemLaws.lookup_insert_other; [exact Hl|].
    intros ->. apply MemLaws.node_lookup in Ed. congruence.
  - unfold Mem.node in Ed. destruct (String.eqb dst ""); [exact Hl|].
    destruct (Mem.lookup s (List.removelast (Mem.locate dst))) as [[|]|]; try exact Hl.
    simpl. rewrite MemLaws.lookup_insert_other; [exact Hl|]. intros ->. congruence.
Qed.

Lemma mkdirs_present todo : forall s done,
  (forall pre rest, todo = pre ++ rest -> pre <> [] ->
                    Mem.lookup s (done ++ pre) = Some Directory) ->
  Mem.mkdirs s done todo = Some s.
Proof.
  induction todo as [|name todo IH]; intros s done H; simpl; [reflexivity|].
  rewrite (H [name] todo) by (reflexivity || discriminate).
  apply IH. intros pre rest -> Hne.
  rewrite <- app_assoc. apply (H (name :: pre) rest); [reflexivity|discriminate].
Qed.

Lemma mkdir_present s p :
  p <> "" ->
  (forall l rest, Mem.locate p = l ++ rest -> Mem.lookup s l = Some Directory) ->
  Mem.mkdir s p = (inr tt, s).
Proof.
  intros Hp H. unfold Mem.mkdir. apply String.eqb_neq in Hp. rewrite Hp.
  rewrite mkdirs_present; [reflexivity|].
  intros pre rest Hl _. apply (H pre rest Hl).
Qed.

Ltac mem_ops :=
  change (@fs_lookup MemEnv) with Mem.lookup in *;
  change (@path_locate MemEnv) with Mem.locate in *;
  change (@path_join MemEnv) with Mem.join in *;
  change (@fs_access MemEnv) with Mem.access in *;
  change (@fs_readFile MemEnv) with Mem.readFile in *;
  change (@fs_readdir MemEnv) with Mem.readdir in *;
  change (@fs_stat MemEnv) with Mem.stat in *;
  change (@fs_mkdir MemEnv) with Mem.mkdir in *;
  change (@fs_copyFile MemEnv) with Mem.copyFile in *;
  change (@fs_state MemEnv) with (gmap (list string) FsNode) in *.

Lemma world_eta (w : @World MemEnv) : {| disk := disk w; this := this w |} = w.
Proof. destruct w; reflexivity. Qed.

Lemma copyOne_keeps_directories sourceDir targetDir file (w : @World MemEnv) r w' l :
  copyOne sourceDir targetDir file w = (r, w') ->
  fs_lookup (disk w) l = Some Directory ->
  fs_lookup (disk w') l = Some Directory.
Proof.
  unfold copyOne, bind, stat, copyFile, reading, writing, ret.
  mem_ops.
  destruct (Mem.stat (disk w) (Mem.join [sourceDir; file])) as [e|st].
  { intros [= <- <-]. tauto. }
  destruct (isFile st).
  - intros [= <- <-]. simpl. apply copyFile_keeps_directories.
  - intros [= <- <-]. tauto.
Qed.

Lemma Attempts_keep_directories sourceDir targetDir (w : @World MemEnv)
    files outcomes w' l :
  Attempts sourceDir targetDir w files outcomes w' ->
  fs_lookup (disk w) l = Some Directory ->
  fs_lookup (disk w') l = Some Directory.
Proof.
  induction 1 as [w|w file rest r w1 outcomes w2 Hone Hrest IH]; [tauto|].
  intros Hl. apply IH. eapply copyOne_keeps_directories; eassumption.
Qed.

(** An attempt that finds a directory, or a file whose writable copy is
    already in place, changes nothing. *)
Lemma copyOne_again sourceDir targetDir file (w : @World MemEnv) :
  entry_name file = true ->
  (entry w sourceDir file = Some Directory \/
   exists bytes,
     entry w sourceDir file = Some (RegularFile bytes true) /\
     entry w targetDir file = Some (RegularFile bytes true)) ->
  copyOne sourceDir targetDir file w = (inr tt, w).
Proof.
  intros Hname Hcase.
  pose proof (locate_entry (Env := MemEnv) sourceDir file Hname) as Hs.
  pose proof (locate_entry (Env := MemEnv) targetDir file Hname) as Ht.
  unfold copyOne, bind, stat, copyFile, reading, writing, ret, entry in *.
  mem_ops. unfold Mem.stat. rewrite node_join, Hs.
  destruct Hcase as [Hdir|(bytes & Hsrc & Htgt)].
  - rewrite Hdir. reflexivity.
  - rewrite Hsrc. simpl. unfold Mem.copyFile.
    rewrite !node_join, Hs, Ht, Hsrc, Htgt. simpl.
    rewrite insert_id; [apply f_equal, world_eta|].
    apply lookup_raw; [|exact Htgt]. destruct (Mem.locate targetDir); discriminate.
Qed.

Lemma Attempts_again sourceDir targetDir (w : @World MemEnv) files :
  (forall f, In f files -> copyOne sourceDir targetDir f w = (inr tt, w)) ->
  exists outcomes,
    Attempts sourceDir targetDir w files outcomes w /\ errors_of outcomes = [].
Proof.
  induction files as [|f files IH]; intros H.
  - exists []. split; [constructor|reflexivity].
  - destruct IH as (outcomes & Hatt & Herr); [intros g Hg; apply H; right; exact Hg|].
    exists ((f, inr tt) :: outcomes). split.
    + econstructor; [apply H; left; reflexivity|exact Hatt].
    + exact Herr.
Qed.

(** A successful synchronization whose matching source files are all
    writable can be run again: it succeeds and changes nothing. *)
Lemma sync_repeat sourceDir targetDir (w : @World MemEnv) r w' :
  SyncRun sourceDir targetDir w r w' ->
  success r = true ->
  (forall f bytes mode,
     startsWith f "g-" = true ->
     entry w sourceDir f = Some (RegularFile bytes mode) -> mode = true) ->
  copyGlobalRulesFiles sourceDir targetDir w' = (inr r, w').
Proof.
  intros Hrun Hok Hwr.
  destruct Hrun as [e Ha|u e Ha Hm|u u' e Ha Hm Hr
                   |u u' files outcomes w' Ha Hm Hr Hatt]; try discriminate.
  apply response_of_success in Hok. rewrite Hok.
  pose proof (readdir_names _ _ _ Hr) as Hnames.
  apply (forallb_filter _ (fun file => startsWith file "g-")) in Hnames.
  destruct (Attempts_effect _ _ _ _ _ _ Hatt Hnames) as (_ & Hsrc & _ & Hcopy).
  specialize (Hcopy Hok).
  set (w1 := after_mkdir targetDir w) in *.
  assert (Hsd : sourceDir <> "" /\
                fs_lookup (disk w1) (path_locate sourceDir) = Some Directory).
  { clear -Hr. mem_ops. unfold Mem.readdir, Mem.node in Hr.
    destruct (String.eqb sourceDir "") eqn:E; [discriminate|].
    apply String.eqb_neq in E. split; [exact E|].
    destruct (Mem.lookup (disk w1) (Mem.locate sourceDir)) as [[|]|]; try discriminate.
    reflexivity. }
  destruct Hsd as [Hsne Hsd].
  assert (Htne : targetDir <> "").
  { clear -Hm. mem_ops. unfold Mem.mkdir in Hm. intros ->. discriminate. }
  assert (Hdirs : forall l, fs_lookup (disk w1) l = Some Directory ->
                            fs_lookup (disk w') l = Some Directory).
  { intros l. eapply Attempts_keep_directories. exact Hatt. }
  assert (Ha' : fs_access (disk w') sourceDir = inr tt).
  { specialize (Hdirs _ Hsd). clear -Hdirs Hsne. mem_ops. unfold Mem.access, Mem.node.
    apply String.eqb_neq in Hsne. rewrite Hsne, Hdirs. reflexivity. }
  assert (Hm' : fs_mkdir (disk w') targetDir = (inr tt, disk w')).
  { mem_ops. apply mkdir_present; [exact Htne|].
    intros l rest Hl. apply Hdirs. unfold w1, after_mkdir. simpl.
    destruct u'. apply (MemLaws.mem_mkdir_ok _ _ _ rest Hm Hl). }
  assert (Hw1 : after_mkdir targetDir w' = w').
  { unfold after_mkdir. rewrite Hm'. apply world_eta. }
  assert (Hr' : fs_readdir (disk w') sourceDir
                = inr (Mem.children (disk w') (Mem.locate sourceDir))).
  { specialize (Hdirs _ Hsd). clear -Hdirs Hsne. mem_ops. unfold Mem.readdir, Mem.node.
    apply String.eqb_neq in Hsne. rewrite Hsne, Hdirs. reflexivity. }
  destruct (Attempts_again sourceDir targetDir w'
              (List.filter (fun file => startsWith file "g-")
                 (Mem.children (disk w') (Mem.locate sourceDir))))
    as (outcomes' & Hatt' & Herr').
  { intros f Hf. apply List.filter_In in Hf as [Hin Hg].
    apply children_sound in Hin as [Hname [n Hn]]; [|apply MemLaws.locate_entry_names].
    apply copyOne_again; [exact Hname|].
    destruct n as [bytes mode|]; [right|left; exact Hn].
    exists bytes.
    assert (H1 : entry w1 sourceDir f = Some (RegularFile bytes mode)).
    { rewrite <- Hsrc. exact Hn. }
    assert (H0 : entry w sourceDir f = Some (RegularFile bytes mode)).
    { clear -H1. unfold entry, w1 in *.
      destruct (mkdir_regular targetDir w (path_locate sourceDir ++ [f])) as [Hreg Hsame].
      rewrite H1 in Hreg, Hsame. simpl in Hreg.
      symmetry. apply Hsame. symmetry. exact Hreg. }
    assert (mode = true) as -> by (eapply Hwr; eassumption).
    split; [exact Hn|].
    rewrite Hcopy; [exact H1| |rewrite H1; reflexivity].
    apply List.filter_In. split; [|exact Hg].
    eapply readdir_complete; [exact Hr|].
    unfold entry in H1. rewrite H1. discriminate. }
  rewrite <- Herr'.
  apply (sync_loop sourceDir targetDir w' tt tt
           (Mem.children (disk w') (Mem.locate sourceDir)) outcomes' w' Ha').
  - rewrite Hm'. reflexivity.
  - rewrite Hw1. exact Hr'.
  - rewrite Hw1. exact Hatt'.
Qed.

(** C8, as amended.  When an operation has succeeded and every matching
    regular file of its source directory is writable, running the same
    operation again on the world it left succeeds again and leaves that
    world, and so every file, as it is. *)
Theorem repeat_succeeds_when_writable d path (w : @World MemEnv) r w' :
  operation d path w = (inr r, w') ->
  success r = true ->
  (forall cfg f bytes mode,
     loadConfig w = (inr (ConfigOk cfg), w) ->
     startsWith f "g-" = true ->
     entry w (fst (roles d (config_dir cfg) path)) f = Some (RegularFile bytes mode) ->
     mode = true) ->
  operation d path w' = (inr r, w') /\
  handler d path w' = (inr (text_result (JSON_stringify r)), w').
Proof.
  intros Hop Hok Hwr.
  assert (Hop' : operation d path w' = (inr r, w')).
  { destruct (loadConfig_returns w) as [[cfg|e] Hcfg].
    2:{ rewrite (operation_config_failed d path w e Hcfg) in Hop.
        injection Hop as <- <-. discriminate. }
    rewrite (operation_config_ok d path w cfg Hcfg) in Hop.
    set (sourceDir := fst (roles d (config_dir cfg) path)) in *.
    set (targetDir := snd (roles d (config_dir cfg) path)) in *.
    destruct (sync_run sourceDir targetDir w) as (r0 & w0 & Heq & Hrun).
    rewrite Heq in Hop. injection Hop as <- <-.
    destruct (loadConfig_ok _ _ _ Hcfg) as (content & u & Hread & Hparse & Hdir & Htrim & Hacc).
    pose proof (sync_changes _ _ _ _ _ Hrun) as Hchg.
    assert (Hcfg' : loadConfig w0 = (inr (ConfigOk cfg), w0)).
    { assert (Hstore : fs_lookup (disk w0) (path_locate configPath)
                       = fs_lookup (disk w) (path_locate configPath)).
      { destruct (Hchg (path_locate configPath))
          as [Hsame|[(Hnone & _)|(f & Hg & _ & Heq')]]; [exact Hsame| |].
        - exfalso. clear -Hread Hnone. mem_ops. unfold Mem.readFile, Mem.node in Hread.
          change (@configPath MemEnv) with Mem.configPath in *.
          simpl in Hread. rewrite Hnone in Hread. discriminate.
        - exfalso. change (path_locate (@configPath MemEnv))
            with (["opt"; "global-mdc"] ++ ["config.json"]) in Heq'.
          apply app_inj_tail in Heq' as [_ <-]. discriminate. }
      assert (Hdir' : fs_lookup (disk w0) (path_locate (config_dir cfg)) <> None).
      { assert (Hw : fs_lookup (disk w) (path_locate (config_dir cfg)) <> None).
        { clear -Hacc. mem_ops. unfold Mem.access, Mem.node in Hacc.
          destruct (String.eqb (config_dir cfg) ""); [discriminate|].
          destruct (Mem.lookup (disk w) (Mem.locate (config_dir cfg))); [discriminate|discriminate]. }
        destruct (Hchg (path_locate (config_dir cfg)))
          as [Hsame|[(Hnone & _)|(f & Hg & Hreg & Heq')]].
        - rewrite Hsame. exact Hw.
        - contradiction.
        - rewrite Heq'.
          pose proof (sync_copied _ _ _ _ _ Hrun Hok f Hg Hreg) as Hc.
          unfold entry in Hc. rewrite Hc.
          unfold entry in Hreg.
          destruct (fs_lookup (disk w) (path_locate sourceDir ++ [f]));
            [discriminate|discriminate Hreg]. }
      assert (Hne : config_dir cfg <> "") by (intros E; rewrite E in Htrim; apply Htrim; reflexivity).
      eapply (loadConfig_good w0 content cfg (config_dir cfg) tt tt).
      - clear -Hread Hstore. mem_ops. unfold Mem.access, Mem.readFile, Mem.node in *.
        change (@configPath MemEnv) with Mem.configPath in *.
        simpl in *. rewrite Hstore.
        destruct (Mem.lookup (disk w) (Mem.locate Mem.configPath)); [reflexivity|discriminate].
      - clear -Hread Hstore. mem_ops. unfold Mem.readFile, Mem.node in *.
        change (@configPath MemEnv) with Mem.configPath in *.
        simpl in *. rewrite Hstore. exact Hread.
      - exact Hparse.
      - exact Hdir.
      - exact Htrim.
      - clear -Hdir' Hne. mem_ops. unfold Mem.access, Mem.node.
        apply String.eqb_neq in Hne. rewrite Hne.
        destruct (Mem.lookup (disk w0) (Mem.locate (config_dir cfg))); [reflexivity|congruence]. }
    rewrite (operation_config_ok d path w0 cfg Hcfg').
    apply (sync_repeat sourceDir targetDir w r0 w0 Hrun Hok).
    intros f bytes mode Hg Hf. apply (Hwr cfg f bytes mode Hcfg Hg Hf). }
  split; [exact Hop'|].
  rewrite handler_envelope, Hop'. reflexivity.
Qed.

End MemRepeat.

(** * The claims on concrete runs *)

Module Runs.

Import Scenario.

(** Every regular file of [rules] is writable. *)
Lemma rules_all_writable :
  map_Forall (fun (_ : list string) n => writable_node n = true)
    (disk rules : gmap (list string) FsNode).
Proof.
  apply map_Forall_to_list.
  set (entries := map_to_list _). vm_compute in entries. subst entries.
  repeat constructor.
Qed.

Lemma run_result {A} (run : (JsThrown + A) * @World MemEnv) r :
  fst run = r -> run = (r, snd run).
Proof. intros <-. apply surjective_pairing. Qed.

Lemma config_result (w : @World MemEnv) r :
  fst (loadConfig w) = inr r -> loadConfig w = (inr r, w).
Proof.
  destruct (loadConfig_returns w) as [r' H]. rewrite H. simpl.
  intros [= ->]. reflexivity.
Qed.

(** C1 on a run in which the first attempt fails and the second is
    still made. *)
Lemma failures_collected_per_file_witness :
  fs_access (disk blocked_file) "/global" = inr tt /\
  fst (fs_mkdir (disk blocked_file) rulesDir) = inr tt /\
  fs_readdir (disk (after_mkdir rulesDir blocked_file)) "/global"
  = inr ["other.mdc"; "g-b.mdc"; "g-a.mdc"] /\
  exists outcomes w',
    Attempts "/global" rulesDir (after_mkdir rulesDir blocked_file)
      (List.filter (fun file => startsWith file "g-")
         ["other.mdc"; "g-b.mdc"; "g-a.mdc"]) outcomes w' /\
    map fst outcomes
    = List.filter (fun file => startsWith file "g-") ["other.mdc"; "g-b.mdc"; "g-a.mdc"] /\
    errors_of outcomes
    = flat_map (fun outcome =>
                  match snd outcome with
                  | inl error =>
                      [ {| type := OPERATION_ERROR;
                           message := "Failed to copy " ++ fst outcome ++ ": "
                                      ++ error_message_or "Unknown error" error |} ]
                  | inr _ => []
                  end) outcomes /\
    copyGlobalRulesFiles "/global" rulesDir blocked_file
    = (inr (match errors_of outcomes with
            | [] => {| success := true; errors := None |}
            | _ :: _ => {| success := false; errors := Some (errors_of outcomes) |}
            end), w').
Proof.
  assert (Ha : fs_access (disk blocked_file) "/global" = inr tt)
    by (vm_compute; reflexivity).
  assert (Hm : fst (fs_mkdir (disk blocked_file) rulesDir) = inr tt)
    by (vm_compute; reflexivity).
  assert (Hr : fs_readdir (disk (after_mkdir rulesDir blocked_file)) "/global"
               = inr ["other.mdc"; "g-b.mdc"; "g-a.mdc"])
    by (vm_compute; reflexivity).
  repeat split; try assumption.
  exact (failures_collected_per_file "/global" rulesDir blocked_file _ Ha Hm Hr).
Defined.

(** What that run returns, and that the second rule file was copied. *)
Example partial_failure_run :
  fst (copyGlobalRulesFiles "/global" rulesDir blocked_file)
  = inr (FailedResponse
           [ {| type := OPERATION_ERROR;
                message := "Failed to copy g-b.mdc: EISDIR: illegal operation on a directory, copyfile '/global/g-b.mdc' -> '/proj/.cursor/rules/g-b.mdc'" |} ]) /\
  entry (snd (copyGlobalRulesFiles "/global" rulesDir blocked_file)) rulesDir "g-a.mdc"
  = Some (RegularFile "# A" true).
Proof. split; vm_compute; reflexivity. Qed.


(** C3 on a configuration whose directory is blank. *)
Lemma bad_config_single_error_witness :
  BadConfigStore blank_config /\
  exists e,
    type e = CONFIG_PARSING_ERROR /\
    operation Save "/proj" blank_config
    = (inr {| success := false; errors := Some [e] |}, blank_config) /\
    handler Save "/proj" blank_config
    = (inr (text_result (JSON_stringify {| success := false; errors := Some [e] |})),
       blank_config).
Proof.
  assert (Hbad : BadConfigStore blank_config).
  { apply (store_field_blank blank_config (config_text "  ")
             (JsObject [("globalRulesSourceDir", JsString "  ")]) "  ");
      vm_compute; reflexivity. }
  split; [exact Hbad|].
  exact (bad_config_single_error Save "/proj" blank_config Hbad).
Defined.

(** C4 on a source directory that is not there. *)
Lemma missing_source_single_error_witness :
  fs_lookup (disk rules) (path_locate "/nowhere") = None /\
  copyGlobalRulesFiles "/nowhere" rulesDir rules
  = (inr {| success := false;
            errors := Some [ {| type := OPERATION_ERROR;
                                message := "Source directory does not exist: "
                                           ++ "/nowhere" |} ] |}, rules).
Proof.
  assert (Hmiss : fs_lookup (disk rules) (path_locate "/nowhere") = None)
    by (vm_compute; reflexivity).
  split; [exact Hmiss|].
  exact (missing_source_single_error "/nowhere" rulesDir rules Hmiss).
Defined.

(** C6 as the claim states it fails: the source directory exists and
    lists no rule file, but [.cursor] in the project is a regular file,
    so the target directory cannot be made; the result is a failure and
    the target directory is not there. *)
Lemma no_matching_files_mkdir_blocked :
  fs_access (disk blocked_target) "/global" = inr tt /\
  fs_readdir (disk blocked_target) "/global" = inr ["other.mdc"] /\
  fst (copyGlobalRulesFiles "/global" rulesDir blocked_target)
  = inr {| success := false;
           errors := Some [ {| type := OPERATION_ERROR;
                               message := "ENOTDIR: not a directory, mkdir '/proj/.cursor/rules'" |} ] |} /\
  fst (loadGlobalRules {| path := "/proj" |} blocked_target)
  = fst (copyGlobalRulesFiles "/global" rulesDir blocked_target) /\
  fs_lookup (disk (snd (copyGlobalRulesFiles "/global" rulesDir blocked_target)))
    (path_locate rulesDir) = None.
Proof. repeat split; vm_compute; reflexivity. Qed.

(** C6 as amended, on a project in which the directory can be made. *)
Lemma no_matching_files_succeeds_witness :
  fs_access (disk no_rules) "/global" = inr tt /\
  fst (fs_mkdir (disk no_rules) rulesDir) = inr tt /\
  fs_readdir (disk (after_mkdir rulesDir no_rules)) "/global" = inr ["other.mdc"] /\
  (forall f, In f ["other.mdc"] -> startsWith f "g-" = false) /\
  copyGlobalRulesFiles "/global" rulesDir no_rules
  = (inr {| success := true; errors := None |}, after_mkdir rulesDir no_rules) /\
  fs_lookup (disk (after_mkdir rulesDir no_rules)) (path_locate rulesDir)
  = Some Directory.
Proof.
  assert (Ha : fs_access (disk no_rules) "/global" = inr tt)
    by (vm_compute; reflexivity).
  assert (Hm : fst (fs_mkdir (disk no_rules) rulesDir) = inr tt)
    by (vm_compute; reflexivity).
  assert (Hr : fs_readdir (disk (after_mkdir rulesDir no_rules)) "/global"
               = inr ["other.mdc"])
    by (vm_compute; reflexivity).
  assert (Hnone : forall f, In f ["other.mdc"] -> startsWith f "g-" = false).
  { intros f [<-|[]]. reflexivity. }
  destruct (no_matching_files_succeeds "/global" rulesDir no_rules _ Ha Hm Hr Hnone)
    as (Hres & Hdir & _).
  repeat split; assumption.
Defined.

(** C7 on the run with a failed attempt. *)
Lemma sync_frame_witness :
  entry (snd (copyGlobalRulesFiles "/global" rulesDir blocked_file)) "/global" "g-b.mdc"
  = Some (RegularFile "# B" true) /\
  entry (snd (copyGlobalRulesFiles "/global" rulesDir blocked_file)) "/global" "other.mdc"
  = Some (RegularFile "# other" true).
Proof.
  destruct (sync_frame "/global" rulesDir blocked_file
              (fst (copyGlobalRulesFiles "/global" rulesDir blocked_file))
              (snd (copyGlobalRulesFiles "/global" rulesDir blocked_file)))
    as (Hsource & _ & _); [apply surjective_pairing|].
  split; apply Hsource; vm_compute; reflexivity.
Defined.

(** C8 as the claim states it fails: the rule file is read-only, the
    first [loadGlobalRules] copies it with its mode, and the second
    cannot overwrite the copy. *)
Lemma repeat_fails_on_read_only_file :
  fst (operation Load "/proj" read_only_rule)
  = inr {| success := true; errors := None |} /\
  fst (operation Load "/proj" (snd (operation Load "/proj" read_only_rule)))
  = inr {| success := false;
           errors := Some [ {| type := OPERATION_ERROR;
                               message := "Failed to copy g-a.mdc: EACCES: permission denied, copyfile '/global/g-a.mdc' -> '/proj/.cursor/rules/g-a.mdc'" |} ] |}.
Proof. split; vm_compute; reflexivity. Qed.

(** C8 as amended, on rule files that are writable. *)
Lemma repeat_succeeds_when_writable_witness :
  operation Load "/proj" rules
  = (inr SuccessResponse, snd (operation Load "/proj" rules)) /\
  operation Load "/proj" (snd (operation Load "/proj" rules))
  = (inr SuccessResponse, snd (operation Load "/proj" rules)).
Proof.
  assert (Hfirst : operation Load "/proj" rules
                   = (inr SuccessResponse, snd (operation Load "/proj" rules)))
    by (apply run_result; vm_compute; reflexivity).
  split; [exact Hfirst|].
  refine (proj1 (MemRepeat.repeat_succeeds_when_writable Load "/proj" rules
                   SuccessResponse _ Hfirst eq_refl _)).
  intros cfg f bytes mode _ _ Hentry.
  unfold entry in Hentry.
  apply MemRepeat.lookup_raw in Hentry.
  - apply (rules_all_writable _ _ Hentry).
  - destruct (path_locate (fst (roles Load (config_dir cfg) "/proj"))); discriminate.
Defined.

(** C9 on a global directory whose only match is a directory. *)
Lemma non_regular_entry_skipped_witness :
  fs_stat (disk (after_mkdir rulesDir rule_directory)) (path_join ["/global"; "g-drafts"])
  = inr {| isFile := false |} /\
  copyOne "/global" rulesDir "g-drafts" (after_mkdir rulesDir rule_directory)
  = (inr tt, after_mkdir rulesDir rule_directory) /\
  copyGlobalRulesFiles "/global" rulesDir rule_directory
  = (inr {| success := true; errors := None |}, after_mkdir rulesDir rule_directory).
Proof.
  assert (Hst : fs_stat (disk (after_mkdir rulesDir rule_directory))
                  (path_join ["/global"; "g-drafts"]) = inr {| isFile := false |})
    by (vm_compute; reflexivity).
  destruct (non_regular_entry_skipped "/global" rulesDir "g-drafts"
              (after_mkdir rulesDir rule_directory) _ Hst eq_refl)
    as (Hone & _ & Hsync).
  split; [exact Hst|]. split; [exact Hone|].
  apply (Hsync rule_directory ["g-drafts"]);
    [reflexivity|vm_compute; reflexivity ..].
Defined.

(** C10 as the claim states it fails: after a first call has loaded the
    configuration the server object still holds the empty configuration,
    and a second call on the same object, made after [config.json] has
    been rewritten, reports the new content: it has read the store again. *)
Lemma config_reread_each_call :
  fst (operation Load "/proj" rules) = inr {| success := true; errors := None |} /\
  this (snd (handler Load "/proj" rules))
  = {| config := {| globalRulesSourceDir := None |} |} /\
  fst (operation Load "/proj" (snd (operation Load "/proj" rules)))
  = inr {| success := true; errors := None |} /\
  fst (operation Load "/proj"
         (edit_config (config_text "  ") (snd (operation Load "/proj" rules))))
  = inr {| success := false;
           errors := Some [ {| type := CONFIG_PARSING_ERROR;
                               message := "globalRulesSourceDir is not set or empty in config.json" |} ] |}.
Proof. repeat split; vm_compute; reflexivity. Qed.

(** ** The cases of the repository's test suite *)

(** [loadGlobalRules] copies the rule files and nothing else. *)
Example load_copies_rule_files :
  fst (operation Load "/proj" rules) = inr {| success := true; errors := None |} /\
  fs_readdir (disk (snd (operation Load "/proj" rules))) rulesDir
  = inr ["g-b.mdc"; "g-a.mdc"] /\
  fs_readFile (disk (snd (operation Load "/proj" rules))) "/proj/.cursor/rules/g-a.mdc"
  = inr "# A" /\
  fs_readFile (disk (snd (operation Load "/proj" rules))) "/proj/.cursor/rules/g-b.mdc"
  = inr "# B".
Proof. repeat split; vm_compute; reflexivity. Qed.

(** A configuration that names a missing directory is a configuration
    error. *)
Example load_missing_global_directory :
  fst (operation Load "/proj" missing_global)
  = inr {| success := false;
           errors := Some [ {| type := CONFIG_PARSING_ERROR;
                               message := "Global rules directory does not exist: /nowhere" |} ] |}.
Proof. vm_compute. reflexivity. Qed.

(** [saveGlobalRules] copies the project's rule files to the global
    directory and leaves the local file out. *)
Example save_copies_rule_files :
  fst (operation Save "/proj" project_rules) = inr {| success := true; errors := None |} /\
  fs_readdir (disk (snd (operation Save "/proj" project_rules))) "/global"
  = inr ["g-x.mdc"] /\
  fs_readFile (disk (snd (operation Save "/proj" project_rules))) "/global/g-x.mdc"
  = inr "# X".
Proof. repeat split; vm_compute; reflexivity. Qed.

(** [saveGlobalRules] from a project without a rules directory is an
    operation error. *)
Example save_missing_project_rules :
  fst (operation Save "/proj" rules)
  = inr {| success := false;
           errors := Some [ {| type := OPERATION_ERROR;
                               message := "Source directory does not exist: /proj/.cursor/rules" |} ] |}.
Proof. vm_compute. reflexivity. Qed.

End Runs.

(** * The rest of the server and of its test suite *)

(** ** The tool list *)

(** What the [ListToolsRequestSchema] handler returns. *)
Module Tools.

Record Property : Type := { property_type : string; property_description : string }.

Record InputSchema : Type := {
  schema_type : string;
  properties : list (string * Property);
  required : list string;
  additionalProperties : bool
}.

Record Tool : Type := {
  name : string;
  description : string;
  inputSchema : InputSchema
}.

Definition path_schema (about : string) : InputSchema :=
  {| schema_type := "object";
     properties := [ ("path", {| property_type := "string";
                                 property_description := about |}) ];
     required := ["path"];
     additionalProperties := false |}.

Definition tools : list Tool :=
  [ {| name := "loadGlobalRules";
       description := "Load global rules (" ++ Json.dquote ++ "g-*.mdc" ++ Json.dquote
                      ++ ") to target project";
       inputSchema :=
         path_schema "Absolute path to target project directory that contains .cursor/rules" |};
    {| name := "saveGlobalRules";
       description := "Save global rules (" ++ Json.dquote ++ "g-*.mdc" ++ Json.dquote
                      ++ ") from target project to global storage";
       inputSchema :=
         path_schema "Absolute path to source project directory that contains .cursor/rules" |} ].

End Tools.

Section TestDouble.

Context `{Env : NodeEnv}.

(** The [loadConfig] that the test suite's [mockConfig] installs on the
    server: it reads [testConfigPath] and has no separate check that the
    file exists. *)
Definition mockLoadConfig (testConfigPath : string) : Js ConfigResult :=
  try_catch
    (bind (readFile testConfigPath) (fun configContent =>
     bind (lift (JSON_parse configContent)) (fun parsedConfig =>
     bind (lift (get_property parsedConfig "globalRulesSourceDir")) (fun dir =>
     bind (if negb (truthy dir) then ret true
           else bind (lift (call_trim dir)) (fun trimmed =>
                ret (String.eqb trimmed ""))) (fun unset =>
     if (unset : bool) then
       ret (config_error "globalRulesSourceDir is not set or empty in config.json")
     else
       (* Check if the directory exists *)
       bind (try_catch (bind (access_value dir) (fun _ => ret true))
               (fun _ => ret false)) (fun present =>
       if negb present then
         ret (config_error
                ("Global rules directory does not exist: "
                 ++ match dir with JsString s => s | _ => "" end))
       else ret (ConfigOk parsedConfig)))))))
    (fun error =>
       ret (config_error
              ("Failed to parse config.json: "
               ++ error_message_or "Unknown error" error))).

End TestDouble.

(** * Further behaviour of the methods *)

Section Behaviour.

Context `{Env : NodeEnv}.

Ltac unfold_loadConfig :=
  unfold loadConfig, mockLoadConfig, try_catch, bind, access_value, access,
    readFile, reading, lift, throw, ret, config_error.

(** ** [loadConfig] *)

(** X1.  [loadConfig] succeeds exactly when [config.json] is accessible
    and readable, parses, has a string [globalRulesSourceDir] that is not
    blank after trimming, and [fs.access] accepts that string as it is
    written (untrimmed); it then returns the parsed object. *)
Theorem loadConfig_succeeds_iff w cfg :
  loadConfig w = (inr (ConfigOk cfg), w) <->
  exists u content s u',
    fs_access (disk w) configPath = inr u /\
    fs_readFile (disk w) configPath = inr content /\
    JSON_parse content = inr cfg /\
    get_property cfg "globalRulesSourceDir" = inr (JsString s) /\
    js_trim s <> "" /\
    fs_access (disk w) s = inr u'.
Proof.
  split.
  - unfold_loadConfig.
    destruct (fs_access (disk w) configPath) as [|u] eqn:Ha; simpl; [discriminate|].
    destruct (fs_readFile (disk w) configPath) as [|content] eqn:Hr; simpl;
      [discriminate|].
    destruct (JSON_parse content) as [|cfg0] eqn:Hp; simpl; [discriminate|].
    destruct (get_property cfg0 "globalRulesSourceDir") as [|dir] eqn:Hd; simpl;
      [discriminate|].
    destruct (truthy dir); simpl; [|discriminate].
    destruct (call_trim dir) as [|trimmed] eqn:Ht; simpl; [discriminate|].
    destruct (String.eqb trimmed "") eqn:Hb; simpl; [discriminate|].
    destruct dir; simpl in *; try discriminate.
    destruct (fs_access (disk w) s) as [|u'] eqn:Hs; simpl; [discriminate|].
    intros [= <-]. injection Ht as <-. apply String.eqb_neq in Hb.
    exists u, content, s, u'. repeat split; assumption.
  - intros (u & content & s & u' & Ha & Hr & Hp & Hd & Ht & Hs).
    eapply loadConfig_good; eassumption.
Qed.

(** X2.  A [globalRulesSourceDir] that is absent or falsy ([null],
    [false], [0], the empty string) or that is a string of white space
    only is reported as not set. *)
Theorem unset_directory_reported w u content cfg dir :
  fs_access (disk w) configPath = inr u ->
  fs_readFile (disk w) configPath = inr content ->
  JSON_parse content = inr cfg ->
  get_property cfg "globalRulesSourceDir" = inr dir ->
  truthy dir = false \/ (exists s, dir = JsString s /\ js_trim s = "") ->
  loadConfig w
  = (inr (ConfigFailed
            {| type := CONFIG_PARSING_ERROR;
               message := "globalRulesSourceDir is not set or empty in config.json" |}),
     w).
Proof.
  intros Ha Hr Hp Hd Hcase. unfold_loadConfig.
  rewrite Ha. simpl. rewrite Hr. simpl. rewrite Hp. simpl. rewrite Hd. simpl.
  destruct Hcase as [Hf|(s & -> & Hblank)].
  - rewrite Hf. reflexivity.
  - simpl. destruct (negb (String.eqb s "")); simpl; [|reflexivity].
    rewrite Hblank. reflexivity.
Qed.

(** A number written without a negative exponent is falsy only when it
    is written as zero. *)
Lemma integer_truthy m e :
  (0 <= e)%Z -> truthy (JsNumber m e) = negb (m =? 0)%Z.
Proof.
  intros He. unfold truthy, rounds_to_zero. f_equal.
  assert (Hk : (1 < 2 ^ 1075)%Z) by (apply Z.pow_gt_1; lia).
  set (k := (2 ^ 1075)%Z) in *. clearbody k.
  assert (Hp : (0 <= 10 ^ (- e) <= 1)%Z).
  { destruct (Z.eq_dec e 0%Z) as [->|Hne]; [simpl; lia|].
    rewrite Z.pow_neg_r; lia. }
  destruct (Z.eqb_spec m 0%Z) as [->|Hm].
  - apply Z.leb_le. simpl. lia.
  - apply Z.leb_gt. nia.
Qed.

(** X3.  A [globalRulesSourceDir] that is truthy but not a string (a
    number that is not zero as a double, [true], an array, an object)
    makes [.trim()] throw; the outer [catch] reports it as a failure to
    parse [config.json], with the message of the [TypeError]. *)
Theorem non_string_directory_reported w u content cfg dir :
  fs_access (disk w) configPath = inr u ->
  fs_readFile (disk w) configPath = inr content ->
  JSON_parse content = inr cfg ->
  get_property cfg "globalRulesSourceDir" = inr dir ->
  truthy dir = true ->
  (forall s, dir <> JsString s) ->
  exists reason,
    call_trim dir = inl (ThrownError reason) /\
    loadConfig w
    = (inr (ConfigFailed
              {| type := CONFIG_PARSING_ERROR;
                 message := "Failed to parse config.json: " ++ reason |}), w).
Proof.
  intros Ha Hr Hp Hd Ht Hns. unfold_loadConfig.
  rewrite Ha. simpl. rewrite Hr. simpl. rewrite Hp. simpl. rewrite Hd. simpl.
  rewrite Ht. simpl.
  destruct dir; simpl in *; try discriminate;
    try (eexists; split; reflexivity).
  exfalso. eapply Hns. reflexivity.
Qed.

(** X4.  When [fs.access] rejects the configured directory, the error
    names the directory as it is written in [config.json]: the value is
    trimmed for the blank test only, never for use. *)
Theorem inaccessible_directory_reported w u content cfg s e :
  fs_access (disk w) configPath = inr u ->
  fs_readFile (disk w) configPath = inr content ->
  JSON_parse content = inr cfg ->
  get_property cfg "globalRulesSourceDir" = inr (JsString s) ->
  js_trim s <> "" ->
  fs_access (disk w) s = inl e ->
  loadConfig w
  = (inr (ConfigFailed
            {| type := CONFIG_PARSING_ERROR;
               message := "Global rules directory does not exist: " ++ s |}), w).
Proof.
  intros Ha Hr Hp Hd Ht Hs. unfold_loadConfig.
  rewrite Ha. simpl. rewrite Hr. simpl. rewrite Hp. simpl. rewrite Hd. simpl.
  assert (Hne : s <> "") by (intros ->; apply Ht; reflexivity).
  apply String.eqb_neq in Hne. rewrite Hne. simpl.
  apply String.eqb_neq in Ht. rewrite Ht. simpl. rewrite Hs. reflexivity.
Qed.

(** X5.  When [fs.access] rejects [config.json] the result is the
    not-found error: the reason [fs.access] gave is dropped and the file
    is not read. *)
Theorem inaccessible_store_reported w e :
  fs_access (disk w) configPath = inl e ->
  loadConfig w
  = (inr (ConfigFailed
            {| type := CONFIG_PARSING_ERROR;
               message := "Configuration file " ++ configPath ++ " not found" |}), w).
Proof.
  intros Ha. unfold_loadConfig. rewrite Ha. reflexivity.
Qed.

(** X6.  Anything thrown while reading the file, parsing it, or reading
    the property of the parsed value (a [config.json] that holds [null])
    is reported as a failure to parse, with the message of the error, or
    [Unknown error] when what was thrown is not an [Error]. *)
Theorem thrown_while_loading_reported w u e :
  fs_access (disk w) configPath = inr u ->
  fs_readFile (disk w) configPath = inl e \/
  (exists content,
     fs_readFile (disk w) configPath = inr content /\
     (JSON_parse content = inl e \/
      exists cfg, JSON_parse content = inr cfg /\
                  get_property cfg "globalRulesSourceDir" = inl e)) ->
  loadConfig w
  = (inr (ConfigFailed
            {| type := CONFIG_PARSING_ERROR;
               message := "Failed to parse config.json: "
                          ++ error_message_or "Unknown error" e |}), w).
Proof.
  intros Ha Hcase. unfold_loadConfig. rewrite Ha. simpl.
  destruct Hcase as [Hr|(content & Hr & [Hp|(cfg & Hp & Hd)])].
  - rewrite Hr. reflexivity.
  - rewrite Hr. simpl. rewrite Hp. reflexivity.
  - rewrite Hr. simpl. rewrite Hp. simpl. rewrite Hd. reflexivity.
Qed.


(** ** [copyGlobalRulesFiles] *)

Definition failed (outcome : string * (JsThrown + unit)) : bool :=
  match snd outcome with
  | inl _ => true
  | inr _ => false
  end.

Lemma errors_of_length outcomes :
  List.length (errors_of outcomes) = List.length (List.filter failed outcomes).
Proof.
  induction outcomes as [|[f [e|u]] outcomes IH]; simpl; [reflexivity| |exact IH].
  unfold errors_of in *. simpl. rewrite IH. reflexivity.
Qed.

Lemma errors_of_types outcomes e :
  In e (errors_of outcomes) -> type e = OPERATION_ERROR.
Proof.
  unfold errors_of. intros H. apply in_flat_map in H as ([f r] & _ & H).
  unfold error_of in H. simpl in H. destruct r; [|contradiction].
  destruct H as [<-|[]]. reflexivity.
Qed.

(** A matching regular file whose every attempt returned is in the
    target directory afterwards, whatever happened to the other files. *)
Lemma Attempts_kept_copies sourceDir targetDir w files outcomes w' :
  Attempts sourceDir targetDir w files outcomes w' ->
  forallb entry_name files = true ->
  forall f, In f files ->
            is_regular (entry w sourceDir f) = true ->
            (forall e, ~ In (f, inl e) outcomes) ->
            entry w' targetDir f = entry w sourceDir f.
Proof.
  induction 1 as [w|w file rest r w1 outcomes w2 Hone Hrest IH]; intros Hnames.
  - intros f [].
  - simpl in Hnames. apply andb_true_iff in Hnames as [Hname Hnames].
    pose proof (copyOne_source _ _ _ _ _ _ Hname Hone) as Hsrc1.
    destruct (copyOne_effect _ _ _ _ _ _ Hname Hone) as (_ & _ & _ & _ & Hcopy).
    destruct (Attempts_effect _ _ _ _ _ _ Hrest Hnames) as (_ & _ & Hchg & _).
    intros f Hin Hreg Hgood.
    destruct (in_dec string_dec f rest) as [Hrest'|Hnot].
    + rewrite (IH Hnames f Hrest').
      * apply Hsrc1.
      * rewrite Hsrc1. exact Hreg.
      * intros e He. apply (Hgood e). right. exact He.
    + destruct Hin as [->|Hin]; [|contradiction].
      unfold entry at 1.
      destruct (Hchg (path_locate targetDir ++ [f])) as [Hsame|(f' & Hin' & Heq & _)].
      * rewrite Hsame. apply Hcopy; [exact Hreg|].
        destruct r as [e|u]; [|eauto].
        exfalso. apply (Hgood e). left. reflexivity.
      * apply app_inj_tail in Heq as [_ ->]. contradiction.
Qed.

(** X7.  A run that reaches the loop pushes one error for each attempt
    that threw, so at most one for each matching name; and every
    matching regular file none of whose attempts threw is in the target
    directory afterwards with the bytes and mode it had in the source,
    also when the run as a whole fails. *)
Theorem partial_failure_keeps_copies sourceDir targetDir w files :
  fs_access (disk w) sourceDir = inr tt ->
  fst (fs_mkdir (disk w) targetDir) = inr tt ->
  fs_readdir (disk (after_mkdir targetDir w)) sourceDir = inr files ->
  exists outcomes w',
    copyGlobalRulesFiles sourceDir targetDir w
    = (inr (response_of (errors_of outcomes)), w') /\
    map fst outcomes = List.filter (fun file => startsWith file "g-") files /\
    List.length (errors_of outcomes) = List.length (List.filter failed outcomes) /\
    List.length (errors_of outcomes)
    <= List.length (List.filter (fun file => startsWith file "g-") files) /\
    (forall f bytes mode,
       startsWith f "g-" = true ->
       entry w sourceDir f = Some (RegularFile bytes mode) ->
       (forall e, ~ In (f, inl e) outcomes) ->
       entry w' targetDir f = Some (RegularFile bytes mode)).
Proof.
  intros Ha Hm Hr.
  destruct (copyLoop_attempts sourceDir targetDir
              (List.filter (fun file => startsWith file "g-") files) []
              (after_mkdir targetDir w)) as (outcomes & w' & Hatt & _).
  exists outcomes, w'.
  pose proof (Attempts_names _ _ _ _ _ _ Hatt) as Hmap.
  split; [apply (sync_loop _ _ _ _ _ _ _ _ Ha Hm Hr Hatt)|].
  split; [exact Hmap|].
  split; [apply errors_of_length|].
  split.
  - rewrite errors_of_length, <- Hmap, length_map. apply List.filter_length_le.
  - intros f bytes mode Hg Hf Hgood.
    pose proof (readdir_names _ _ _ Hr) as Hnames.
    apply (forallb_filter _ (fun file => startsWith file "g-")) in Hnames.
    pose proof (mkdir_regular targetDir w (path_locate sourceDir ++ [f])) as [Hr1 Hr2].
    unfold entry in *. rewrite Hf in Hr1, Hr2. simpl in Hr1.
    specialize (Hr2 eq_refl).
    rewrite <- Hr2.
    apply (Attempts_kept_copies _ _ _ _ _ _ Hatt Hnames f).
    + apply List.filter_In. split; [|exact Hg].
      eapply readdir_complete; [exact Hr|]. rewrite Hr2. discriminate.
    + unfold entry. exact Hr1.
    + exact Hgood.
Qed.

(** X8.  Synchronizing a directory onto itself (two paths that denote the
    same directory) changes nothing that was there: every location that
    held something holds the same afterwards. *)
Theorem sync_onto_itself_changes_no_entry sourceDir targetDir w r w' :
  path_locate sourceDir = path_locate targetDir ->
  copyGlobalRulesFiles sourceDir targetDir w = (r, w') ->
  forall l, fs_lookup (disk w) l <> None ->
            fs_lookup (disk w') l = fs_lookup (disk w) l.
Proof.
  intros Hsame Hsync l Hl.
  destruct (sync_run sourceDir targetDir w) as (r0 & w0 & Heq & Hrun).
  rewrite Heq in Hsync. injection Hsync as <- <-.
  destruct (sync_changes _ _ _ _ _ Hrun l)
    as [Heq'|[(Hnone & _)|(f & _ & Hreg & ->)]].
  - exact Heq'.
  - contradiction.
  - rewrite <- Hsame. apply (sync_source _ _ _ _ _ Hrun f Hreg).
Qed.

(** Once [access] and [mkdir] have succeeded, the target directory and
    its ancestors are directories at the end of the run, whatever the
    outcome. *)
Lemma run_keeps_target_directory sourceDir targetDir w r w' u u' l rest :
  SyncRun sourceDir targetDir w r w' ->
  fs_access (disk w) sourceDir = inr u ->
  fst (fs_mkdir (disk w) targetDir) = inr u' ->
  path_locate targetDir = l ++ rest ->
  fs_lookup (disk w') l = Some Directory.
Proof.
  intros Hrun Ha Hm Hl.
  assert (Hmade : fs_lookup (disk (after_mkdir targetDir w)) l = Some Directory).
  { unfold after_mkdir. simpl. destruct u'. apply (mkdir_ok _ _ _ rest Hm Hl). }
  destruct Hrun as [e Ha0|u0 e Ha0 Hm0|u0 u1 e Ha0 Hm0 Hr
                   |u0 u1 files outcomes w' Ha0 Hm0 Hr Hatt];
    try congruence.
  pose proof (readdir_names _ _ _ Hr) as Hnames.
  apply (forallb_filter _ (fun file => startsWith file "g-")) in Hnames.
  destruct (Attempts_effect _ _ _ _ _ _ Hatt Hnames) as (_ & _ & Hchg & _).
  destruct (Hchg l) as [Hsame|(f & _ & Heq & _)]; [congruence|].
  exfalso. rewrite Heq in Hl. apply (f_equal (@List.length string)) in Hl.
  rewrite !length_app in Hl. simpl in Hl. lia.
Qed.

(** X9.  Once [access] and the recursive [mkdir] have succeeded, the
    target directory and each of its ancestors is a directory when the
    run ends, with whatever response: the loop replaces none of them. *)
Theorem target_directory_made sourceDir targetDir w r w' u u' :
  fs_access (disk w) sourceDir = inr u ->
  fst (fs_mkdir (disk w) targetDir) = inr u' ->
  copyGlobalRulesFiles sourceDir targetDir w = (r, w') ->
  forall l rest, path_locate targetDir = l ++ rest ->
                 fs_lookup (disk w') l = Some Directory.
Proof.
  intros Ha Hm Hsync l rest Hl.
  destruct (sync_run sourceDir targetDir w) as (r0 & w0 & Heq & Hrun).
  rewrite Heq in Hsync. injection Hsync as <- <-.
  apply (run_keeps_target_directory _ _ _ _ _ _ _ _ _ Hrun Ha Hm Hl).
Qed.

(** What [mkdir] alone does to the disk. *)
Lemma after_mkdir_changes targetDir w l :
  fs_lookup (disk (after_mkdir targetDir w)) l = fs_lookup (disk w) l \/
  (fs_lookup (disk w) l = None /\
   fs_lookup (disk (after_mkdir targetDir w)) l = Some Directory /\
   exists rest, path_locate targetDir = l ++ rest).
Proof. unfold after_mkdir. simpl. apply mkdir_frame. Qed.

(** X10.  When [mkdir] throws, the outer [catch] answers with the single
    [OPERATION_ERROR] carrying the message of what was thrown
    ([Unknown error occurred] when it is not an [Error]); the source is
    not listed and nothing is copied: a location differs afterwards only
    by being a new directory on the way to the target. *)
Theorem mkdir_failure_reported sourceDir targetDir w u e :
  fs_access (disk w) sourceDir = inr u ->
  fst (fs_mkdir (disk w) targetDir) = inl e ->
  exists w',
    copyGlobalRulesFiles sourceDir targetDir w
    = (inr {| success := false;
              errors := Some [ {| type := OPERATION_ERROR;
                                  message := error_message_or
                                               "Unknown error occurred" e |} ] |},
       w') /\
    this w' = this w /\
    (forall l,
       fs_lookup (disk w') l = fs_lookup (disk w) l \/
       (fs_lookup (disk w) l = None /\ fs_lookup (disk w') l = Some Directory /\
        exists rest, path_locate targetDir = l ++ rest)).
Proof.
  intros Ha Hm. exists (after_mkdir targetDir w).
  split; [apply (sync_mkdir_throws _ _ _ _ _ Ha Hm)|].
  split; [reflexivity|]. apply after_mkdir_changes.
Qed.

(** X11.  When [readdir] throws after [mkdir] has succeeded (the source
    is not a directory, or may not be read), the answer is the single
    [OPERATION_ERROR] with the message of what was thrown, and the target
    directory made by [mkdir] stays: the run is not undone. *)
Theorem listing_failure_reported sourceDir targetDir w u u' e :
  fs_access (disk w) sourceDir = inr u ->
  fst (fs_mkdir (disk w) targetDir) = inr u' ->
  fs_readdir (disk (after_mkdir targetDir w)) sourceDir = inl e ->
  exists w',
    copyGlobalRulesFiles sourceDir targetDir w
    = (inr {| success := false;
              errors := Some [ {| type := OPERATION_ERROR;
                                  message := error_message_or
                                               "Unknown error occurred" e |} ] |},
       w') /\
    fs_lookup (disk w') (path_locate targetDir) = Some Directory /\
    (forall l,
       fs_lookup (disk w') l = fs_lookup (disk w) l \/
       (fs_lookup (disk w) l = None /\ fs_lookup (disk w') l = Some Directory /\
        exists rest, path_locate targetDir = l ++ rest)).
Proof.
  intros Ha Hm Hr. exists (after_mkdir targetDir w).
  split; [apply (sync_readdir_throws _ _ _ _ _ _ Ha Hm Hr)|].
  split; [|apply after_mkdir_changes].
  unfold after_mkdir. simpl. destruct u'.
  apply (mkdir_ok _ _ _ [] Hm). symmetry. apply app_nil_r.
Qed.

(** X12.  Copying there and back: after a successful run from one
    directory to another and a successful run the other way, every
    matching regular file of the first directory is in both directories
    with the bytes and mode it had at the start. *)
Theorem copy_there_and_back sourceDir targetDir w r1 w1 r2 w2 :
  copyGlobalRulesFiles sourceDir targetDir w = (inr r1, w1) ->
  success r1 = true ->
  copyGlobalRulesFiles targetDir sourceDir w1 = (inr r2, w2) ->
  success r2 = true ->
  forall f bytes mode,
    startsWith f "g-" = true ->
    entry w sourceDir f = Some (RegularFile bytes mode) ->
    entry w2 sourceDir f = Some (RegularFile bytes mode) /\
    entry w2 targetDir f = Some (RegularFile bytes mode).
Proof.
  intros H1 Hok1 H2 Hok2 f bytes mode Hg Hf.
  destruct (sync_run sourceDir targetDir w) as (r & w' & Heq & Hrun1).
  rewrite Heq in H1. injection H1 as <- <-.
  destruct (sync_run targetDir sourceDir w') as (r' & w'' & Heq' & Hrun2).
  rewrite Heq' in H2. injection H2 as <- <-.
  assert (Hreg : is_regular (entry w sourceDir f) = true) by (rewrite Hf; reflexivity).
  pose proof (sync_copied _ _ _ _ _ Hrun1 Hok1 f Hg Hreg) as Htgt.
  rewrite Hf in Htgt.
  assert (Hreg' : is_regular (entry w' targetDir f) = true)
    by (rewrite Htgt; reflexivity).
  split.
  - rewrite (sync_copied _ _ _ _ _ Hrun2 Hok2 f Hg Hreg'). exact Htgt.
  - rewrite (sync_source _ _ _ _ _ Hrun2 f Hreg'). exact Htgt.
Qed.

(** ** The operations and the dispatcher *)

(** The errors a response carries. *)
Definition reported (r : GlobalRulesResponse) : list ErrorRecord :=
  match errors r with
  | Some es => es
  | None => []
  end.

Lemma sync_reports_operation_errors sourceDir targetDir w r w' :
  SyncRun sourceDir targetDir w r w' ->
  forall e, In e (reported r) -> type e = OPERATION_ERROR.
Proof.
  intros Hrun e.
  destruct Hrun as [e0 Ha|u e0 Ha Hm|u u' e0 Ha Hm Hr
                   |u u' files outcomes w' Ha Hm Hr Hatt];
    try (intros [<-|[]]; reflexivity).
  destruct (errors_of outcomes) as [|e1 es] eqn:Hes; [intros []|].
  intros He. apply (errors_of_types outcomes). rewrite Hes. exact He.
Qed.

Lemma sync_well_formed sourceDir targetDir w r w' :
  SyncRun sourceDir targetDir w r w' -> well_formed r.
Proof.
  intros Hrun.
  destruct Hrun as [e Ha|u e Ha Hm|u u' e Ha Hm Hr
                   |u u' files outcomes w' Ha Hm Hr Hatt];
    try (split; simpl; [eauto|discriminate]).
  destruct (errors_of outcomes) as [|e es]; split; simpl;
    try discriminate; eauto.
Qed.

(** X13.  The two kinds of error never meet in one response: either
    [loadConfig] failed, the response is its one [CONFIG_PARSING_ERROR]
    and the world is untouched, or [loadConfig] succeeded and every error
    of the response is an [OPERATION_ERROR]. *)
Theorem error_kinds_not_mixed d path w :
  exists r w',
    operation d path w = (inr r, w') /\
    ((exists e, loadConfig w = (inr (ConfigFailed e), w) /\
                r = {| success := false; errors := Some [e] |} /\
                type e = CONFIG_PARSING_ERROR /\ w' = w) \/
     (exists cfg, loadConfig w = (inr (ConfigOk cfg), w) /\
                  forall e, In e (reported r) -> type e = OPERATION_ERROR)).
Proof.
  destruct (loadConfig_returns w) as [[cfg|e] Hcfg].
  - destruct (sync_run (fst (roles d (config_dir cfg) path))
                       (snd (roles d (config_dir cfg) path)) w)
      as (r & w' & Heq & Hrun).
    exists r, w'. rewrite (operation_config_ok d path w cfg Hcfg).
    split; [exact Heq|]. right. exists cfg. split; [exact Hcfg|].
    apply (sync_reports_operation_errors _ _ _ _ _ Hrun).
  - exists (FailedResponse [e]), w.
    split; [apply (operation_config_failed d path w e Hcfg)|].
    left. exists e. repeat split; [exact Hcfg|].
    apply (loadConfig_failed_type _ _ _ Hcfg).
Qed.

Lemma operation_returns d path w :
  exists r w', operation d path w = (inr r, w') /\ well_formed r.
Proof.
  destruct (loadConfig_returns w) as [[cfg|e] Hcfg].
  - destruct (sync_run (fst (roles d (config_dir cfg) path))
                       (snd (roles d (config_dir cfg) path)) w)
      as (r & w' & Heq & Hrun).
    exists r, w'. rewrite (operation_config_ok d path w cfg Hcfg).
    split; [exact Heq|]. apply (sync_well_formed _ _ _ _ _ Hrun).
  - exists (FailedResponse [e]), w.
    split; [apply (operation_config_failed d path w e Hcfg)|].
    split; simpl; [eauto|discriminate].
Qed.

(** The direction a tool name stands for. *)
Definition direction_of (name : string) : option Direction :=
  if String.eqb name "loadGlobalRules" then Some Load
  else if String.eqb name "saveGlobalRules" then Some Save
  else None.

(** [args.path] when the arguments are of the declared type
    [{ path: string }]. *)
Definition request_path (args : JsValue) : option string :=
  match get_property args "path" with
  | inr (JsString p) => Some p
  | _ => None
  end.

(** What [path.join(args.path, '.cursor', 'rules')] throws when the
    arguments are not of the declared type. *)
Definition path_type_error (reject : JsValue -> string) (args : JsValue) : JsThrown :=
  match get_property args "path" with
  | inl e => e
  | inr requestPath => ThrownError (reject requestPath)
  end.

Lemma join_rules_dir_typed reject args p w :
  request_path args = Some p ->
  join_rules_dir reject args w = (inr (path_join [p; ".cursor"; "rules"]), w).
Proof.
  unfold request_path, join_rules_dir, bind, lift.
  destruct (get_property args "path") as [e|[]]; try discriminate.
  intros [= ->]. reflexivity.
Qed.

Lemma join_rules_dir_ill_typed reject args w :
  request_path args = None ->
  join_rules_dir reject args w = (inl (path_type_error reject args), w).
Proof.
  unfold request_path, join_rules_dir, path_type_error, bind, lift.
  destruct (get_property args "path") as [e|[]]; try discriminate; reflexivity.
Qed.

(** The dispatcher on a direction: the handler of that direction run on
    the unchecked arguments. *)
Definition handler_on (reject : JsValue -> string) (d : Direction) : JsValue -> Js ToolResult :=
  match d with
  | Load => handleLoadGlobalRules_on reject
  | Save => handleSaveGlobalRules_on reject
  end.

(** On arguments of the declared type the cast is sound: the handler
    run on the raw value is the typed handler. *)
Lemma handler_on_typed reject d args p w :
  request_path args = Some p ->
  handler_on reject d args w = handler d p w.
Proof.
  intros Hp.
  destruct d; unfold handler_on, handler, handleLoadGlobalRules_on,
    handleSaveGlobalRules_on, handleLoadGlobalRules, handleSaveGlobalRules, bind;
    destruct (loadConfig w) as [[e|[cfg|err]] w1]; try reflexivity;
    rewrite (join_rules_dir_typed reject args p w1 Hp); reflexivity.
Qed.

(** On other arguments the handler gets as far as [loadConfig], and
    throws if that succeeds. *)
Lemma handler_on_ill_typed reject d args w :
  request_path args = None ->
  handler_on reject d args w
  = match loadConfig w with
    | (inr (ConfigOk _), w1) => (inl (path_type_error reject args), w1)
    | (inr (ConfigFailed error), w1) =>
        (inr (text_result
                (JSON_stringify {| success := false; errors := Some [error] |})), w1)
    | (inl e, w1) => (inl e, w1)
    end.
Proof.
  intros Hp.
  destruct d; unfold handler_on, handleLoadGlobalRules_on, handleSaveGlobalRules_on, bind;
    destruct (loadConfig w) as [[e|[cfg|err]] w1]; try reflexivity;
    rewrite (join_rules_dir_ill_typed reject args w1 Hp); reflexivity.
Qed.

Lemma callTool_direction reject name args w :
  callTool reject name args w
  = match direction_of name with
    | Some d => handler_on reject d args w
    | None => (inl (ThrownError ("Unknown tool: " ++ name)), w)
    end.
Proof.
  unfold callTool, direction_of.
  destruct (String.eqb name "loadGlobalRules"); [reflexivity|].
  destruct (String.eqb name "saveGlobalRules"); reflexivity.
Qed.

(** X14.  The [CallTool] handler serves exactly the names that the
    [ListTools] handler announces; for any other name it throws
    [Unknown tool: <name>] and touches nothing.  For an announced name
    and arguments that hold a string [path], it is the handler of that
    name on that path: it returns one text item holding the JSON of a
    well-formed response of that operation.  For an announced name and
    any other arguments (none at all, or a [path] that is not a string)
    the unchecked cast lets the handler run: it returns only when
    [loadConfig] fails, with that configuration error; when the
    configuration loads it throws the [TypeError] of [request.path] or
    of [path.join], having changed nothing. *)
Theorem callTool_serves_listed_tools reject name args w :
  match direction_of name with
  | None =>
      ~ In name (map Tools.name Tools.tools) /\
      callTool reject name args w = (inl (ThrownError ("Unknown tool: " ++ name)), w)
  | Some d =>
      In name (map Tools.name Tools.tools) /\
      match request_path args with
      | Some p =>
          callTool reject name args w = handler d p w /\
          exists r w',
            operation d p w = (inr r, w') /\
            callTool reject name args w = (inr (text_result (JSON_stringify r)), w') /\
            well_formed r
      | None =>
          exists configResult,
            loadConfig w = (inr configResult, w) /\
            match configResult with
            | ConfigFailed error =>
                callTool reject name args w
                = (inr (text_result
                          (JSON_stringify {| success := false; errors := Some [error] |})),
                   w)
            | ConfigOk _ =>
                callTool reject name args w
                = (inl match get_property args "path" with
                       | inl e => e
                       | inr requestPath => ThrownError (reject requestPath)
                       end, w)
            end
      end
  end.
Proof.
  rewrite callTool_direction.
  assert (Hlisted : match direction_of name with
                    | Some _ => In name (map Tools.name Tools.tools)
                    | None => ~ In name (map Tools.name Tools.tools)
                    end).
  { unfold direction_of.
    destruct (String.eqb name "loadGlobalRules") eqn:Hload.
    { apply String.eqb_eq in Hload. subst name. left. reflexivity. }
    destruct (String.eqb name "saveGlobalRules") eqn:Hsave.
    { apply String.eqb_eq in Hsave. subst name. right. left. reflexivity. }
    apply String.eqb_neq in Hload, Hsave.
    intros [H|[H|[]]]; simpl in H; congruence. }
  destruct (direction_of name) as [d|]; [|split; [exact Hlisted|reflexivity]].
  split; [exact Hlisted|].
  destruct (request_path args) as [p|] eqn:Hp.
  - rewrite (handler_on_typed reject d args p w Hp).
    split; [reflexivity|].
    destruct (operation_returns d p w) as (r & w' & Hop & Hwf).
    exists r, w'. split; [exact Hop|]. split; [|exact Hwf].
    rewrite handler_envelope, Hop. reflexivity.
  - rewrite (handler_on_ill_typed reject d args w Hp).
    destruct (loadConfig_returns w) as [configResult Hcfg].
    exists configResult. split; [exact Hcfg|].
    rewrite Hcfg. destruct configResult; reflexivity.
Qed.

(** X15.  With a configuration that loads, [handleLoadGlobalRules] never
    stops at the source check of [copyGlobalRulesFiles]: [loadConfig] has
    just had [fs.access] accept the same string on the same disk.  The
    run is [mkdir] and what follows it.  If [mkdir] throws, that is the
    one error and the world is what [mkdir] left.  If not, the project
    has a [.cursor/rules] directory afterwards, and the answer is that
    of the listing or of the loop, run on the world [mkdir] left. *)
Theorem load_reaches_mkdir path w cfg :
  loadConfig w = (inr (ConfigOk cfg), w) ->
  (exists u, fs_access (disk w) (config_dir cfg) = inr u) /\
  exists r w',
    handleLoadGlobalRules {| path := path |} w
    = (inr (text_result (JSON_stringify r)), w') /\
    operation Load path w = (inr r, w') /\
    match fst (fs_mkdir (disk w) (path_join [path; ".cursor"; "rules"])) with
    | inl e =>
        r = {| success := false;
               errors := Some [ {| type := OPERATION_ERROR;
                                   message := error_message_or
                                                "Unknown error occurred" e |} ] |} /\
        w' = after_mkdir (path_join [path; ".cursor"; "rules"]) w
    | inr _ =>
        fs_lookup (disk w') (path_locate path ++ [".cursor"; "rules"]) = Some Directory /\
        match fs_readdir (disk (after_mkdir (path_join [path; ".cursor"; "rules"]) w))
                (config_dir cfg) with
        | inl e =>
            r = {| success := false;
                   errors := Some [ {| type := OPERATION_ERROR;
                                       message := error_message_or
                                                    "Unknown error occurred" e |} ] |} /\
            w' = after_mkdir (path_join [path; ".cursor"; "rules"]) w
        | inr files =>
            exists outcomes,
              Attempts (config_dir cfg) (path_join [path; ".cursor"; "rules"])
                (after_mkdir (path_join [path; ".cursor"; "rules"]) w)
                (List.filter (fun file => startsWith file "g-") files) outcomes w' /\
              r = response_of (errors_of outcomes)
        end
    end.
Proof.
  intros Hcfg.
  destruct (loadConfig_ok _ _ _ Hcfg) as (content & u & _ & _ & _ & _ & Ha).
  split; [exists u; exact Ha|].
  pose proof (handler_envelope Load path w) as Hh.
  rewrite (operation_config_ok Load path w cfg Hcfg) in *. cbn [roles fst snd] in *.
  destruct (sync_run (config_dir cfg) (path_join [path; ".cursor"; "rules"]) w)
    as (r & w' & Heq & Hrun).
  exists r, w'. rewrite Heq in Hh.
  split; [exact Hh|]. split; [exact Heq|].
  destruct Hrun as [e0 Ha0|u0 e0 Ha0 Hm0|u0 u1 e0 Ha0 Hm0 Hr
                   |u0 u1 files outcomes w' Ha0 Hm0 Hr Hatt].
  - congruence.
  - rewrite Hm0. split; reflexivity.
  - rewrite Hm0, Hr. split; [|split; reflexivity].
    rewrite <- rules_dir_locate. unfold after_mkdir. simpl. destruct u1.
    apply (mkdir_ok _ _ _ [] Hm0). symmetry. apply app_nil_r.
  - rewrite Hm0, Hr. split; [|exists outcomes; split; [exact Hatt|reflexivity]].
    rewrite <- rules_dir_locate.
    apply (run_keeps_target_directory _ _ _ _ _ _ _ _ []
             (run_loop _ _ _ _ _ _ _ _ Ha0 Hm0 Hr Hatt) Ha0 Hm0).
    symmetry. apply app_nil_r.
Qed.

(** X16.  [saveGlobalRules] makes no directory in the project: when the
    project has no [.cursor/rules], the answer is the single
    [OPERATION_ERROR] naming that directory, and the world is as it
    was. *)
Theorem save_needs_project_rules path w cfg :
  loadConfig w = (inr (ConfigOk cfg), w) ->
  fs_lookup (disk w) (path_locate path ++ [".cursor"; "rules"]) = None ->
  operation Save path w
  = (inr {| success := false;
            errors := Some [ {| type := OPERATION_ERROR;
                                message := "Source directory does not exist: "
                                           ++ path_join [path; ".cursor"; "rules"] |} ] |},
     w) /\
  handler Save path w
  = (inr (text_result
            (JSON_stringify
               {| success := false;
                  errors := Some [ {| type := OPERATION_ERROR;
                                      message := "Source directory does not exist: "
                                                 ++ path_join [path; ".cursor"; "rules"] |} ] |})),
     w).
Proof.
  intros Hcfg Hmiss. rewrite <- rules_dir_locate in Hmiss.
  destruct (access_missing _ _ Hmiss) as [e He].
  assert (Hop : operation Save path w
    = (inr (FailedResponse
              [operation_error ("Source directory does not exist: "
                                ++ path_join [path; ".cursor"; "rules"])]), w)).
  { rewrite (operation_config_ok Save path w cfg Hcfg). simpl.
    apply (sync_source_inaccessible _ _ _ _ He). }
  split; [exact Hop|].
  rewrite handler_envelope, Hop. reflexivity.
Qed.

End Behaviour.

(** * The further properties on concrete runs *)

Module Cases.

Import Scenario.

(** The parsed [config.json] of the scenarios that name [/global]. *)
Definition global_config : JsValue :=
  JsObject [("globalRulesSourceDir", JsString "/global")].

(** A [config.json] that is the empty object. *)
Definition empty_config : @World MemEnv :=
  world_of (installed "{}" ++ [ (["proj"], Directory) ]).

(** A [config.json] whose directory is a number. *)
Definition numeric_text : string :=
  "{" ++ Json.dquote ++ "globalRulesSourceDir" ++ Json.dquote ++ ": 7}".

Definition numeric_config : @World MemEnv :=
  world_of (installed numeric_text ++ [ (["proj"], Directory) ]).

(** A [config.json] whose directory is a number too small for a double. *)
Definition underflow_text : string :=
  "{" ++ Json.dquote ++ "globalRulesSourceDir" ++ Json.dquote ++ ": 1e-400}".

Definition underflow_config : @World MemEnv :=
  world_of (installed underflow_text ++ [ (["proj"], Directory) ]).

(** The directory is there, but [config.json] names it with a blank
    before and after. *)
Definition padded_config : @World MemEnv :=
  world_of (installed (config_text " /global ") ++
    [ (["global"], Directory); (["proj"], Directory) ]).

(** No [config.json] at all. *)
Definition no_config : @World MemEnv :=
  world_of [ (["opt"], Directory);
             (["opt"; "global-mdc"], Directory);
             (["proj"], Directory) ].

(** A [config.json] cut short. *)
Definition truncated_config : @World MemEnv :=
  world_of (installed "{" ++ [ (["proj"], Directory) ]).

(** X1 on the configuration of [rules]. *)
Lemma loadConfig_succeeds_iff_witness :
  loadConfig rules = (inr (ConfigOk global_config), rules).
Proof.
  apply (proj2 (loadConfig_succeeds_iff rules global_config)).
  exists tt, (config_text "/global"), "/global", tt.
  split; [vm_compute; reflexivity|]. split; [vm_compute; reflexivity|].
  split; [vm_compute; reflexivity|]. split; [reflexivity|].
  split; [vm_compute; discriminate|vm_compute; reflexivity].
Defined.

(** X2 on a [config.json] without the property. *)
Lemma unset_directory_reported_witness :
  fs_access (disk empty_config) configPath = inr tt /\
  fs_readFile (disk empty_config) configPath = inr "{}" /\
  JSON_parse "{}" = inr (JsObject []) /\
  get_property (JsObject []) "globalRulesSourceDir" = inr JsUndefined /\
  loadConfig empty_config
  = (inr (ConfigFailed
            {| type := CONFIG_PARSING_ERROR;
               message := "globalRulesSourceDir is not set or empty in config.json" |}),
     empty_config).
Proof.
  assert (Ha : fs_access (disk empty_config) configPath = inr tt)
    by (vm_compute; reflexivity).
  assert (Hr : fs_readFile (disk empty_config) configPath = inr "{}")
    by (vm_compute; reflexivity).
  assert (Hp : @JSON_parse MemEnv "{}" = inr (JsObject []))
    by (vm_compute; reflexivity).
  assert (Hd : get_property (JsObject []) "globalRulesSourceDir" = inr JsUndefined)
    by reflexivity.
  split; [exact Ha|]. split; [exact Hr|]. split; [exact Hp|]. split; [exact Hd|].
  apply (unset_directory_reported empty_config tt "{}" (JsObject []) JsUndefined
           Ha Hr Hp Hd).
  left. reflexivity.
Defined.

(** X3 on a [config.json] whose directory is the number 7. *)
Lemma non_string_directory_reported_witness :
  fs_access (disk numeric_config) configPath = inr tt /\
  fs_readFile (disk numeric_config) configPath = inr numeric_text /\
  JSON_parse numeric_text = inr (JsObject [("globalRulesSourceDir", JsNumber 7 0)]) /\
  exists reason,
    call_trim (JsNumber 7 0) = inl (ThrownError reason) /\
    loadConfig numeric_config
    = (inr (ConfigFailed
              {| type := CONFIG_PARSING_ERROR;
                 message := "Failed to parse config.json: " ++ reason |}),
       numeric_config).
Proof.
  assert (Ha : fs_access (disk numeric_config) configPath = inr tt)
    by (vm_compute; reflexivity).
  assert (Hr : fs_readFile (disk numeric_config) configPath = inr numeric_text)
    by (vm_compute; reflexivity).
  assert (Hp : @JSON_parse MemEnv numeric_text
               = inr (JsObject [("globalRulesSourceDir", JsNumber 7 0)]))
    by (vm_compute; reflexivity).
  split; [exact Ha|]. split; [exact Hr|]. split; [exact Hp|].
  apply (non_string_directory_reported numeric_config tt numeric_text
           (JsObject [("globalRulesSourceDir", JsNumber 7 0)]) (JsNumber 7 0)
           Ha Hr Hp eq_refl eq_refl).
  intros s. discriminate.
Defined.

(** X4 on a directory named with blanks around it: the name is looked
    up as written, and so not found. *)
Lemma inaccessible_directory_reported_witness :
  js_trim " /global " = "/global" /\
  fs_access (disk padded_config) "/global" = inr tt /\
  loadConfig padded_config
  = (inr (ConfigFailed
            {| type := CONFIG_PARSING_ERROR;
               message := "Global rules directory does not exist: " ++ " /global " |}),
     padded_config).
Proof.
  split; [vm_compute; reflexivity|].
  split; [vm_compute; reflexivity|].
  apply (inaccessible_directory_reported padded_config tt (config_text " /global ")
           (JsObject [("globalRulesSourceDir", JsString " /global ")]) " /global "
           (ThrownError "ENOENT: no such file or directory, access ' /global '"));
    try (vm_compute; reflexivity).
  vm_compute. discriminate.
Defined.

(** X5 on an installation without [config.json]. *)
Lemma inaccessible_store_reported_witness :
  loadConfig no_config
  = (inr (ConfigFailed
            {| type := CONFIG_PARSING_ERROR;
               message := "Configuration file " ++ configPath ++ " not found" |}),
     no_config).
Proof.
  apply (inaccessible_store_reported no_config
           (ThrownError "ENOENT: no such file or directory, access '/opt/global-mdc/config.json'")).
  vm_compute. reflexivity.
Defined.

(** X6 on a [config.json] that does not parse. *)
Lemma thrown_while_loading_reported_witness :
  fs_readFile (disk truncated_config) configPath = inr "{" /\
  JSON_parse "{" = inl (ThrownError "Unexpected token in JSON") /\
  loadConfig truncated_config
  = (inr (ConfigFailed
            {| type := CONFIG_PARSING_ERROR;
               message := "Failed to parse config.json: "
                          ++ error_message_or "Unknown error"
                               (ThrownError "Unexpected token in JSON") |}),
     truncated_config).
Proof.
  assert (Hr : fs_readFile (disk truncated_config) configPath = inr "{")
    by (vm_compute; reflexivity).
  assert (Hp : @JSON_parse MemEnv "{" = inl (ThrownError "Unexpected token in JSON"))
    by (vm_compute; reflexivity).
  split; [exact Hr|]. split; [exact Hp|].
  apply (thrown_while_loading_reported truncated_config tt
           (ThrownError "Unexpected token in JSON")).
  - vm_compute. reflexivity.
  - right. exists "{". split; [exact Hr|]. left. exact Hp.
Defined.


(** X7 on the run in which [g-b.mdc] cannot be copied: one error, and
    [g-a.mdc] is in the project all the same. *)
Lemma partial_failure_keeps_copies_witness :
  fs_access (disk blocked_file) "/global" = inr tt /\
  fst (fs_mkdir (disk blocked_file) rulesDir) = inr tt /\
  fs_readdir (disk (after_mkdir rulesDir blocked_file)) "/global"
  = inr ["other.mdc"; "g-b.mdc"; "g-a.mdc"] /\
  exists outcomes w',
    copyGlobalRulesFiles "/global" rulesDir blocked_file
    = (inr (response_of (errors_of outcomes)), w') /\
    map fst outcomes = ["g-b.mdc"; "g-a.mdc"] /\
    List.length (errors_of outcomes) <= 2 /\
    ((forall e, ~ In ("g-a.mdc", inl e) outcomes) ->
     entry w' rulesDir "g-a.mdc" = Some (RegularFile "# A" true)).
Proof.
  assert (Ha : fs_access (disk blocked_file) "/global" = inr tt)
    by (vm_compute; reflexivity).
  assert (Hm : fst (fs_mkdir (disk blocked_file) rulesDir) = inr tt)
    by (vm_compute; reflexivity).
  assert (Hr : fs_readdir (disk (after_mkdir rulesDir blocked_file)) "/global"
               = inr ["other.mdc"; "g-b.mdc"; "g-a.mdc"])
    by (vm_compute; reflexivity).
  split; [exact Ha|]. split; [exact Hm|]. split; [exact Hr|].
  destruct (partial_failure_keeps_copies "/global" rulesDir blocked_file _ Ha Hm Hr)
    as (outcomes & w' & Hrun & Hnames & _ & Hcount & Hkept).
  exists outcomes, w'.
  split; [exact Hrun|]. split; [exact Hnames|]. split; [exact Hcount|].
  apply (Hkept "g-a.mdc" "# A" true); vm_compute; reflexivity.
Defined.

(** X8 on the global directory named in two ways. *)
Lemma sync_onto_itself_changes_no_entry_witness :
  path_locate "/global" = path_locate "/global/" /\
  fs_lookup (disk (snd (copyGlobalRulesFiles "/global" "/global/" rules)))
    ["global"; "g-a.mdc"]
  = fs_lookup (disk rules) ["global"; "g-a.mdc"].
Proof.
  assert (Hsame : @path_locate MemEnv "/global" = @path_locate MemEnv "/global/")
    by (vm_compute; reflexivity).
  split; [exact Hsame|].
  apply (sync_onto_itself_changes_no_entry "/global" "/global/" rules
           (fst (copyGlobalRulesFiles "/global" "/global/" rules))
           (snd (copyGlobalRulesFiles "/global" "/global/" rules)) Hsame).
  - apply surjective_pairing.
  - vm_compute. discriminate.
Defined.

(** X9 on the run with a failed attempt: [.cursor] is a directory at the
    end. *)
Lemma target_directory_made_witness :
  fs_access (disk rules) "/global" = inr tt /\
  fst (fs_mkdir (disk rules) rulesDir) = inr tt /\
  fs_lookup (disk rules) ["proj"; ".cursor"] = None /\
  fs_lookup (disk (snd (copyGlobalRulesFiles "/global" rulesDir rules)))
    ["proj"; ".cursor"] = Some Directory.
Proof.
  assert (Ha : fs_access (disk rules) "/global" = inr tt)
    by (vm_compute; reflexivity).
  assert (Hm : fst (fs_mkdir (disk rules) rulesDir) = inr tt)
    by (vm_compute; reflexivity).
  split; [exact Ha|]. split; [exact Hm|]. split; [vm_compute; reflexivity|].
  apply (target_directory_made "/global" rulesDir rules
           (fst (copyGlobalRulesFiles "/global" rulesDir rules))
           (snd (copyGlobalRulesFiles "/global" rulesDir rules)) tt tt Ha Hm
           (surjective_pairing _) ["proj"; ".cursor"] ["rules"]).
  vm_compute. reflexivity.
Defined.

(** X10 on a project in which [.cursor] is a regular file. *)
Lemma mkdir_failure_reported_witness :
  fs_access (disk blocked_target) "/global" = inr tt /\
  fst (fs_mkdir (disk blocked_target) rulesDir)
  = inl (ThrownError "ENOTDIR: not a directory, mkdir '/proj/.cursor/rules'") /\
  exists w',
    copyGlobalRulesFiles "/global" rulesDir blocked_target
    = (inr {| success := false;
              errors := Some [ {| type := OPERATION_ERROR;
                                  message := "ENOTDIR: not a directory, mkdir '/proj/.cursor/rules'" |} ] |},
       w') /\
    this w' = this blocked_target.
Proof.
  assert (Ha : fs_access (disk blocked_target) "/global" = inr tt)
    by (vm_compute; reflexivity).
  assert (Hm : fst (fs_mkdir (disk blocked_target) rulesDir)
               = inl (ThrownError "ENOTDIR: not a directory, mkdir '/proj/.cursor/rules'"))
    by (vm_compute; reflexivity).
  split; [exact Ha|]. split; [exact Hm|].
  destruct (mkdir_failure_reported "/global" rulesDir blocked_target tt _ Ha Hm)
    as (w' & Hrun & Hthis & _).
  exists w'. split; [exact Hrun|exact Hthis].
Defined.

(** X11 on a source that is a regular file: [access] accepts it,
    [readdir] does not. *)
Lemma listing_failure_reported_witness :
  fs_access (disk rules) "/global/g-a.mdc" = inr tt /\
  fst (fs_mkdir (disk rules) rulesDir) = inr tt /\
  fs_readdir (disk (after_mkdir rulesDir rules)) "/global/g-a.mdc"
  = inl (ThrownError "ENOTDIR: not a directory, scandir '/global/g-a.mdc'") /\
  exists w',
    copyGlobalRulesFiles "/global/g-a.mdc" rulesDir rules
    = (inr {| success := false;
              errors := Some [ {| type := OPERATION_ERROR;
                                  message := "ENOTDIR: not a directory, scandir '/global/g-a.mdc'" |} ] |},
       w') /\
    fs_lookup (disk w') (path_locate rulesDir) = Some Directory.
Proof.
  assert (Ha : fs_access (disk rules) "/global/g-a.mdc" = inr tt)
    by (vm_compute; reflexivity).
  assert (Hm : fst (fs_mkdir (disk rules) rulesDir) = inr tt)
    by (vm_compute; reflexivity).
  assert (Hr : fs_readdir (disk (after_mkdir rulesDir rules)) "/global/g-a.mdc"
               = inl (ThrownError "ENOTDIR: not a directory, scandir '/global/g-a.mdc'"))
    by (vm_compute; reflexivity).
  split; [exact Ha|]. split; [exact Hm|]. split; [exact Hr|].
  destruct (listing_failure_reported "/global/g-a.mdc" rulesDir rules tt tt _ Ha Hm Hr)
    as (w' & Hrun & Hdir & _).
  exists w'. split; [exact Hrun|exact Hdir].
Defined.

(** X12 on [rules]: into the project and back. *)
Lemma copy_there_and_back_witness :
  fst (copyGlobalRulesFiles "/global" rulesDir rules) = inr SuccessResponse /\
  fst (copyGlobalRulesFiles rulesDir "/global"
         (snd (copyGlobalRulesFiles "/global" rulesDir rules)))
  = inr SuccessResponse /\
  entry (snd (copyGlobalRulesFiles rulesDir "/global"
                (snd (copyGlobalRulesFiles "/global" rulesDir rules))))
    "/global" "g-a.mdc"
  = Some (RegularFile "# A" true) /\
  entry (snd (copyGlobalRulesFiles rulesDir "/global"
                (snd (copyGlobalRulesFiles "/global" rulesDir rules))))
    rulesDir "g-a.mdc"
  = Some (RegularFile "# A" true).
Proof.
  assert (H1 : fst (copyGlobalRulesFiles "/global" rulesDir rules)
               = inr SuccessResponse)
    by (vm_compute; reflexivity).
  assert (H2 : fst (copyGlobalRulesFiles rulesDir "/global"
                      (snd (copyGlobalRulesFiles "/global" rulesDir rules)))
               = inr SuccessResponse)
    by (vm_compute; reflexivity).
  split; [exact H1|]. split; [exact H2|].
  apply (copy_there_and_back "/global" rulesDir rules SuccessResponse
           (snd (copyGlobalRulesFiles "/global" rulesDir rules)) SuccessResponse
           (snd (copyGlobalRulesFiles rulesDir "/global"
                   (snd (copyGlobalRulesFiles "/global" rulesDir rules))))
           (Runs.run_result _ _ H1) eq_refl (Runs.run_result _ _ H2) eq_refl
           "g-a.mdc" "# A" true).
  - vm_compute. reflexivity.
  - vm_compute. reflexivity.
Defined.

(** X15 on [rules]: the source check passes, and the answer is that of
    the loop run on what [mkdir] left. *)
Lemma load_reaches_mkdir_witness :
  loadConfig rules = (inr (ConfigOk global_config), rules) /\
  fst (fs_mkdir (disk rules) (path_join ["/proj"; ".cursor"; "rules"])) = inr tt /\
  fs_readdir (disk (after_mkdir (path_join ["/proj"; ".cursor"; "rules"]) rules))
    (config_dir global_config)
  = inr ["other.mdc"; "g-b.mdc"; "g-a.mdc"] /\
  (exists u, fs_access (disk rules) (config_dir global_config) = inr u) /\
  exists r w',
    handleLoadGlobalRules {| path := "/proj" |} rules
    = (inr (text_result (JSON_stringify r)), w') /\
    fs_lookup (disk w') (path_locate "/proj" ++ [".cursor"; "rules"]) = Some Directory /\
    exists outcomes,
      Attempts (config_dir global_config) (path_join ["/proj"; ".cursor"; "rules"])
        (after_mkdir (path_join ["/proj"; ".cursor"; "rules"]) rules)
        (List.filter (fun file => startsWith file "g-")
           ["other.mdc"; "g-b.mdc"; "g-a.mdc"]) outcomes w' /\
      r = response_of (errors_of outcomes).
Proof.
  assert (Hcfg : loadConfig rules = (inr (ConfigOk global_config), rules))
    by (apply Runs.config_result; vm_compute; reflexivity).
  assert (Hm : fst (fs_mkdir (disk rules) (path_join ["/proj"; ".cursor"; "rules"]))
               = inr tt)
    by (vm_compute; reflexivity).
  assert (Hr : fs_readdir
                 (disk (after_mkdir (path_join ["/proj"; ".cursor"; "rules"]) rules))
                 (config_dir global_config)
               = inr ["other.mdc"; "g-b.mdc"; "g-a.mdc"])
    by (vm_compute; reflexivity).
  split; [exact Hcfg|]. split; [exact Hm|]. split; [exact Hr|].
  destruct (load_reaches_mkdir "/proj" rules global_config Hcfg)
    as (Ha & r & w' & Hh & _ & Hrun).
  split; [exact Ha|].
  exists r, w'. split; [exact Hh|].
  rewrite Hm, Hr in Hrun. exact Hrun.
Defined.

(** X16 on [rules], whose project has no [.cursor/rules]. *)
Lemma save_needs_project_rules_witness :
  loadConfig rules = (inr (ConfigOk global_config), rules) /\
  fs_lookup (disk rules) (path_locate "/proj" ++ [".cursor"; "rules"]) = None /\
  operation Save "/proj" rules
  = (inr {| success := false;
            errors := Some [ {| type := OPERATION_ERROR;
                                message := "Source directory does not exist: "
                                           ++ path_join ["/proj"; ".cursor"; "rules"] |} ] |},
     rules).
Proof.
  assert (Hcfg : loadConfig rules = (inr (ConfigOk global_config), rules))
    by (apply Runs.config_result; vm_compute; reflexivity).
  assert (Hmiss : fs_lookup (disk rules) (path_locate "/proj" ++ [".cursor"; "rules"])
                  = None)
    by (vm_compute; reflexivity).
  split; [exact Hcfg|]. split; [exact Hmiss|].
  exact (proj1 (save_needs_project_rules "/proj" rules global_config Hcfg Hmiss)).
Defined.

(** X14 on a call without arguments and on a [path] that is not a
    string: the configuration of [rules] loads, and the handler throws. *)
Example call_without_arguments_throws reject :
  fst (callTool reject "loadGlobalRules" JsUndefined rules)
  = inl (ThrownError "Cannot read properties of undefined (reading 'path')") /\
  fst (callTool reject "saveGlobalRules" (JsObject [("path", JsNumber 7 0)]) rules)
  = inl (ThrownError (reject (JsNumber 7 0))) /\
  fst (callTool reject "loadGlobalRules" (JsObject []) no_config)
  = inr (text_result
           (JSON_stringify
              {| success := false;
                 errors := Some [ {| type := CONFIG_PARSING_ERROR;
                                     message := "Configuration file /opt/global-mdc/config.json not found" |} ] |})).
Proof. repeat split; vm_compute; reflexivity. Qed.

(** X14 on arguments of the declared type, with a property more. *)
Example call_with_path_copies reject :
  fst (callTool reject "loadGlobalRules"
         (JsObject [("path", JsString "/proj"); ("force", JsBool true)]) rules)
  = fst (handleLoadGlobalRules {| path := "/proj" |} rules) /\
  fs_readdir (disk (snd (callTool reject "loadGlobalRules"
                           (JsObject [("path", JsString "/proj"); ("force", JsBool true)])
                           rules))) rulesDir
  = inr ["g-b.mdc"; "g-a.mdc"].
Proof. split; vm_compute; reflexivity. Qed.

(** X3 does not cover a number that underflows: [1e-400] is the double
    [0], which is falsy, and [loadConfig] reports the directory as not
    set. *)
Example underflowing_directory_is_unset :
  JSON_parse underflow_text = inr (JsObject [("globalRulesSourceDir", JsNumber 1 (-400))]) /\
  truthy (JsNumber 1 (-400)) = false /\
  truthy (JsNumber 5 (-324)) = true /\
  fst (loadConfig underflow_config)
  = inr (ConfigFailed
           {| type := CONFIG_PARSING_ERROR;
              message := "globalRulesSourceDir is not set or empty in config.json" |}).
Proof. repeat split; vm_compute; reflexivity. Qed.

End Cases.
